(** * Crypto arbitrage scanner: the detection core of [arbitrage_engine.cpp]

    A shallow embedding of [ArbitrageEngine] (price graph, symbol index,
    Bellman-Ford cycle search, cycle extraction, confidence score, rate-limited
    publication, ingress statistics) and the properties of its specification.

    Conventions
    - [double] is IEEE-754 binary64: Rocq's primitive [float] with its own
      [+], [-], [*], [/], [<], [==].  [std::log] and [std::exp] come from the
      C library and are not part of the repository: they are the two fields of
      the class [Libm].
    - [size_t] indices are [nat]; [int] node ids, counters and clock readings
      are [Z], wrap-around of the 32 and 64 bit counters written out.
    - [std::unordered_map] is [gmap], [std::unordered_set] is [gset],
      [std::vector] is [list].
    - Every call of [high_resolution_clock::now()] is an input of the model
      (a reading in nanoseconds).
    - The two worker threads are interleaved at the granularity of one loop
      iteration ([Call]). *)

From Stdlib Require Import ZArith QArith Qabs Floats Uint63 Ascii String.
From stdpp Require Import base option list gmap strings pretty.

Set Default Proof Using "Type".

(** * Part I: the program *)

(** ** Strings: the part of [std::string] and of C strings the engine uses *)

Module Str.

(** [std::string::find(char)]: position of the first occurrence. *)
Fixpoint find (c : ascii) (s : string) : option nat :=
  match s with
  | EmptyString => None
  | String a s' => if Ascii.eqb a c then Some 0 else S <$> find c s'
  end.

(** [s.substr(pos, n)] and [s.substr(pos)], for [pos <= s.length()]. *)
Definition substr (pos n : nat) (s : string) : string := String.substring pos n s.

Definition substr_from (pos : nat) (s : string) : string :=
  String.substring pos (String.length s - pos) s.

(** [strncpy(dst, s.c_str(), n)] into a zeroed buffer of [n + 1] bytes, read
    back as a C string: at most [n] characters, cut at the first NUL. *)
Fixpoint strncpy (n : nat) (s : string) : string :=
  match n, s with
  | S n', String a s' =>
      if Ascii.eqb a "000" then EmptyString else String a (strncpy n' s')
  | _, _ => EmptyString
  end.

(** [std::to_string] of a non-negative integer. *)
Definition to_string (n : nat) : string := pretty n.

(** No character of [s] is [c]. *)
Definition lacks (c : ascii) (s : string) : Prop :=
  ∀ i, String.get i s ≠ Some c.

End Str.

(** ** Doubles *)

Module Dbl.

Definition infinity : float := PrimFloat.infinity.

(** [std::min(a, b)] is [(b < a) ? b : a]; [std::max(a, b)] is [(a < b) ? b : a]. *)
Definition min (a b : float) : float := if (b <? a)%float then b else a.

Definition max (a b : float) : float := if (a <? b)%float then b else a.

(** Conversion of an integer to [double], for [|z| < 2^63]. *)
Definition of_Z (z : Z) : float :=
  match z with
  | Z0 => 0%float
  | Zpos _ => PrimFloat.of_uint63 (Uint63.of_Z z)
  | Zneg p => (- PrimFloat.of_uint63 (Uint63.of_Z (Zpos p)))%float
  end.

(** The integer part of a finite double (rounding toward zero). *)
Definition trunc (f : float) : option Z :=
  match Prim2SF f with
  | S754_zero _ => Some 0%Z
  | S754_finite s m e =>
      let v := match e with
               | Z0 => Zpos m
               | Zpos _ => (Zpos m * 2 ^ e)%Z
               | Zneg p => (Zpos m `quot` 2 ^ Zpos p)%Z
               end in
      Some (if s then (- v)%Z else v)
  | _ => None
  end.

(** [static_cast<uint32_t>(f)]: truncation.  The language leaves the result
    open for NaN, infinities and values outside the range of [uint32_t]; the
    model reduces modulo [2^32] and takes 0 for NaN and infinities. *)
Definition to_uint32 (f : float) : Z :=
  match trunc f with
  | Some z => (z `mod` 2 ^ 32)%Z
  | None => 0%Z
  end.

End Dbl.

(** [std::log] and [std::exp]. *)
Class Libm := { std_log : float → float; std_exp : float → float }.

(** A reference implementation of the two functions, within a few units in
    the last place of the C library's: argument reduction by powers of two and
    a truncated series.  It is the instance at which the statements below are
    evaluated on concrete inputs. *)
Module RefLibm.

Definition ln2_hi : float := 0x1.62e42feep-1.
Definition ln2_lo : float := 0x1.a39ef35793c76p-33.
Definition ln2 : float := 0x1.62e42fefa39efp-1.
Definition sqrt_half : float := 0x1.6a09e667f3bcdp-1.

(** The integer nearest to a finite double. *)
Definition nearest (f : float) : Z :=
  default 0%Z (Dbl.trunc (f + (if (f <? 0)%float then -0x1p-1 else 0x1p-1))%float).

(** [1 + r/(k-n+1) (1 + ... (1 + r/k acc))]: the exponential series. *)
Fixpoint exp_series (n : nat) (k : float) (r acc : float) : float :=
  match n with
  | O => acc
  | S n' => exp_series n' (k - 1)%float r (1 + r / k * acc)%float
  end.

Definition exp (x : float) : float :=
  if is_nan x then x
  else if (710 <? x)%float then Dbl.infinity
  else if (x <? -746)%float then 0%float
  else
    let k := nearest (x / ln2)%float in
    let r := (x - Dbl.of_Z k * ln2_hi - Dbl.of_Z k * ln2_lo)%float in
    Z.ldexp (exp_series 16 16%float r 1%float) k.

(** [1/(k-2n) + z2 (... (1/k + z2 acc))]: the series of [atanh z / z]. *)
Fixpoint atanh_series (n : nat) (k : float) (z2 acc : float) : float :=
  match n with
  | O => acc
  | S n' => atanh_series n' (k - 2)%float z2 (1 / k + z2 * acc)%float
  end.

Definition log (x : float) : float :=
  if is_nan x then x
  else if (x <? 0)%float then nan
  else if (x =? 0)%float then neg_infinity
  else if (x =? Dbl.infinity)%float then Dbl.infinity
  else
    let '(m, e) := Z.frexp x in
    let '(m, e) := if (m <? sqrt_half)%float then ((m * 2)%float, (e - 1)%Z) else (m, e) in
    let z := ((m - 1) / (m + 1))%float in
    let s := atanh_series 14 27%float (z * z)%float (1 / 29)%float in
    (Dbl.of_Z e * ln2_hi + (2 * z * s + Dbl.of_Z e * ln2_lo))%float.

End RefLibm.

Definition ref_libm : Libm := {| std_log := RefLibm.log; std_exp := RefLibm.exp |}.

(** ** types.h *)

Inductive Exchange := BINANCE | COINBASE | KRAKEN | UNKNOWN.

(** [static_cast<uint8_t>(exchange)]. *)
Definition exchange_code (x : Exchange) : nat :=
  match x with BINANCE => 0 | COINBASE => 1 | KRAKEN => 2 | UNKNOWN => 255 end.

Record MarketTick := {
  exchange : Exchange;
  symbol : string;          (* char symbol[16], as a C string *)
  bid : float;
  ask : float;
  last_price : float;
  volume : float;
  timestamp : Z;
  sequence : Z              (* uint64_t *)
}.

(** [exchange1..3], [entry_price] and [exit_price] are never written by the
    engine and are left out. *)
Record ArbitrageOpportunity := {
  path : string;
  profit_percentage : float;
  max_volume : float;
  detected_at : Z;
  confidence : Z            (* uint32_t *)
}.

Definition is_profitable (opp : ArbitrageOpportunity) (min_profit : float) : bool :=
  (min_profit <? profit_percentage opp)%float.

Record PerformanceStats := {
  messages_processed : Z;   (* uint64_t *)
  opportunities_found : Z;  (* uint64_t *)
  false_positives : Z;      (* uint64_t *)
  avg_latency_us : float
}.

Definition new_stats : PerformanceStats :=
  {| messages_processed := 0; opportunities_found := 0; false_positives := 0;
     avg_latency_us := 0%float |}.

(** [PerformanceStats::update_latency]: exponential moving average. *)
Definition update_latency (latency_us : float) (st : PerformanceStats) : PerformanceStats :=
  {| messages_processed := messages_processed st;
     opportunities_found := opportunities_found st;
     false_positives := false_positives st;
     avg_latency_us := (0x1.ccccccccccccdp-1 * avg_latency_us st
                        + 0x1.999999999999ap-4 * latency_us)%float |}.

(** [Config::Arbitrage], the fields the engine reads. *)
Record Config := {
  min_profit_threshold : float;
  max_position_size : float;
  max_opportunities_per_second : Z   (* uint32_t *)
}.

Definition default_config : Config :=
  {| min_profit_threshold := 0x1.0624dd2f1a9fcp-10;   (* 0.001 *)
     max_position_size := 1000%float;
     max_opportunities_per_second := 100 |}.

(** ** arbitrage_engine.h *)

Definition MAX_EXCHANGES : nat := 16.
Definition MAX_SYMBOLS : nat := 256.

(** The price graph: a square array of doubles.  [size_ g] is
    [price_graph_.size()]; [cell g u v] is [price_graph_[u][v]] and is only
    read or written for [u, v < size]. *)
Record PriceGraph := { size_ : nat; cell : nat → nat → float }.

Definition graph_set (u v : nat) (w : float) (g : PriceGraph) : PriceGraph :=
  {| size_ := size_ g;
     cell := λ a b, if (a =? u) && (b =? v) then w else cell g a b |}.

(** The constructor's two loops: every entry infinity, then the diagonal zero. *)
Definition new_graph (n : nat) : PriceGraph :=
  {| size_ := n; cell := λ a b, if a =? b then 0%float else Dbl.infinity |}.

(** Modelled from the spec: the ingress queue.  [tick_queue_] points to a
    [moodycamel::ReaderWriterQueue], a third-party class that is not in the
    repository; the spec describes a bounded FIFO whose [try_enqueue] fails
    when the queue is full. *)
Record TickQueue := { capacity : nat; items : list MarketTick }.

Definition try_enqueue (t : MarketTick) (q : TickQueue) : option TickQueue :=
  if length (items q) <? capacity q
  then Some {| capacity := capacity q; items := items q ++ [t] |}
  else None.

Definition try_dequeue (q : TickQueue) : option (MarketTick * TickQueue) :=
  match items q with
  | [] => None
  | t :: rest => Some (t, {| capacity := capacity q; items := rest |})
  end.

(** A registered callback is known by a number; [delivered] records the calls
    made to the callbacks (a callback that throws has still been called). *)
Definition Sink := nat.

Record Engine := {
  config_ : Config;
  running_ : bool;
  stats_ : PerformanceStats;
  price_graph_ : PriceGraph;
  currency_indices_ : gmap string nat;
  currency_names_ : gmap nat string;
  last_update_time_ : Z;
  sequence_counter_ : Z;                          (* uint64_t *)
  tick_queue_ : option TickQueue;                 (* None: nullptr *)
  detected_opportunities_ : list ArbitrageOpportunity;
  callbacks_ : list Sink;
  (* the two static locals of on_opportunity_detected *)
  last_alert : option Z;                          (* None: not yet initialised *)
  alerts_this_second : Z;                         (* uint32_t *)
  (* the environment: what the callbacks were called with *)
  delivered : list (Sink * ArbitrageOpportunity)
}.

Definition set_running (b : bool) (e : Engine) : Engine :=
  {| config_ := config_ e; running_ := b; stats_ := stats_ e;
     price_graph_ := price_graph_ e; currency_indices_ := currency_indices_ e;
     currency_names_ := currency_names_ e; last_update_time_ := last_update_time_ e;
     sequence_counter_ := sequence_counter_ e; tick_queue_ := tick_queue_ e;
     detected_opportunities_ := detected_opportunities_ e; callbacks_ := callbacks_ e;
     last_alert := last_alert e; alerts_this_second := alerts_this_second e;
     delivered := delivered e |}.

Definition set_stats (st : PerformanceStats) (e : Engine) : Engine :=
  {| config_ := config_ e; running_ := running_ e; stats_ := st;
     price_graph_ := price_graph_ e; currency_indices_ := currency_indices_ e;
     currency_names_ := currency_names_ e; last_update_time_ := last_update_time_ e;
     sequence_counter_ := sequence_counter_ e; tick_queue_ := tick_queue_ e;
     detected_opportunities_ := detected_opportunities_ e; callbacks_ := callbacks_ e;
     last_alert := last_alert e; alerts_this_second := alerts_this_second e;
     delivered := delivered e |}.

Definition set_price_graph (g : PriceGraph) (e : Engine) : Engine :=
  {| config_ := config_ e; running_ := running_ e; stats_ := stats_ e;
     price_graph_ := g; currency_indices_ := currency_indices_ e;
     currency_names_ := currency_names_ e; last_update_time_ := last_update_time_ e;
     sequence_counter_ := sequence_counter_ e; tick_queue_ := tick_queue_ e;
     detected_opportunities_ := detected_opportunities_ e; callbacks_ := callbacks_ e;
     last_alert := last_alert e; alerts_this_second := alerts_this_second e;
     delivered := delivered e |}.

Definition set_index (ix : gmap string nat) (nm : gmap nat string) (e : Engine) : Engine :=
  {| config_ := config_ e; running_ := running_ e; stats_ := stats_ e;
     price_graph_ := price_graph_ e; currency_indices_ := ix;
     currency_names_ := nm; last_update_time_ := last_update_time_ e;
     sequence_counter_ := sequence_counter_ e; tick_queue_ := tick_queue_ e;
     detected_opportunities_ := detected_opportunities_ e; callbacks_ := callbacks_ e;
     last_alert := last_alert e; alerts_this_second := alerts_this_second e;
     delivered := delivered e |}.

Definition set_last_update_time (t : Z) (e : Engine) : Engine :=
  {| config_ := config_ e; running_ := running_ e; stats_ := stats_ e;
     price_graph_ := price_graph_ e; currency_indices_ := currency_indices_ e;
     currency_names_ := currency_names_ e; last_update_time_ := t;
     sequence_counter_ := sequence_counter_ e; tick_queue_ := tick_queue_ e;
     detected_opportunities_ := detected_opportunities_ e; callbacks_ := callbacks_ e;
     last_alert := last_alert e; alerts_this_second := alerts_this_second e;
     delivered := delivered e |}.

Definition set_sequence_counter (n : Z) (e : Engine) : Engine :=
  {| config_ := config_ e; running_ := running_ e; stats_ := stats_ e;
     price_graph_ := price_graph_ e; currency_indices_ := currency_indices_ e;
     currency_names_ := currency_names_ e; last_update_time_ := last_update_time_ e;
     sequence_counter_ := n; tick_queue_ := tick_queue_ e;
     detected_opportunities_ := detected_opportunities_ e; callbacks_ := callbacks_ e;
     last_alert := last_alert e; alerts_this_second := alerts_this_second e;
     delivered := delivered e |}.

Definition set_tick_queue (q : option TickQueue) (e : Engine) : Engine :=
  {| config_ := config_ e; running_ := running_ e; stats_ := stats_ e;
     price_graph_ := price_graph_ e; currency_indices_ := currency_indices_ e;
     currency_names_ := currency_names_ e; last_update_time_ := last_update_time_ e;
     sequence_counter_ := sequence_counter_ e; tick_queue_ := q;
     detected_opportunities_ := detected_opportunities_ e; callbacks_ := callbacks_ e;
     last_alert := last_alert e; alerts_this_second := alerts_this_second e;
     delivered := delivered e |}.

Definition set_callbacks (cs : list Sink) (e : Engine) : Engine :=
  {| config_ := config_ e; running_ := running_ e; stats_ := stats_ e;
     price_graph_ := price_graph_ e; currency_indices_ := currency_indices_ e;
     currency_names_ := currency_names_ e; last_update_time_ := last_update_time_ e;
     sequence_counter_ := sequence_counter_ e; tick_queue_ := tick_queue_ e;
     detected_opportunities_ := detected_opportunities_ e; callbacks_ := cs;
     last_alert := last_alert e; alerts_this_second := alerts_this_second e;
     delivered := delivered e |}.

(** The static locals of [on_opportunity_detected]. *)
Definition set_window (la : option Z) (n : Z) (e : Engine) : Engine :=
  {| config_ := config_ e; running_ := running_ e; stats_ := stats_ e;
     price_graph_ := price_graph_ e; currency_indices_ := currency_indices_ e;
     currency_names_ := currency_names_ e; last_update_time_ := last_update_time_ e;
     sequence_counter_ := sequence_counter_ e; tick_queue_ := tick_queue_ e;
     detected_opportunities_ := detected_opportunities_ e; callbacks_ := callbacks_ e;
     last_alert := la; alerts_this_second := n;
     delivered := delivered e |}.

(** The history and the record of callback calls. *)
Definition set_published (h : list ArbitrageOpportunity)
    (d : list (Sink * ArbitrageOpportunity)) (e : Engine) : Engine :=
  {| config_ := config_ e; running_ := running_ e; stats_ := stats_ e;
     price_graph_ := price_graph_ e; currency_indices_ := currency_indices_ e;
     currency_names_ := currency_names_ e; last_update_time_ := last_update_time_ e;
     sequence_counter_ := sequence_counter_ e; tick_queue_ := tick_queue_ e;
     detected_opportunities_ := h; callbacks_ := callbacks_ e;
     last_alert := last_alert e; alerts_this_second := alerts_this_second e;
     delivered := d |}.

(** ** arbitrage_engine.cpp *)

(** [ArbitrageEngine::ArbitrageEngine], for a price graph of [n] rows;
    [last_update_time_] is the clock reading [now]. *)
Definition new_engine_sized (n : nat) (config : Config) (now : Z) : Engine :=
  {| config_ := config; running_ := false; stats_ := new_stats;
     price_graph_ := new_graph n;
     currency_indices_ := ∅; currency_names_ := ∅;
     last_update_time_ := now; sequence_counter_ := 0; tick_queue_ := None;
     detected_opportunities_ := []; callbacks_ := [];
     last_alert := None; alerts_this_second := 0; delivered := [] |}.

Definition new_engine : Config → Z → Engine :=
  new_engine_sized (MAX_EXCHANGES * MAX_SYMBOLS).

Definition start (e : Engine) : Engine := set_running true e.

Definition stop (e : Engine) : Engine := set_running false e.

(** [update_price]; [start_time] and [end_time] are the two clock readings. *)
Definition update_price (start_time end_time : Z) (exchange : Exchange)
    (symbol : string) (bid ask volume : float) (e : Engine) : bool * Engine :=
  let tick := {| exchange := exchange; symbol := Str.strncpy 15 symbol;
                 bid := bid; ask := ask; last_price := ((bid + ask) / 2)%float;
                 volume := volume; timestamp := start_time;
                 sequence := sequence_counter_ e |} in
  let e1 := set_sequence_counter ((sequence_counter_ e + 1) `mod` 2 ^ 64)%Z e in
  match tick_queue_ e1 with
  | Some q =>
      match try_enqueue tick q with
      | Some q' =>
          let e2 := set_tick_queue (Some q') e1 in
          let st := stats_ e2 in
          let st1 := {| messages_processed := ((messages_processed st + 1) `mod` 2 ^ 64)%Z;
                        opportunities_found := opportunities_found st;
                        false_positives := false_positives st;
                        avg_latency_us := avg_latency_us st |} in
          let latency_us := ((end_time - start_time) `quot` 1000)%Z in
          (true, set_stats (update_latency (Dbl.of_Z latency_us) st1) e2)
      | None => (false, e1)
      end
  | None => (false, e1)
  end.

(** [parse_symbol]: [symbol.find('/')], rejected when absent, first or last;
    otherwise the two substrings around it. *)
Definition parse_symbol (symbol : string) : option (string * string) :=
  match Str.find "/" symbol with
  | None => None
  | Some pos =>
      if (pos =? 0) || (pos =? String.length symbol - 1) then None
      else Some (Str.substr 0 pos symbol, Str.substr_from (pos + 1) symbol)
  end.

Definition currency_key (currency : string) (exchange : nat) : string :=
  currency +:+ "_" +:+ Str.to_string exchange.

(** [get_currency_index]: the index of the key, assigned on first use. *)
Definition get_currency_index (currency : string) (exchange : nat) (e : Engine)
    : nat * Engine :=
  let key := currency_key currency exchange in
  match currency_indices_ e !! key with
  | Some i => (i, e)
  | None =>
      let index := size (currency_indices_ e) in
      (index, set_index (<[key := index]> (currency_indices_ e))
                        (<[index := key]> (currency_names_ e)) e)
  end.

Definition get_currency_name (index : nat) (e : Engine) : string :=
  default "UNKNOWN" (currency_names_ e !! index).

Section WithLibm.
Context {libm : Libm}.

(** [update_price_graph]: intern the two sides of the symbol, then write the
    forward edge if the bid is positive and the reverse edge if the ask is. *)
Definition update_price_graph (tick : MarketTick) (e : Engine) : Engine :=
  match parse_symbol (symbol tick) with
  | None => e
  | Some (base, quote) =>
      let '(base_idx, e1) := get_currency_index base (exchange_code (exchange tick)) e in
      let '(quote_idx, e2) := get_currency_index quote (exchange_code (exchange tick)) e1 in
      let n := size_ (price_graph_ e2) in
      if (n <=? base_idx) || (n <=? quote_idx) then e2
      else
        let e3 := if (0 <? bid tick)%float
                  then set_price_graph
                         (graph_set base_idx quote_idx (- std_log (bid tick))%float
                                    (price_graph_ e2)) e2
                  else e2 in
        if (0 <? ask tick)%float
        then set_price_graph
               (graph_set quote_idx base_idx (- std_log (1 / ask tick))%float
                          (price_graph_ e3)) e3
        else e3
  end.

(** One iteration of the loop of [process_market_data]; without a queue, or
    with an empty one, there is no tick and the graph is left alone. *)
Definition process_market_data_step (e : Engine) : Engine :=
  if running_ e then
    match tick_queue_ e with
    | Some q =>
        match try_dequeue q with
        | Some (tick, q') =>
            set_last_update_time (timestamp tick)
              (update_price_graph tick (set_tick_queue (Some q') e))
        | None => e
        end
    | None => e
    end
  else e.

End WithLibm.

(** *** The cycle detector *)

(** [dist[i]] and [parent[i]].  The engine only reads inside the vectors: an
    entry of [parent] is -1 or a node index.  Outside, the model reads
    infinity and -1. *)
Definition dist_at (dist : list float) (i : nat) : float :=
  default Dbl.infinity (dist !! i).

Definition parent_at (parent : list Z) (i : Z) : Z :=
  if (i <? 0)%Z then (-1)%Z else default (-1)%Z (parent !! Z.to_nat i).

(** The state of one Bellman-Ford run. *)
Record BFState := { bf_dist : list float; bf_parent : list Z; bf_updated : bool }.

(** The body of the innermost loop: relax the edge [u -> v]. *)
Definition relax_edge (g : PriceGraph) (u v : nat) (st : BFState) : BFState :=
  if negb (cell g u v =? Dbl.infinity)%float then
    let new_dist := (dist_at (bf_dist st) u + cell g u v)%float in
    if (new_dist <? dist_at (bf_dist st) v)%float
    then {| bf_dist := <[v := new_dist]> (bf_dist st);
            bf_parent := <[v := Z.of_nat u]> (bf_parent st);
            bf_updated := true |}
    else st
  else st.

Definition relax_from (g : PriceGraph) (u : nat) (st : BFState) : BFState :=
  if (dist_at (bf_dist st) u =? Dbl.infinity)%float then st
  else fold_left (λ s v, relax_edge g u v s) (seq 0 (size_ g)) st.

(** One pass over all edges, starting with [updated = false]. *)
Definition relax_pass (g : PriceGraph) (st : BFState) : BFState :=
  fold_left (λ s u, relax_from g u s) (seq 0 (size_ g))
    {| bf_dist := bf_dist st; bf_parent := bf_parent st; bf_updated := false |}.

(** At most [passes] passes, stopping after a pass without update. *)
Fixpoint relax_loop (g : PriceGraph) (passes : nat) (st : BFState) : BFState :=
  match passes with
  | O => st
  | S k => let st' := relax_pass g st in
           if bf_updated st' then relax_loop g k st' else st'
  end.

(** Distances and parents from [src]: the two [std::fill], [dist[src] = 0]
    and the relaxation loop ([V - 1] passes; [V] is not zero in the engine). *)
Definition bellman_ford (g : PriceGraph) (src : nat) : BFState :=
  relax_loop g (size_ g - 1)
    {| bf_dist := <[src := 0%float]> (replicate (size_ g) Dbl.infinity);
       bf_parent := replicate (size_ g) (-1)%Z;
       bf_updated := false |}.

(** The loop of [extract_arbitrage_cycle] that walks the parents from
    [current] until -1 or a node already visited; the result is the final
    [current] and [cycle].  The loop runs at most [length parent + 1] times
    ([trace_back_total]); [None] stands for a walk longer than [fuel]. *)
Fixpoint trace_back (fuel : nat) (parent : list Z) (current : Z)
    (visited : gset Z) (cycle : list Z) : option (Z * list Z) :=
  match fuel with
  | O => None
  | S fuel' =>
      if negb (current =? -1)%Z && bool_decide (current ∉ visited)
      then trace_back fuel' parent (parent_at parent current)
             ({[current]} ∪ visited) (cycle ++ [current])
      else Some (current, cycle)
  end.

(** [std::find(cycle.begin(), cycle.end(), x)], as the range from the
    position found to the end. *)
Fixpoint range_from (x : Z) (cycle : list Z) : option (list Z) :=
  match cycle with
  | [] => None
  | y :: rest => if (y =? x)%Z then Some cycle else range_from x rest
  end.

(** Lines 238 to 261 of [extract_arbitrage_cycle]: [arbitrage_path]. *)
Definition arbitrage_path (cycle_node : Z) (parent : list Z) : option (list Z) :=
  match trace_back (length parent + 2) parent cycle_node ∅ [] with
  | None => None
  | Some (current, cycle) =>
      if (current =? -1)%Z || (length cycle <? 3) then None
      else match range_from current cycle with
           | None => None
           | Some c => Some (rev c)
           end
  end.

(** [arbitrage_path[i]] as an index. *)
Definition path_node (p : list Z) (i : nat) : nat := Z.to_nat (default 0%Z (p !! i)).

(** The sum of the weights around the path, last node back to first. *)
Definition total_log_return (g : PriceGraph) (p : list Z) : float :=
  fold_left
    (λ acc i, (acc + cell g (path_node p i) (path_node p ((i + 1) `mod` length p)))%float)
    (seq 0 (length p)) 0%float.

(** [calculate_confidence]; [now] is the clock reading. *)
Definition calculate_confidence (now : Z) (p : list Z) (log_return : float)
    (e : Engine) : Z :=
  let profit_confidence := Dbl.min (abs log_return * 100)%float 50%float in
  let path_confidence :=
    Dbl.max 0%float (50 - Dbl.of_Z (Z.of_nat (length p)) * 10)%float in
  let data_age := ((now - last_update_time_ e) `quot` 1000000)%Z in
  let freshness_confidence :=
    Dbl.max 0%float (50 - Dbl.of_Z data_age / 100)%float in
  Dbl.to_uint32 (profit_confidence + path_confidence + freshness_confidence)%float.

Definition estimate_max_volume (p : list Z) (e : Engine) : float :=
  (max_position_size (config_ e) / Dbl.of_Z (Z.of_nat (length p)))%float.

(** The names of the path joined by [" -> "]. *)
Definition path_string (p : list Z) (e : Engine) : string :=
  fold_left
    (λ acc (ix : nat * Z),
       (if ix.1 =? 0 then acc else acc +:+ " -> ")
       +:+ get_currency_name (Z.to_nat ix.2) e)
    (imap pair p) EmptyString.

Section WithLibm.
Context {libm : Libm}.

(** The profit the path is recomputed to. *)
Definition path_profit (g : PriceGraph) (p : list Z) : float :=
  (std_exp (- total_log_return g p) - 1)%float.

(** [extract_arbitrage_cycle]; [now] is the clock reading, [dist] is unused as
    in the source. *)
Definition extract_arbitrage_cycle (now : Z) (cycle_node : Z) (parent : list Z)
    (dist : list float) (e : Engine) : option ArbitrageOpportunity :=
  match arbitrage_path cycle_node parent with
  | None => None
  | Some p =>
      let total := total_log_return (price_graph_ e) p in
      let profit_multiplier := std_exp (- total)%float in
      let profit := (profit_multiplier - 1)%float in
      if (profit <=? 0)%float then None
      else Some {| path := path_string p e;
                   profit_percentage := profit;
                   max_volume := estimate_max_volume p e;
                   detected_at := now;
                   confidence := calculate_confidence now p total e |}
  end.

(** The body of the loop that checks the edge [u -> v] after relaxation. *)
Definition check_edge (now : Z) (e : Engine) (st : BFState) (u v : nat)
    (opportunities : list ArbitrageOpportunity) : list ArbitrageOpportunity :=
  let g := price_graph_ e in
  if negb (cell g u v =? Dbl.infinity)%float then
    if (dist_at (bf_dist st) u + cell g u v <? dist_at (bf_dist st) v)%float then
      match extract_arbitrage_cycle now (Z.of_nat v) (bf_parent st) (bf_dist st) e with
      | Some opp => opportunities ++ [opp]
      | None => opportunities
      end
    else opportunities
  else opportunities.

Definition check_from (now : Z) (e : Engine) (st : BFState) (u : nat)
    (opportunities : list ArbitrageOpportunity) : list ArbitrageOpportunity :=
  if (dist_at (bf_dist st) u =? Dbl.infinity)%float then opportunities
  else fold_left (λ acc v, check_edge now e st u v acc)
         (seq 0 (size_ (price_graph_ e))) opportunities.

Definition check_negative_cycles (now : Z) (e : Engine) (st : BFState)
    (opportunities : list ArbitrageOpportunity) : list ArbitrageOpportunity :=
  fold_left (λ acc u, check_from now e st u acc)
    (seq 0 (size_ (price_graph_ e))) opportunities.

(** [find_negative_cycles], one clock reading standing for the search. *)
Definition find_negative_cycles (now : Z) (e : Engine) : list ArbitrageOpportunity :=
  let g := price_graph_ e in
  fold_left
    (λ opportunities src,
       if negb (cell g src src =? 0)%float then opportunities
       else check_negative_cycles now e (bellman_ford g src) opportunities)
    (seq 0 (size_ g)) [].

End WithLibm.

(** *** The publisher *)

Definition register_opportunity_callback (callback : Sink) (e : Engine) : Engine :=
  set_callbacks (callbacks_ e ++ [callback]) e.

(** [on_opportunity_detected]; [now] is the clock reading. *)
Definition on_opportunity_detected (now : Z) (opportunity : ArbitrageOpportunity)
    (e : Engine) : Engine :=
  let la := default now (last_alert e) in
  let '(la1, n1) :=
    if (1 <=? (now - la) `quot` 1000000000)%Z then (now, 0%Z)
    else (la, alerts_this_second e) in
  let e1 := set_window (Some la1) n1 e in
  if (max_opportunities_per_second (config_ e) <=? n1)%Z then e1
  else
    let e2 := set_window (Some la1) ((n1 + 1) `mod` 2 ^ 32)%Z e1 in
    let h := detected_opportunities_ e2 ++ [opportunity] in
    let h' := if 1000 <? length h then tail h else h in
    set_published h' (delivered e2 ++ map (λ s, (s, opportunity)) (callbacks_ e2)) e2.

Definition get_recent_opportunities (limit : nat) (e : Engine)
    : list ArbitrageOpportunity :=
  let n := length (detected_opportunities_ e) in
  drop (if limit <? n then n - limit else 0) (detected_opportunities_ e).

Definition get_performance_stats (e : Engine) : PerformanceStats := stats_ e.

Definition count_opportunity (e : Engine) : Engine :=
  let st := stats_ e in
  set_stats {| messages_processed := messages_processed st;
               opportunities_found := ((opportunities_found st + 1) `mod` 2 ^ 64)%Z;
               false_positives := false_positives st;
               avg_latency_us := avg_latency_us st |} e.

(** The loop over the opportunities found; [clock i] is the clock reading
    inside [on_opportunity_detected] for the opportunity at position [i]. *)
Definition process_opportunities (clock : nat → Z)
    (opportunities : list ArbitrageOpportunity) (e : Engine) : Engine :=
  fold_left
    (λ e' (iopp : nat * ArbitrageOpportunity),
       if is_profitable iopp.2 (min_profit_threshold (config_ e'))
       then count_opportunity (on_opportunity_detected (clock iopp.1) iopp.2 e')
       else e')
    (imap pair opportunities) e.

Section WithLibm.
Context {libm : Libm}.

(** The opportunities one iteration of the detection loop hands to
    [on_opportunity_detected]. *)
Definition emitted_opportunities (now : Z) (e : Engine) : list ArbitrageOpportunity :=
  filter (λ opp, is_profitable opp (min_profit_threshold (config_ e)) = true)
         (find_negative_cycles now e).

(** One iteration of the loop of [detect_arbitrage_opportunities]. *)
Definition detect_arbitrage_opportunities_step (now : Z) (clock : nat → Z)
    (e : Engine) : Engine :=
  if running_ e
  then process_opportunities clock (find_negative_cycles now e) e
  else e.

(** *** Executions *)

Inductive Call :=
| CStart
| CStop
| CUpdatePrice (start_time end_time : Z) (exchange : Exchange) (symbol : string)
    (bid ask volume : float)
| CProcess
| CDetect (now : Z) (clock : nat → Z)
| CRegister (callback : Sink).

(** The engine after a call, with the result of [update_price]. *)
Definition step (c : Call) (e : Engine) : option bool * Engine :=
  match c with
  | CStart => (None, start e)
  | CStop => (None, stop e)
  | CUpdatePrice t0 t1 x s b a v =>
      let '(r, e') := update_price t0 t1 x s b a v e in (Some r, e')
  | CProcess => (None, process_market_data_step e)
  | CDetect now clock => (None, detect_arbitrage_opportunities_step now clock e)
  | CRegister cb => (None, register_opportunity_callback cb e)
  end.

(** The results of the [update_price] calls, in order, and the final engine. *)
Fixpoint run (cs : list Call) (e : Engine) : list bool * Engine :=
  match cs with
  | [] => ([], e)
  | c :: cs' =>
      let '(r, e') := step c e in
      let '(rs, e'') := run cs' e' in
      (match r with Some b => b :: rs | None => rs end, e'')
  end.

End WithLibm.

(** ** types.h: the memory pool *)

(** [MemoryPool<T, PoolSize>]: [next_free_] and the flags [in_use_], one per
    slot ([PoolSize] is their number).  A pointer into [pool_] is known by its
    offset from [pool_.data()], in elements; the objects themselves are never
    read or written by the pool. *)
Record MemoryPool := { next_free_ : nat; in_use_ : list bool }.

Definition pool_size (p : MemoryPool) : nat := length (in_use_ p).

(** The constructor: every flag false. *)
Definition new_pool (size : nat) : MemoryPool :=
  {| next_free_ := 0; in_use_ := replicate size false |}.

(** The loop of [acquire] over the attempts [i] still to make.
    [compare_exchange_weak(expected = false, true)] succeeds only on a flag
    that is false, and may fail on such a flag as well: [spurious i] tells
    whether the attempt [i] fails spuriously. *)
Fixpoint acquire_loop (spurious : nat → bool) (p : MemoryPool) (attempts : list nat)
    : option nat * MemoryPool :=
  match attempts with
  | [] => (None, p)
  | i :: rest =>
      let idx := (next_free_ p + i) `mod` pool_size p in
      match in_use_ p !! idx with
      | Some false =>
          if spurious i then acquire_loop spurious p rest
          else (Some idx, {| next_free_ := (idx + 1) `mod` pool_size p;
                             in_use_ := <[idx := true]> (in_use_ p) |})
      | _ => acquire_loop spurious p rest
      end
  end.

(** [acquire]: the offset of the slot handed out, or none for [nullptr]. *)
Definition acquire (spurious : nat → bool) (p : MemoryPool) : option nat * MemoryPool :=
  acquire_loop spurious p (seq 0 (pool_size p)).

(** [release(ptr)], [ptr] being [pool_.data() + offset]: a pointer outside the
    pool is ignored. *)
Definition release (offset : Z) (p : MemoryPool) : MemoryPool :=
  if (0 <=? offset)%Z && (offset <? Z.of_nat (pool_size p))%Z
  then {| next_free_ := next_free_ p;
          in_use_ := <[Z.to_nat offset := false]> (in_use_ p) |}
  else p.

(** ** server.js *)

(** The latest price of a symbol on Binance, and when it was stored. *)
Record JsPrice := { price : float; price_timestamp : Z }.

Record JsOpportunity := {
  js_path : string;
  js_profit_percentage : float;
  js_max_volume : float;
  js_confidence : float;
  js_detected_at : Z;
  js_exchanges : list string
}.

(** The globals [detectArbitrageOpportunities] reads and writes:
    [exchangeData.binance], [arbitrageOpportunities] and
    [stats.opportunities_found] (a JavaScript number). *)
Record JsState := {
  binance : gmap string JsPrice;
  arbitrageOpportunities : list JsOpportunity;
  js_opportunities_found : float
}.

(** [detectArbitrageOpportunities]; [now] is the reading of [Date.now()].
    [unshift] puts the opportunity first, [pop] removes the last one. *)
Definition detectArbitrageOpportunities (now : Z) (s : JsState) : JsState :=
  match binance s !! "btcusdt"%string, binance s !! "ethbtc"%string,
        binance s !! "ethusdt"%string with
  | Some btcusdt, Some ethbtc, Some ethusdt =>
      let impliedEthUsdt := (price btcusdt * price ethbtc)%float in
      let profitPercentage := (price ethusdt / impliedEthUsdt - 1)%float in
      if (0x1.0624dd2f1a9fcp-10 <? profitPercentage)%float then
        let opportunity :=
          {| js_path := "BTC/USDT -> ETH/BTC -> ETH/USDT";
             js_profit_percentage := profitPercentage;
             js_max_volume := 1000%float;
             js_confidence := 95%float;
             js_detected_at := now;
             js_exchanges := ["binance"%string] |} in
        let l := opportunity :: arbitrageOpportunities s in
        {| binance := binance s;
           arbitrageOpportunities := if 50 <? length l then removelast l else l;
           js_opportunities_found := (js_opportunities_found s + 1)%float |}
      else s
  | _, _, _ => s
  end.

(** The request handler of [http.createServer], up to the choice of the
    answer: which handler answers the request. *)
Inductive Route :=
| ApiOpportunities            (* 200, the opportunities as JSON *)
| ApiStats                    (* 200, the statistics as JSON *)
| ApiHealth                   (* 200, the health record as JSON *)
| ApiNotFound                 (* 404, an error as JSON *)
| StaticFile (filePath : string).  (* the file, else the dashboard, else 500 *)

Definition route (url method : string) : Route :=
  if String.prefix "/api/" url then
    if String.eqb url "/api/opportunities" && String.eqb method "GET" then ApiOpportunities
    else if String.eqb url "/api/stats" && String.eqb method "GET" then ApiStats
    else if String.eqb url "/health" && String.eqb method "GET" then ApiHealth
    else ApiNotFound
  else
    let filePath := ("." +:+ url)%string in
    StaticFile (if String.eqb filePath "./" then "./web-dashboard-index.html" else filePath).

(** * Part II: the vocabulary of the properties *)

(** ** Engines to start from *)

(** An engine as constructed, with the queue the constructor does not
    allocate put in place. *)
Definition engine_with_queue (q : option TickQueue) (config : Config) (now : Z) : Engine :=
  set_tick_queue q (new_engine config now).

(** An engine with a price graph of [n] rows and an empty queue of capacity 8
    in place. *)
Definition small_engine (n : nat) : Engine :=
  set_tick_queue (Some {| capacity := 8; items := [] |})
    (new_engine_sized n default_config 0).

(** ** Counters along an execution *)

(** The number of [update_price] calls that returned true. *)
Definition successes (rs : list bool) : nat := length (filter (λ b, b = true) rs).

(** The two counters no worker writes. *)
Definition same_counters (e e' : Engine) : Prop :=
  messages_processed (stats_ e') = messages_processed (stats_ e)
  ∧ false_positives (stats_ e') = false_positives (stats_ e).

(** ** The rate limiter observed *)

(** The window start and the counter a call at [now] works with, after the
    reset test of [on_opportunity_detected]. *)
Definition window_at (now : Z) (e : Engine) : Z * Z :=
  let la := default now (last_alert e) in
  if (1 <=? (now - la) `quot` 1000000000)%Z then (now, 0%Z)
  else (la, alerts_this_second e).

(** Whether the call passes the limiter. *)
Definition admitted (now : Z) (e : Engine) : bool :=
  negb (max_opportunities_per_second (config_ e) <=? (window_at now e).2)%Z.

(** A sequence of calls of [on_opportunity_detected], each with its clock reading. *)
Definition publish (calls : list (Z * ArbitrageOpportunity)) (e : Engine) : Engine :=
  fold_left (λ e' c, on_opportunity_detected c.1 c.2 e') calls e.

(** The calls that were emitted: the start of the window each fell in, and
    its clock reading. *)
Fixpoint emissions (calls : list (Z * ArbitrageOpportunity)) (e : Engine) : list (Z * Z) :=
  match calls with
  | [] => []
  | c :: rest =>
      (if admitted c.1 e then [((window_at c.1 e).1, c.1)] else [])
      ++ emissions rest (on_opportunity_detected c.1 c.2 e)
  end.

(** The number of emissions in the window that starts at [w]. *)
Definition emitted_in_window (w : Z) (ems : list (Z * Z)) : Z :=
  Z.of_nat (length (filter (λ x, x.1 = w) ems)).

(** The number of emissions with a clock reading in [[t, t + 1 s)]. *)
Definition emitted_within_second (t : Z) (ems : list (Z * Z)) : Z :=
  Z.of_nat (length (filter (λ x, (t ≤ x.2 < t + 1000000000)%Z) ems)).

(** The bound on the emissions still to come in the window that starts at
    [w], for a limiter in the window that starts at [la] with [n] emissions
    counted: earlier windows are closed, the current one has [cap - n] left,
    later ones are untouched. *)
Definition window_room (cap la n w : Z) : Z :=
  if (w <? la)%Z then 0%Z
  else if (w =? la)%Z then Z.max 0 (cap - n)
  else cap.

(** Two engines the publisher cannot tell apart. *)
Definition same_publisher (e1 e2 : Engine) : Prop :=
  config_ e1 = config_ e2
  ∧ detected_opportunities_ e1 = detected_opportunities_ e2
  ∧ delivered e1 = delivered e2
  ∧ callbacks_ e1 = callbacks_ e2
  ∧ last_alert e1 = last_alert e2
  ∧ alerts_this_second e1 = alerts_this_second e2.

(** ** The symbol index and the diagonal *)

(** Indices are dense and no two keys share one. *)
Definition index_ok (m : gmap string nat) : Prop :=
  (∀ k i, m !! k = Some i → i < size m)
  ∧ (∀ k1 k2 i, m !! k1 = Some i → m !! k2 = Some i → k1 = k2).

(** The symbol has two different sides, or does not parse. *)
Definition distinct_sides (s : string) : bool :=
  match parse_symbol s with
  | Some (b, q) => negb (String.eqb b q)
  | None => true
  end.

(** Every diagonal entry of the graph is zero. *)
Definition diagonal_zero (g : PriceGraph) : Prop :=
  ∀ u, u < size_ g → cell g u u = 0%float.

(** The symbol submitted by the call, as stored in the tick, has two
    different sides or does not parse. *)
Definition call_distinct_sides (c : Call) : bool :=
  match c with
  | CUpdatePrice _ _ _ s _ _ _ => distinct_sides (Str.strncpy 15 s)
  | _ => true
  end.

(** What the updater maintains: a well-formed index, a graph of constant size
    with a zero diagonal, and queued ticks with two different sides. *)
Definition graph_inv (n : nat) (e : Engine) : Prop :=
  index_ok (currency_indices_ e)
  ∧ size_ (price_graph_ e) = n
  ∧ diagonal_zero (price_graph_ e)
  ∧ ∀ q, tick_queue_ e = Some q → Forall (λ t, distinct_sides (symbol t) = true) (items q).

(** ** The walk along the parents *)

(** The node indices not yet visited. *)
Definition unvisited (parent : list Z) (visited : gset Z) : gset Z :=
  list_to_set (Z.of_nat <$> seq 0 (length parent)) ∖ visited.

(** Consecutive entries of the walk are linked by [parent]. *)
Definition parent_chain (parent : list Z) (cycle : list Z) : Prop :=
  ∀ i a b, cycle !! i = Some a → cycle !! S i = Some b → b = parent_at parent a.

(** ** Doubles as rationals *)

(** The exact value of a finite double. *)
Definition SF2Q (f : spec_float) : option Q :=
  match f with
  | S754_zero _ => Some 0%Q
  | S754_finite s m e =>
      let n := if s then Zneg m else Zpos m in
      Some (match e with
            | Z0 => n # 1
            | Zpos _ => (n * 2 ^ e) # 1
            | Zneg p => n # (2 ^ p)%positive
            end)
  | _ => None
  end.

Definition to_Q (f : float) : option Q := SF2Q (Prim2SF f).

(** The two rationals are equal to within 1e-9. *)
Definition within_1e_9 (a b : Q) : bool := Qle_bool (Qabs (a - b)) (1 # 1000000000).

(** The product of the conversion ratios of the edges of a cycle. *)
Definition ratio_product (ratios : list Q) : Q := fold_right Qmult 1%Q ratios.

(** ** Inputs of the evaluated scenarios *)

(** An opportunity as the detector builds them, detected at [t]. *)
Definition sample_opportunity (t : Z) : ArbitrageOpportunity :=
  {| path := "A_0 -> B_0 -> C_0"; profit_percentage := 0x1.47ae147ae147bp-6;
     max_volume := 0x1.4d55555555555p+8; detected_at := t; confidence := 71 |}.

(** The default configuration with a cap of two opportunities per second. *)
Definition two_per_second : Config :=
  {| min_profit_threshold := 0x1.0624dd2f1a9fcp-10;
     max_position_size := 1000%float;
     max_opportunities_per_second := 2 |}.

(** Calls at 0 s, 0.9 s, 1.0 s and 1.1 s (in nanoseconds). *)
Definition boundary_calls : list (Z * ArbitrageOpportunity) :=
  [(0, sample_opportunity 0); (900000000, sample_opportunity 1);
   (1000000000, sample_opportunity 2); (1100000000, sample_opportunity 3)]%Z.

(** Three nodes on a cycle 0 -> 1 -> 2 -> 0 of weights 0, 0 and -2^-60: the
    cycle is negative, and the exponential of 2^-60 rounds to 1. *)
Definition tiny_cycle_engine : Engine :=
  set_price_graph
    (graph_set 2 0 (-0x1p-60)%float (graph_set 1 2 0%float (graph_set 0 1 0%float (new_graph 3))))
    (set_running true (new_engine_sized 3 default_config 0)).

(** A tick whose two sides are the same currency. *)
Definition same_sides_tick : MarketTick :=
  {| exchange := BINANCE; symbol := "A/A"; bid := 2%float; ask := 4%float;
     last_price := 3%float; volume := 1%float; timestamp := 0; sequence := 0 |}.

(** A tick with an ask of 1.000001 (the nearest double). *)
Definition near_one_tick : MarketTick :=
  {| exchange := BINANCE; symbol := "A/B"; bid := 1%float; ask := 0x1.000010c6f7a0bp+0%float;
     last_price := 1%float; volume := 1%float; timestamp := 0; sequence := 0 |}.

(** A/B at 2.0 / 2.01, B/C at 3.0 / 3.01 and C/A at 0.25 / 0.26 on one venue:
    the product of the bids is 1.5. *)
Definition triangle_ticks : list Call :=
  [CStart;
   CUpdatePrice 1000 1001 BINANCE "A/B" 2%float 0x1.0147ae147ae14p+1%float 1%float;
   CUpdatePrice 1000 1001 BINANCE "B/C" 3%float 0x1.8147ae147ae14p+1%float 1%float;
   CUpdatePrice 1000 1001 BINANCE "C/A" 0x1p-2%float 0x1.0a3d70a3d70a4p-2%float 1%float;
   CProcess; CProcess; CProcess].

(** A/B at 2.0 / 2.01, then B/A with a bid of 0.55 and no ask, then A/C at
    3.0 / 3.01: the two nodes A and B form a cycle of product 1.1, and C hangs
    off A. *)
Definition pair_with_tail_ticks : list Call :=
  [CStart;
   CUpdatePrice 1000 1001 BINANCE "A/B" 2%float 0x1.0147ae147ae14p+1%float 1%float;
   CUpdatePrice 1000 1001 BINANCE "B/A" 0x1.199999999999ap-1%float 0%float 1%float;
   CUpdatePrice 1000 1001 BINANCE "A/C" 3%float 0x1.8147ae147ae14p+1%float 1%float;
   CProcess; CProcess; CProcess].

(** A/B, B/C and C/A each with a bid of 2^40 (and an ask just above): the
    conversion ratios around the cycle are 2^40, 2^40 and 2^40. *)
Definition huge_triangle_ticks : list Call :=
  [CStart;
   CUpdatePrice 1000 1001 BINANCE "A/B" 0x1p40%float 0x1.000001p40%float 1%float;
   CUpdatePrice 1000 1001 BINANCE "B/C" 0x1p40%float 0x1.000001p40%float 1%float;
   CUpdatePrice 1000 1001 BINANCE "C/A" 0x1p40%float 0x1.000001p40%float 1%float;
   CProcess; CProcess; CProcess].

(** The parents a search leaves behind: the listed entries, -1 elsewhere. *)
Definition parents (n : nat) (first : list Z) : list Z :=
  first ++ replicate (n - length first) (-1)%Z.

(** The opportunity found in the triangle. *)
Definition triangle_opportunity : ArbitrageOpportunity :=
  Eval vm_compute in
    default (sample_opportunity 0)
      (head (emitted_opportunities (libm := ref_libm) 1000
               (run (libm := ref_libm) triangle_ticks (small_engine 16)).2)).

(** ** The symbol index and its names *)

(** The two maps of the index are inverse to each other and cover exactly
    the indices below the number of keys. *)
Definition names_ok (e : Engine) : Prop :=
  index_ok (currency_indices_ e)
  ∧ (∀ k i, currency_indices_ e !! k = Some i ↔ currency_names_ e !! i = Some k)
  ∧ (∀ i, i < size (currency_indices_ e) → is_Some (currency_names_ e !! i)).

(** ** Further inputs of the evaluated scenarios *)

(** A/B on two venues, each tick processed. *)
Definition two_venue_ticks : list Call :=
  [CStart;
   CUpdatePrice 10 12 BINANCE "A/B" 2%float 3%float 1%float;
   CUpdatePrice 20 22 KRAKEN "A/B" 2%float 3%float 1%float;
   CProcess; CProcess].


(** A tick with a bid of zero: only its ask side is a price. *)
Definition one_sided_tick : MarketTick :=
  {| exchange := BINANCE; symbol := "A/B"; bid := 0%float; ask := 2%float;
     last_price := 1%float; volume := 1%float; timestamp := 0; sequence := 0 |}.


(** ** What the graph updater reads and writes *)

(** Two engines with the same index, names and graph. *)
Definition same_market (e1 e2 : Engine) : Prop :=
  currency_indices_ e1 = currency_indices_ e2
  ∧ currency_names_ e1 = currency_names_ e2
  ∧ price_graph_ e1 = price_graph_ e2.

(** The fields neither the ingress nor the graph updater touches. *)
Definition same_publication (e1 e2 : Engine) : Prop :=
  detected_opportunities_ e1 = detected_opportunities_ e2
  ∧ delivered e1 = delivered e2
  ∧ callbacks_ e1 = callbacks_ e2
  ∧ last_alert e1 = last_alert e2
  ∧ alerts_this_second e1 = alerts_this_second e2.

(** The tick [update_price] builds from its arguments. *)
Definition tick_of (start_time : Z) (exchange : Exchange) (symbol : string)
    (bid ask volume : float) (sequence : Z) : MarketTick :=
  {| exchange := exchange; symbol := Str.strncpy 15 symbol;
     bid := bid; ask := ask; last_price := ((bid + ask) / 2)%float;
     volume := volume; timestamp := start_time; sequence := sequence |}.

(** The fields the graph updater and the publisher both leave alone. *)
Definition same_ingress (e1 e2 : Engine) : Prop :=
  running_ e1 = running_ e2
  ∧ sequence_counter_ e1 = sequence_counter_ e2
  ∧ tick_queue_ e1 = tick_queue_ e2
  ∧ config_ e1 = config_ e2.

(** The engine after the ticks [ts] have been applied to the graph in order. *)
Definition apply_ticks {libm : Libm} (ts : list MarketTick) (e : Engine) : Engine :=
  fold_left (λ e' t, update_price_graph t e') ts e.

(** A queue holding three ticks, and a running engine with this queue. *)
Definition three_ticks_queue : TickQueue :=
  {| capacity := 8;
     items := [tick_of 10 BINANCE "A/B" 2 3 1 0; tick_of 20 BINANCE "B/C" 2 3 1 1;
               tick_of 30 BINANCE "A/B" 4 5 1 2] |}.

Definition three_ticks_engine : Engine :=
  set_running true (set_tick_queue (Some three_ticks_queue) (new_engine_sized 4 default_config 0)).

(** Ticks are offered and processing is attempted, all on a stopped engine. *)
Definition stopped_calls : list Call :=
  [CStop;
   CUpdatePrice 10 12 BINANCE "A/B" 2%float 3%float 1%float;
   CProcess;
   CDetect 50 (λ _, 50%Z);
   CRegister 1;
   CUpdatePrice 20 22 BINANCE "B/A" 2%float 3%float 1%float;
   CProcess].

(** ** The publisher observed *)

(** Every delivery was made to a registered callback. *)
Definition delivered_to_registered (e : Engine) : Prop :=
  ∀ s o, (s, o) ∈ delivered e → s ∈ callbacks_ e.

(** The triangle, a callback and one detection. *)
Definition triangle_detection : list Call :=
  triangle_ticks ++ [CRegister 7; CDetect 2000 (λ _, 2000%Z)].

(** A configuration whose limiter admits nothing. *)
Definition none_per_second : Config :=
  {| min_profit_threshold := 0x1.0624dd2f1a9fcp-10;
     max_position_size := 1000%float;
     max_opportunities_per_second := 0 |}.

(** ** The search and the extracted cycle *)

(** Every parent recorded by the search is the tail of an edge that carries a
    quote. *)
Definition parent_edges (g : PriceGraph) (parent : list Z) : Prop :=
  ∀ v u, parent !! v = Some u → u ≠ (-1)%Z →
    (0 ≤ u)%Z ∧ (cell g (Z.to_nat u) v =? Dbl.infinity)%float = false.

(** The state a search from [src] starts in. *)
Definition initial_search (n src : nat) : BFState :=
  {| bf_dist := <[src := 0%float]> (replicate n Dbl.infinity);
     bf_parent := replicate n (-1)%Z;
     bf_updated := false |}.

(** ** The memory pool observed *)

(** No attempt of [compare_exchange_weak] fails spuriously. *)
Definition no_spurious_failure : nat → bool := λ _, false.

(** A pool of four slots with slots 0 and 1 in use and the cursor on 1. *)
Definition half_used_pool : MemoryPool :=
  {| next_free_ := 1; in_use_ := [true; true; false; false] |}.

(** ** server.js observed *)

(** BTC at 50000 USDT, ETH at 0.05 BTC and at 2600 USDT: ETH is 4 % dearer in
    USDT than through BTC. *)
Definition js_prices : gmap string JsPrice :=
  <["btcusdt"%string := {| price := 50000%float; price_timestamp := 1 |}]>
    (<["ethbtc"%string := {| price := 0x1.999999999999ap-5%float; price_timestamp := 2 |}]>
       (<["ethusdt"%string := {| price := 2600%float; price_timestamp := 3 |}]> ∅)).

Definition js_state : JsState :=
  {| binance := js_prices; arbitrageOpportunities := []; js_opportunities_found := 0%float |}.

(** * Part III: properties *)

(** ** Strings *)

Module StrFacts.
Import Str.

Lemma find_None c s : find c s = None ↔ lacks c s.
Proof.
  induction s as [|a s IH]; simpl.
  - split; [intros _ i; by destruct i | done].
  - destruct (Ascii.eqb_spec a c) as [->|Hne].
    + split; [done | intros Hl; by destruct (Hl 0)].
    + destruct (find c s) eqn:Hf; simpl.
      * split; [done | intros Hl].
        assert (lacks c s) as Hs by (intros i; apply (Hl (S i))).
        apply IH in Hs. done.
      * split; [intros _ | done].
        intros [|i]; simpl; [congruence|]. by apply IH.
Qed.

Lemma lacks_cons a c s : a ≠ c → lacks c s → lacks c (String a s).
Proof. intros Hne Hl [|i]; simpl; [congruence | apply Hl]. Qed.

Lemma lacks_tail a c s : lacks c (String a s) → a ≠ c ∧ lacks c s.
Proof.
  intros Hl. split.
  - intros ->. by destruct (Hl 0).
  - intros i. apply (Hl (S i)).
Qed.

(** [find] splits the string at the first occurrence. *)
Lemma find_Some c s pos :
  find c s = Some pos ↔
  ∃ pre post, s = pre +:+ String c post ∧ lacks c pre ∧ String.length pre = pos.
Proof.
  revert pos. induction s as [|a s IH]; intros pos; simpl.
  - split; [done|]. intros (pre & post & Heq & _). by destruct pre.
  - destruct (Ascii.eqb_spec a c) as [->|Hne].
    + split.
      * intros [= <-]. exists EmptyString, s. split_and!; [done| |done].
        intros i; by destruct i.
      * intros (pre & post & Heq & Hl & Hlen). destruct pre as [|b pre].
        -- simpl in Hlen. by subst.
        -- simpl in Heq. injection Heq as -> _. by destruct (Hl 0).
    + split.
      * destruct (find c s) as [p|] eqn:Hf; simpl; [|done].
        intros [= <-]. destruct (proj1 (IH p) eq_refl) as (pre & post & -> & Hl & Hlen).
        exists (String a pre), post. split_and!; [done| |by simpl; f_equal].
        by apply lacks_cons.
      * intros (pre & post & Heq & Hl & Hlen). destruct pre as [|b pre].
        -- simpl in Heq. injection Heq as -> _. done.
        -- simpl in Heq. injection Heq as -> ->. simpl in Hlen. subst pos.
           apply lacks_tail in Hl as [_ Hl].
           assert (find c (pre +:+ String c post) = Some (String.length pre)) as ->; [|done].
           apply IH. by exists pre, post.
Qed.

Lemma length_app (s1 s2 : string) :
  String.length (s1 +:+ s2) = String.length s1 + String.length s2.
Proof. induction s1 as [|a s1 IH]; simpl; [done | by rewrite IH]. Qed.

Lemma substr_prefix pre post :
  substr 0 (String.length pre) (pre +:+ post) = pre.
Proof.
  unfold substr. induction pre as [|a pre IH]; simpl; [by destruct post | by rewrite IH].
Qed.

Lemma substring_all s : String.substring 0 (String.length s) s = s.
Proof. induction s as [|a s IH]; simpl; [done | by rewrite IH]. Qed.

Lemma substr_from_suffix pre c post :
  substr_from (String.length pre + 1) (pre +:+ String c post) = post.
Proof.
  unfold substr_from. induction pre as [|a pre IH]; simpl.
  - rewrite Nat.sub_0_r. apply substring_all.
  - exact IH.
Qed.

(** Cancellation of a common suffix. *)
Lemma app_inj_suffix (s1 s2 t : string) : s1 +:+ t = s2 +:+ t → s1 = s2.
Proof.
  revert s2. induction s1 as [|a s1 IH]; intros [|b s2] Heq; simpl in Heq.
  - done.
  - apply (f_equal String.length) in Heq. simpl in Heq.
    rewrite ?length_app in Heq. simpl in Heq. lia.
  - apply (f_equal String.length) in Heq. simpl in Heq.
    rewrite ?length_app in Heq. simpl in Heq. lia.
  - injection Heq as -> Heq. f_equal. by apply IH.
Qed.

End StrFacts.

(** ** The symbol parser *)

Lemma parse_symbol_Some (s b q : string) :
  parse_symbol s = Some (b, q) ↔
  s = b +:+ String "/" q ∧ Str.lacks "/" b ∧ b ≠ EmptyString ∧ q ≠ EmptyString.
Proof.
  unfold parse_symbol. split.
  - destruct (Str.find "/" s) as [pos|] eqn:Hf; [|done].
    apply StrFacts.find_Some in Hf as (pre & post & -> & Hl & <-).
    rewrite StrFacts.length_app. simpl.
    destruct (Nat.eqb_spec (String.length pre) 0) as [|H0]; [done|].
    destruct (Nat.eqb_spec (String.length pre)
                (String.length pre + S (String.length post) - 1)) as [|H1]; [done|].
    simpl. rewrite StrFacts.substr_prefix, StrFacts.substr_from_suffix.
    intros [= <- <-].
    split_and!; [done|done| |].
    + intros ->. by apply H0.
    + intros ->. apply H1. simpl. lia.
  - intros (-> & Hl & Hb & Hq).
    assert (Str.find "/" (b +:+ String "/" q) = Some (String.length b)) as ->.
    { apply StrFacts.find_Some. by exists b, q. }
    rewrite StrFacts.length_app. simpl.
    assert ((String.length b =? 0) = false) as ->.
    { apply Nat.eqb_neq. by destruct b. }
    assert ((String.length b =? String.length b + S (String.length q) - 1) = false) as ->.
    { apply Nat.eqb_neq. destruct q; [done|]. simpl. lia. }
    simpl. by rewrite StrFacts.substr_prefix, StrFacts.substr_from_suffix.
Qed.

Lemma parse_symbol_None (s : string) :
  parse_symbol s = None ↔
  Str.lacks "/" s
  ∨ (∃ post, s = String "/" post)
  ∨ (∃ pre, s = pre +:+ "/" ∧ Str.lacks "/" pre).
Proof.
  split.
  - unfold parse_symbol. destruct (Str.find "/" s) as [pos|] eqn:Hf.
    + apply StrFacts.find_Some in Hf as (pre & post & -> & Hl & <-).
      rewrite StrFacts.length_app. simpl.
      destruct (Nat.eqb_spec (String.length pre) 0) as [H0|H0].
      * intros _. right; left. destruct pre; [|done]. by exists post.
      * destruct (Nat.eqb_spec (String.length pre)
                    (String.length pre + S (String.length post) - 1)) as [H1|H1]; [|done].
        intros _. right; right.
        destruct post; [|simpl in H1; lia]. by exists pre.
    + intros _. left. by apply StrFacts.find_None.
  - intros Hcases. destruct (parse_symbol s) as [[b q]|] eqn:Hp; [|done].
    apply parse_symbol_Some in Hp as (-> & Hl & Hb & Hq).
    destruct Hcases as [Hno | [[post Heq] | (pre & Heq & Hpre)]].
    + pose proof (proj2 (StrFacts.find_None _ _) Hno) as Hn.
      assert (Str.find "/" (b +:+ String "/" q) = Some (String.length b)) as Hs.
      { apply StrFacts.find_Some. by exists b, q. }
      congruence.
    + destruct b as [|a b]; [done|]. simpl in Heq. injection Heq as -> _.
      by destruct (Hl 0).
    + assert (Str.find "/" (b +:+ String "/" q) = Some (String.length b)) as Hs.
      { apply StrFacts.find_Some. by exists b, q. }
      assert (Str.find "/" (pre +:+ "/") = Some (String.length pre)) as Hs'.
      { apply StrFacts.find_Some. by exists pre, EmptyString. }
      rewrite Heq in Hs. rewrite Hs' in Hs. injection Hs as Hlen.
      apply (f_equal String.length) in Heq. rewrite !StrFacts.length_app in Heq.
      simpl in Heq. destruct q; [done | simpl in Heq; lia].
Qed.

(** C10. [parse_symbol] splits at the first '/' only.  It returns none exactly
    when the symbol has no '/', or its first '/' is its first character, or its
    first '/' is its last character; it returns [(b, q)] exactly when the
    symbol is [b], a '/', [q] with no '/' in [b] and both sides non-empty, so
    that [b] is what precedes the first '/' and [q] all that follows it; and
    ["A/B/C"] is accepted with quote currency ["B/C"]. *)
Theorem parse_symbol_first_slash :
  (∀ s, parse_symbol s = None ↔
        Str.lacks "/" s
        ∨ (∃ post, s = String "/" post)
        ∨ (∃ pre, s = pre +:+ "/" ∧ Str.lacks "/" pre))
  ∧ (∀ s b q, parse_symbol s = Some (b, q) ↔
        s = b +:+ String "/" q ∧ Str.lacks "/" b
        ∧ b ≠ EmptyString ∧ q ≠ EmptyString)
  ∧ parse_symbol "A/B/C" = Some ("A", "B/C")%string.
Proof.
  split_and!.
  - apply parse_symbol_None.
  - apply parse_symbol_Some.
  - reflexivity.
Qed.

(** ** The ingress path and the counters *)

Lemma same_counters_refl e : same_counters e e.
Proof. by split. Qed.

Lemma same_counters_trans e1 e2 e3 :
  same_counters e1 e2 → same_counters e2 e3 → same_counters e1 e3.
Proof. intros [Ha Hb] [Hc Hd]. split; congruence. Qed.

Lemma same_counters_stats e e' : stats_ e' = stats_ e → same_counters e e'.
Proof. intros Heq. unfold same_counters. by rewrite Heq. Qed.

Lemma get_currency_index_stats currency x e :
  stats_ (get_currency_index currency x e).2 = stats_ e.
Proof. unfold get_currency_index. by destruct (currency_indices_ e !! _). Qed.

Lemma on_opportunity_detected_stats now opp e :
  stats_ (on_opportunity_detected now opp e) = stats_ e.
Proof.
  unfold on_opportunity_detected.
  destruct (1 <=? _)%Z; simpl; by destruct (_ <=? _)%Z.
Qed.

Lemma process_opportunities_counters clock opps e :
  same_counters e (process_opportunities clock opps e).
Proof.
  unfold process_opportunities. generalize (imap pair opps). intros l.
  revert e. induction l as [|[i opp] l IH]; intros e; simpl.
  - apply same_counters_refl.
  - eapply same_counters_trans; [|apply IH].
    destruct (is_profitable _ _); [|apply same_counters_refl].
    unfold same_counters, count_opportunity. simpl.
    by rewrite on_opportunity_detected_stats.
Qed.

Section Counters.
Context {libm : Libm}.

Lemma update_price_graph_stats tick e :
  stats_ (update_price_graph tick e) = stats_ e.
Proof.
  unfold update_price_graph.
  destruct (parse_symbol _) as [[base quote]|]; [|done].
  destruct (get_currency_index base _ e) as [bi e1] eqn:H1.
  destruct (get_currency_index quote _ e1) as [qi e2] eqn:H2.
  assert (stats_ e2 = stats_ e) as Hst.
  { pose proof (get_currency_index_stats quote (exchange_code (exchange tick)) e1) as Ha.
    pose proof (get_currency_index_stats base (exchange_code (exchange tick)) e) as Hb.
    rewrite H2 in Ha. rewrite H1 in Hb. simpl in *. congruence. }
  destruct (_ || _); [done|].
  destruct (0 <? bid tick)%float, (0 <? ask tick)%float; simpl; done.
Qed.

Lemma process_market_data_step_stats e :
  stats_ (process_market_data_step e) = stats_ e.
Proof.
  unfold process_market_data_step.
  destruct (running_ e); [|done].
  destruct (tick_queue_ e) as [q|]; [|done].
  destruct (try_dequeue q) as [[tick q']|]; [|done].
  simpl. by rewrite update_price_graph_stats.
Qed.

Lemma detect_step_counters now clock e :
  same_counters e (detect_arbitrage_opportunities_step now clock e).
Proof.
  unfold detect_arbitrage_opportunities_step.
  destruct (running_ e); [apply process_opportunities_counters | apply same_counters_refl].
Qed.

End Counters.

(** [update_price] fails exactly when there is no queue or the queue is full. *)
Lemma update_price_fails_iff t0 t1 x s b a v e :
  (update_price t0 t1 x s b a v e).1 = false ↔
  tick_queue_ e = None
  ∨ ∃ q, tick_queue_ e = Some q ∧ capacity q ≤ length (items q).
Proof.
  unfold update_price, try_enqueue. simpl.
  destruct (tick_queue_ e) as [q|]; simpl.
  - destruct (Nat.ltb_spec (length (items q)) (capacity q)); simpl.
    + split; [done|]. intros [|(q' & [= <-] & Hle)]; [done | lia].
    + split; [|done]. intros _. right. by exists q.
  - split; [by left | done].
Qed.

(** What a call of [update_price] does to the counters. *)
Lemma update_price_counters t0 t1 x s b a v e :
  let r := update_price t0 t1 x s b a v e in
  messages_processed (stats_ r.2)
  = (if r.1 then (messages_processed (stats_ e) + 1) `mod` 2 ^ 64
     else messages_processed (stats_ e))%Z
  ∧ false_positives (stats_ r.2) = false_positives (stats_ e).
Proof.
  unfold update_price. simpl.
  destruct (tick_queue_ e) as [q|]; simpl; [|done].
  by destruct (try_enqueue _ q).
Qed.

(** C7 (as amended). When the enqueue attempt fails, [update_price] returns
    false and leaves the engine as it was except for [sequence_counter_], which
    it has already incremented: the statistics ([messages_processed],
    [avg_latency_us] and the others), the queue, the price graph and the
    publisher state are unchanged. *)
Theorem update_price_failure_keeps_all_but_sequence t0 t1 x s b a v e :
  (update_price t0 t1 x s b a v e).1 = false →
  let e' := (update_price t0 t1 x s b a v e).2 in
  e' = set_sequence_counter ((sequence_counter_ e + 1) `mod` 2 ^ 64)%Z e
  ∧ stats_ e' = stats_ e
  ∧ tick_queue_ e' = tick_queue_ e
  ∧ price_graph_ e' = price_graph_ e
  ∧ detected_opportunities_ e' = detected_opportunities_ e
  ∧ delivered e' = delivered e.
Proof.
  unfold update_price. simpl.
  destruct (tick_queue_ e) as [q|] eqn:Hq; simpl.
  - destruct (try_enqueue _ q); simpl; [done|]. intros _. by rewrite Hq.
  - intros _. by rewrite Hq.
Qed.

(** C7, the claim as stated fails: on the engine as constructed (no queue)
    [update_price] returns false and the sequence counter has moved from 0
    to 1, so the engine is not what it was before the call. *)
Lemma update_price_failure_has_side_effect :
  let e := new_engine default_config 0 in
  let r := update_price 0 0 BINANCE "BTC/USDT" 1%float 1%float 1%float e in
  r.1 = false ∧ sequence_counter_ e = 0%Z ∧ sequence_counter_ r.2 = 1%Z ∧ r.2 ≠ e.
Proof.
  split_and!; [reflexivity..|].
  intros Heq. apply (f_equal sequence_counter_) in Heq. discriminate Heq.
Qed.

Lemma update_price_failure_keeps_all_but_sequence_witness :
  let e := engine_with_queue (Some {| capacity := 0; items := [] |}) default_config 0 in
  let r := update_price 5 9 KRAKEN "ETH/BTC" 2%float 3%float 1%float e in
  r.1 = false ∧ stats_ r.2 = stats_ e ∧ tick_queue_ r.2 = tick_queue_ e.
Proof.
  intros e r.
  pose proof (update_price_failure_keeps_all_but_sequence
                5 9 KRAKEN "ETH/BTC" 2%float 3%float 1%float e eq_refl)
    as (_ & Hst & Hq & _).
  split_and!; [reflexivity | exact Hst | exact Hq].
Defined.

Section Runs.
Context {libm : Libm}.

Lemma step_counters c e :
  let r := step c e in
  messages_processed (stats_ r.2)
  = (if bool_decide (r.1 = Some true)
     then (messages_processed (stats_ e) + 1) `mod` 2 ^ 64
     else messages_processed (stats_ e))%Z
  ∧ false_positives (stats_ r.2) = false_positives (stats_ e).
Proof.
  destruct c as [| |t0 t1 x s b a v| |now clock|cb]; simpl; try done.
  - pose proof (update_price_counters t0 t1 x s b a v e) as [Hm Hf]. simpl in Hm, Hf.
    destruct (update_price t0 t1 x s b a v e) as [r e']. simpl in *.
    by destruct r.
  - by rewrite process_market_data_step_stats.
  - apply detect_step_counters.
Qed.

Lemma run_results_length cs e : length (run cs e).1 ≤ length cs.
Proof.
  revert e. induction cs as [|c cs IH]; intros e; simpl; [done|].
  destruct (step c e) as [r e']. specialize (IH e').
  destruct (run cs e') as [rs e'']. simpl in *. destruct r; simpl; lia.
Qed.

Lemma successes_le rs : successes rs ≤ length rs.
Proof. unfold successes. apply length_filter. Qed.

(** The counter along a run, with the wrap-around of [uint64_t]. *)
Lemma run_messages_processed cs e :
  (0 ≤ messages_processed (stats_ e) < 2 ^ 64)%Z →
  messages_processed (stats_ (run cs e).2)
  = ((messages_processed (stats_ e) + Z.of_nat (successes (run cs e).1)) `mod` 2 ^ 64)%Z.
Proof.
  revert e. induction cs as [|c cs IH]; intros e Hrange; simpl.
  - unfold successes. simpl. rewrite Z.add_0_r, Z.mod_small; done.
  - pose proof (step_counters c e) as [Hm _]. simpl in Hm.
    destruct (step c e) as [r e'] eqn:Hstep. simpl in Hm.
    assert (0 ≤ messages_processed (stats_ e') < 2 ^ 64)%Z as Hrange'.
    { rewrite Hm. case_bool_decide; [|done]. by apply Z.mod_pos_bound. }
    specialize (IH e' Hrange').
    destruct (run cs e') as [rs e''] eqn:Hrun. simpl in *.
    rewrite IH, Hm. destruct r as [[|]|]; simpl.
    + unfold successes. simpl.
      rewrite Zplus_mod_idemp_l. f_equal. lia.
    + done.
    + done.
Qed.

(** No call writes [false_positives]. *)
Lemma run_false_positives cs e :
  false_positives (stats_ (run cs e).2) = false_positives (stats_ e).
Proof.
  revert e. induction cs as [|c cs IH]; intros e; simpl; [done|].
  pose proof (step_counters c e) as [_ Hf]. simpl in Hf.
  destruct (step c e) as [r e']. specialize (IH e').
  destruct (run cs e') as [rs e'']. simpl in *. congruence.
Qed.

(** C8. After any sequence of calls on an engine as constructed (whatever its
    queue), [messages_processed] is the number of [update_price] calls that
    returned true: each such call adds one, a failed call and every other
    operation leave it alone.  The counter is a [uint64_t]: the statement is
    for fewer than 2^64 calls. *)
Theorem messages_processed_counts_accepted
    (cs : list Call) (q : option TickQueue) (config : Config) (now : Z) :
  (Z.of_nat (length cs) < 2 ^ 64)%Z →
  messages_processed (stats_ (run cs (engine_with_queue q config now)).2)
  = Z.of_nat (successes (run cs (engine_with_queue q config now)).1).
Proof.
  intros Hlen. rewrite run_messages_processed by done. simpl.
  apply Z.mod_small. split; [lia|].
  pose proof (run_results_length cs (engine_with_queue q config now)).
  pose proof (successes_le (run cs (engine_with_queue q config now)).1). lia.
Qed.

End Runs.

Lemma messages_processed_counts_accepted_witness :
  let q := Some {| capacity := 4; items := [] |} in
  let cs := [CStart;
             CUpdatePrice 10 12 BINANCE "A/B" 2%float 3%float 1%float;
             CUpdatePrice 20 22 BINANCE "B/C" 3%float 4%float 1%float;
             CUpdatePrice 30 32 BINANCE "C/A" 1%float 2%float 1%float;
             CUpdatePrice 40 42 KRAKEN "A/B" 2%float 3%float 1%float;
             CUpdatePrice 50 52 KRAKEN "B/C" 3%float 4%float 1%float] in
  (run (libm := ref_libm) cs (engine_with_queue q default_config 0)).1
  = [true; true; true; true; false]
  ∧ messages_processed
      (stats_ (run (libm := ref_libm) cs (engine_with_queue q default_config 0)).2) = 4%Z.
Proof.
  intros q cs. split; [reflexivity|].
  rewrite (messages_processed_counts_accepted (libm := ref_libm) cs q default_config 0 eq_refl).
  reflexivity.
Defined.

(** ** Cycles that fail the profit recompute *)

Section FailedRecompute.
Context {libm : Libm}.

Lemma extract_arbitrage_cycle_Some now v parent dist e opp :
  extract_arbitrage_cycle now v parent dist e = Some opp →
  ∃ p, arbitrage_path v parent = Some p
       ∧ (path_profit (price_graph_ e) p <=? 0)%float = false
       ∧ profit_percentage opp = path_profit (price_graph_ e) p
       ∧ path opp = path_string p e
       ∧ confidence opp
         = calculate_confidence now p (total_log_return (price_graph_ e) p) e.
Proof.
  unfold extract_arbitrage_cycle, path_profit.
  destruct (arbitrage_path v parent) as [p|]; [|done].
  destruct (_ <=? 0)%float eqn:Hle; [done|].
  intros [= <-]. by exists p.
Qed.

(** C9 (as amended). A cycle that has been extracted but whose recomputed
    profit is not above zero is discarded: [extract_arbitrage_cycle] returns
    none.  [false_positives] is not incremented: no operation of the engine
    writes it, and it keeps its value along every execution. *)
Theorem failed_recompute_discarded_uncounted
    (now v : Z) (parent : list Z) (dist : list float) (e : Engine) (p : list Z) :
  arbitrage_path v parent = Some p →
  (path_profit (price_graph_ e) p <=? 0)%float = true →
  extract_arbitrage_cycle now v parent dist e = None
  ∧ ∀ cs, false_positives (stats_ (run cs e).2) = false_positives (stats_ e).
Proof.
  intros Hp Hle. split.
  - unfold extract_arbitrage_cycle. rewrite Hp. unfold path_profit in Hle. by rewrite Hle.
  - intros cs. apply run_false_positives.
Qed.

End FailedRecompute.

(** C9, the claim as stated fails: the search from node 0 finds the edge
    0 -> 1 still improving, the cycle 2, 0, 1 is extracted, its recomputed
    profit is 0 and it is discarded; after the detection iteration
    [false_positives] is still 0. *)
Lemma failed_recompute_leaves_false_positives :
  let e := tiny_cycle_engine in
  let g := price_graph_ e in
  let st := bellman_ford g 0 in
  (dist_at (bf_dist st) 0 + cell g 0 1 <? dist_at (bf_dist st) 1)%float = true
  ∧ arbitrage_path 1 (bf_parent st) = Some [2; 0; 1]%Z
  ∧ path_profit (libm := ref_libm) g [2; 0; 1]%Z = 0%float
  ∧ extract_arbitrage_cycle (libm := ref_libm) 0 1 (bf_parent st) (bf_dist st) e = None
  ∧ false_positives (stats_ e) = 0%Z
  ∧ false_positives
      (stats_ (detect_arbitrage_opportunities_step (libm := ref_libm) 0 (λ _, 0%Z) e)) = 0%Z.
Proof. split_and!; vm_compute; reflexivity. Qed.

Lemma failed_recompute_discarded_uncounted_witness :
  let e := tiny_cycle_engine in
  let st := bellman_ford (price_graph_ e) 0 in
  extract_arbitrage_cycle (libm := ref_libm) 7 1 (bf_parent st) (bf_dist st) e = None
  ∧ false_positives (stats_ (run (libm := ref_libm) [CDetect 7 (λ _, 8%Z)] e).2) = 0%Z.
Proof.
  intros e st.
  assert (arbitrage_path 1 (bf_parent st) = Some [2; 0; 1]%Z) as Hp
    by (vm_compute; reflexivity).
  assert ((path_profit (libm := ref_libm) (price_graph_ e) [2; 0; 1]%Z <=? 0)%float = true)
    as Hle by (vm_compute; reflexivity).
  destruct (failed_recompute_discarded_uncounted (libm := ref_libm)
              7 1 (bf_parent st) (bf_dist st) e [2; 0; 1]%Z Hp Hle) as [Hnone Hfp].
  split; [exact Hnone|]. rewrite Hfp. reflexivity.
Defined.

(** ** The rate limiter *)

Lemma on_opportunity_detected_config now opp e :
  config_ (on_opportunity_detected now opp e) = config_ e.
Proof.
  unfold on_opportunity_detected.
  destruct (1 <=? _)%Z; simpl; by destruct (_ <=? _)%Z.
Qed.

(** A call that is not admitted leaves no trace; an admitted one is stored
    (the oldest entry leaves a history of 1000) and every callback is called. *)
Lemma on_opportunity_detected_dropped now opp e :
  admitted now e = false →
  let e' := on_opportunity_detected now opp e in
  detected_opportunities_ e' = detected_opportunities_ e
  ∧ delivered e' = delivered e
  ∧ stats_ e' = stats_ e
  ∧ last_alert e' = Some (window_at now e).1
  ∧ alerts_this_second e' = (window_at now e).2.
Proof.
  unfold admitted, window_at, on_opportunity_detected.
  destruct (1 <=? _)%Z; simpl; intros Hadm; apply negb_false_iff in Hadm;
    rewrite Hadm; done.
Qed.

Lemma on_opportunity_detected_admitted now opp e :
  admitted now e = true →
  let e' := on_opportunity_detected now opp e in
  let h := detected_opportunities_ e ++ [opp] in
  detected_opportunities_ e' = (if 1000 <? length h then tail h else h)
  ∧ delivered e' = delivered e ++ map (λ s, (s, opp)) (callbacks_ e)
  ∧ last_alert e' = Some (window_at now e).1
  ∧ alerts_this_second e' = (((window_at now e).2 + 1) `mod` 2 ^ 32)%Z.
Proof.
  unfold admitted, window_at, on_opportunity_detected.
  destruct (1 <=? _)%Z; simpl; intros Hadm; apply negb_true_iff in Hadm;
    rewrite Hadm; done.
Qed.

Lemma quot_second_reset (now la : Z) :
  (1 <=? (now - la) `quot` 1000000000)%Z = true → (la < now)%Z.
Proof.
  intros Hq. apply Z.leb_le in Hq.
  destruct (Z.lt_ge_cases la now) as [|Hge]; [done|].
  assert ((now - la) `quot` 1000000000 ≤ 0)%Z; [|lia].
  replace (now - la)%Z with (- (la - now))%Z by lia.
  rewrite Z.quot_opp_l by done.
  pose proof (Z.quot_pos (la - now) 1000000000). lia.
Qed.

Lemma emissions_bounded_from calls e la n w :
  (0 ≤ max_opportunities_per_second (config_ e) < 2 ^ 32)%Z →
  last_alert e = Some la → alerts_this_second e = n → (0 ≤ n)%Z →
  (emitted_in_window w (emissions calls e)
   ≤ window_room (max_opportunities_per_second (config_ e)) la n w)%Z.
Proof.
  revert e la n. induction calls as [|[t opp] calls IH]; intros e la n Hcap Hla Hn Hn0.
  - unfold emitted_in_window, window_room. simpl.
    destruct (w <? la)%Z; [done|]. destruct (w =? la)%Z; lia.
  - simpl. unfold emitted_in_window. rewrite filter_app, length_app, Nat2Z.inj_add.
    fold (emitted_in_window w (emissions calls (on_opportunity_detected t opp e))).
    set (cap := max_opportunities_per_second (config_ e)) in *.
    assert (window_at t e = if (1 <=? (t - la) `quot` 1000000000)%Z
                            then (t, 0%Z) else (la, n)) as Hwin.
    { unfold window_at. rewrite Hla, Hn. done. }
    destruct (admitted t e) eqn:Hadm.
    + pose proof (on_opportunity_detected_admitted t opp e Hadm) as (_ & _ & Hla' & Hn').
      simpl in Hla', Hn'.
      unfold admitted in Hadm. apply negb_true_iff, Z.leb_gt in Hadm. fold cap in Hadm.
      rewrite Hwin in Hadm, Hla', Hn' |- *.
      destruct (1 <=? (t - la) `quot` 1000000000)%Z eqn:Hreset; simpl in *.
      * apply quot_second_reset in Hreset.
        rewrite Z.mod_small in Hn' by lia.
        specialize (IH _ t 1%Z ltac:(by rewrite on_opportunity_detected_config) Hla' Hn' ltac:(lia)).
        rewrite on_opportunity_detected_config in IH. fold cap in IH.
        revert IH. unfold window_room.
        rewrite filter_cons. simpl. case_decide; simpl;
          repeat case_match; rewrite ?Z.ltb_lt, ?Z.ltb_ge, ?Z.eqb_eq, ?Z.eqb_neq in *; lia.
      * rewrite Z.mod_small in Hn' by lia.
        specialize (IH _ la (n + 1)%Z ltac:(by rewrite on_opportunity_detected_config)
                       Hla' Hn' ltac:(lia)).
        rewrite on_opportunity_detected_config in IH. fold cap in IH.
        revert IH. unfold window_room.
        rewrite filter_cons. simpl. case_decide; simpl;
          repeat case_match; rewrite ?Z.ltb_lt, ?Z.ltb_ge, ?Z.eqb_eq, ?Z.eqb_neq in *; lia.
    + pose proof (on_opportunity_detected_dropped t opp e Hadm) as (_ & _ & _ & Hla' & Hn').
      simpl in Hla', Hn'.
      unfold admitted in Hadm. apply negb_false_iff, Z.leb_le in Hadm. fold cap in Hadm.
      rewrite Hwin in Hadm, Hla', Hn'.
      destruct (1 <=? (t - la) `quot` 1000000000)%Z eqn:Hreset; simpl in *.
      * apply quot_second_reset in Hreset.
        specialize (IH _ t 0%Z ltac:(by rewrite on_opportunity_detected_config) Hla' Hn' ltac:(lia)).
        rewrite on_opportunity_detected_config in IH. fold cap in IH.
        revert IH. unfold window_room.
        repeat case_match; rewrite ?Z.ltb_lt, ?Z.ltb_ge, ?Z.eqb_eq, ?Z.eqb_neq in *; lia.
      * specialize (IH _ la n ltac:(by rewrite on_opportunity_detected_config) Hla' Hn' Hn0).
        rewrite on_opportunity_detected_config in IH. fold cap in IH.
        revert IH. unfold window_room.
        repeat case_match; rewrite ?Z.ltb_lt, ?Z.ltb_ge, ?Z.eqb_eq, ?Z.eqb_neq in *; lia.
Qed.

(** C6 (as amended). The limiter counts in fixed windows: a window starts
    when the statics are initialised or reset and lasts until the first call
    that arrives a whole second or more after its start.  With the statics in
    their initial state, at most [max_opportunities_per_second] opportunities
    are emitted in any one window; a call that is not admitted leaves the
    history, the callbacks and the statistics untouched, and an admitted one
    is appended to the history and handed to every callback. *)
Theorem rate_limit_per_fixed_window
    (calls : list (Z * ArbitrageOpportunity)) (e : Engine) (w : Z) :
  (0 ≤ max_opportunities_per_second (config_ e) < 2 ^ 32)%Z →
  last_alert e = None → alerts_this_second e = 0%Z →
  (emitted_in_window w (emissions calls e) ≤ max_opportunities_per_second (config_ e))%Z
  ∧ (∀ now opp e', admitted now e' = false →
       detected_opportunities_ (on_opportunity_detected now opp e') = detected_opportunities_ e'
       ∧ delivered (on_opportunity_detected now opp e') = delivered e'
       ∧ stats_ (on_opportunity_detected now opp e') = stats_ e')
  ∧ (∀ now opp e', admitted now e' = true →
       opp ∈ detected_opportunities_ (on_opportunity_detected now opp e')
       ∧ delivered (on_opportunity_detected now opp e')
         = delivered e' ++ map (λ s, (s, opp)) (callbacks_ e')).
Proof.
  intros Hcap Hla Hn. split_and!.
  - destruct calls as [|[t opp] calls].
    + unfold emitted_in_window. simpl. lia.
    + simpl. unfold emitted_in_window. rewrite filter_app, length_app, Nat2Z.inj_add.
      fold (emitted_in_window w (emissions calls (on_opportunity_detected t opp e))).
      set (cap := max_opportunities_per_second (config_ e)) in *.
      assert (window_at t e = (t, 0%Z)) as Hwin.
      { unfold window_at. rewrite Hla, Hn. simpl. by rewrite Z.sub_diag. }
      destruct (admitted t e) eqn:Hadm.
      * pose proof (on_opportunity_detected_admitted t opp e Hadm) as (_ & _ & Hla' & Hn').
        simpl in Hla', Hn'. rewrite Hwin in Hla', Hn' |- *. simpl in *.
        unfold admitted in Hadm. rewrite Hwin in Hadm.
        apply negb_true_iff, Z.leb_gt in Hadm. fold cap in Hadm. simpl in Hadm.
        pose proof (emissions_bounded_from calls _ t 1%Z w
                      ltac:(by rewrite on_opportunity_detected_config) Hla' Hn' ltac:(lia)) as Hb.
        rewrite on_opportunity_detected_config in Hb. fold cap in Hb.
        revert Hb. unfold window_room.
        rewrite filter_cons. simpl. case_decide; simpl;
          repeat case_match; rewrite ?Z.ltb_lt, ?Z.ltb_ge, ?Z.eqb_eq, ?Z.eqb_neq in *; lia.
      * pose proof (on_opportunity_detected_dropped t opp e Hadm) as (_ & _ & _ & Hla' & Hn').
        simpl in Hla', Hn'. rewrite Hwin in Hla', Hn'. simpl in *.
        pose proof (emissions_bounded_from calls _ t 0%Z w
                      ltac:(by rewrite on_opportunity_detected_config) Hla' Hn' ltac:(lia)) as Hb.
        rewrite on_opportunity_detected_config in Hb. fold cap in Hb.
        revert Hb. unfold window_room.
        repeat case_match; rewrite ?Z.ltb_lt, ?Z.ltb_ge, ?Z.eqb_eq, ?Z.eqb_neq in *; lia.
  - intros now opp e' Hadm.
    by destruct (on_opportunity_detected_dropped now opp e' Hadm) as (? & ? & ? & _).
  - intros now opp e' Hadm.
    destruct (on_opportunity_detected_admitted now opp e' Hadm) as (Hh & Hd & _).
    split; [|exact Hd]. simpl in Hh. rewrite Hh.
    destruct (Nat.ltb_spec 1000 (length (detected_opportunities_ e' ++ [opp]))) as [Hlong|_].
    + destruct (detected_opportunities_ e') as [|o h]; simpl in *; [lia|].
      apply elem_of_app. right. apply list_elem_of_here.
    + apply elem_of_app. right. apply list_elem_of_here.
Qed.

(** C6, the claim as stated fails: with a cap of 2, the four calls are all
    emitted (two at the end of the first window, two at the start of the
    second), stored and delivered, and three of them fall in the second that
    starts at 0.9 s. *)
Lemma sliding_second_exceeds_cap :
  let e := register_opportunity_callback 7 (new_engine two_per_second 0) in
  emissions boundary_calls e
  = [(0, 0); (0, 900000000); (1000000000, 1000000000); (1000000000, 1100000000)]%Z
  ∧ emitted_within_second 900000000 (emissions boundary_calls e) = 3%Z
  ∧ max_opportunities_per_second (config_ e) = 2%Z
  ∧ detected_opportunities_ (publish boundary_calls e) = boundary_calls.*2
  ∧ delivered (publish boundary_calls e) = (λ o, (7, o)) <$> boundary_calls.*2.
Proof. split_and!; vm_compute; reflexivity. Qed.

Lemma rate_limit_per_fixed_window_witness :
  let e := register_opportunity_callback 7 (new_engine two_per_second 0) in
  (emitted_in_window 0 (emissions boundary_calls e) ≤ 2)%Z
  ∧ (emitted_in_window 1000000000 (emissions boundary_calls e) ≤ 2)%Z.
Proof.
  intros e. split.
  - exact (proj1 (rate_limit_per_fixed_window boundary_calls e 0
                    ltac:(by vm_compute) eq_refl eq_refl)).
  - exact (proj1 (rate_limit_per_fixed_window boundary_calls e 1000000000
                    ltac:(by vm_compute) eq_refl eq_refl)).
Defined.

(** ** The symbol index *)

Lemma index_ok_empty : index_ok ∅.
Proof. split; intros *; by rewrite lookup_empty. Qed.

Lemma index_ok_insert (m : gmap string nat) (k0 : string) :
  m !! k0 = None → index_ok m → index_ok (<[k0 := size m]> m).
Proof.
  intros Hfresh [Hlt Hinj]. split.
  - intros k i. rewrite map_size_insert_None by done.
    destruct (decide (k0 = k)) as [<-|Hne].
    + rewrite lookup_insert_eq. intros [= <-]. lia.
    + rewrite lookup_insert_ne by done. intros Hk. apply Hlt in Hk. lia.
  - intros k1 k2 i.
    destruct (decide (k0 = k1)) as [<-|Hne1], (decide (k0 = k2)) as [<-|Hne2];
      rewrite ?lookup_insert_eq, ?lookup_insert_ne by done; try done.
    + intros [= <-] Hk. apply Hlt in Hk. lia.
    + intros Hk [= <-]. apply Hlt in Hk. lia.
    + apply Hinj.
Qed.

Lemma currency_key_inj c1 c2 x : currency_key c1 x = currency_key c2 x → c1 = c2.
Proof. unfold currency_key. apply StrFacts.app_inj_suffix. Qed.

(** What [get_currency_index] returns and what it leaves alone: it writes the
    two maps of the index and nothing else. *)
Lemma get_currency_index_spec c x e :
  let r := get_currency_index c x e in
  currency_indices_ r.2 !! currency_key c x = Some r.1
  ∧ (∀ k j, currency_indices_ e !! k = Some j → currency_indices_ r.2 !! k = Some j)
  ∧ (index_ok (currency_indices_ e) → index_ok (currency_indices_ r.2))
  ∧ price_graph_ r.2 = price_graph_ e
  ∧ tick_queue_ r.2 = tick_queue_ e
  ∧ config_ r.2 = config_ e.
Proof.
  unfold get_currency_index.
  destruct (currency_indices_ e !! currency_key c x) as [i|] eqn:Hk; simpl.
  - done.
  - split_and!; try done.
    + apply lookup_insert_eq.
    + intros k j Hj. rewrite lookup_insert_ne; [done|]. intros <-. congruence.
    + by apply index_ok_insert.
Qed.

Lemma graph_set_other u v w g a b :
  (a, b) ≠ (u, v) → cell (graph_set u v w g) a b = cell g a b.
Proof.
  intros Hne. simpl.
  destruct (Nat.eqb_spec a u) as [->|], (Nat.eqb_spec b v) as [->|]; simpl; done.
Qed.

Lemma graph_set_same u v w g : cell (graph_set u v w g) u v = w.
Proof. simpl. by rewrite !Nat.eqb_refl. Qed.

Section Updater.
Context {libm : Libm}.

(** The two nodes of a tick and the engine after interning them. *)
Lemma update_price_graph_nodes tick e base quote :
  index_ok (currency_indices_ e) →
  parse_symbol (symbol tick) = Some (base, quote) → base ≠ quote →
  let x := exchange_code (exchange tick) in
  let r1 := get_currency_index base x e in
  let r2 := get_currency_index quote x r1.2 in
  currency_indices_ r2.2 !! currency_key base x = Some r1.1
  ∧ currency_indices_ r2.2 !! currency_key quote x = Some r2.1
  ∧ r1.1 ≠ r2.1
  ∧ index_ok (currency_indices_ r2.2)
  ∧ price_graph_ r2.2 = price_graph_ e.
Proof.
  intros Hok Hparse Hne x r1 r2.
  destruct (get_currency_index_spec base x e) as (Hb & _ & Hok1 & Hg1 & _).
  destruct (get_currency_index_spec quote x r1.2) as (Hq & Hmono & Hok2 & Hg2 & _).
  fold r1 in Hb, Hok1, Hg1. fold r1 r2 in Hq, Hmono, Hok2, Hg2.
  specialize (Hok1 Hok). specialize (Hok2 Hok1).
  split_and!; [by apply Hmono | done | | done | congruence].
  intros Heq. apply Hmono in Hb. rewrite Heq in Hb.
  destruct Hok2 as [_ Hinj]. apply Hne, (currency_key_inj _ _ x). by eapply Hinj.
Qed.

(** The index and the graph size after a tick, whatever the tick. *)
Lemma update_price_graph_frame tick e :
  (index_ok (currency_indices_ e) → index_ok (currency_indices_ (update_price_graph tick e)))
  ∧ size_ (price_graph_ (update_price_graph tick e)) = size_ (price_graph_ e)
  ∧ tick_queue_ (update_price_graph tick e) = tick_queue_ e
  ∧ config_ (update_price_graph tick e) = config_ e.
Proof.
  unfold update_price_graph.
  destruct (parse_symbol _) as [[base quote]|]; [|done].
  destruct (get_currency_index_spec base (exchange_code (exchange tick)) e)
    as (_ & _ & Hok1 & Hg1 & Hq1 & Hc1).
  destruct (get_currency_index base _ e) as [bi e1]. simpl in *.
  destruct (get_currency_index_spec quote (exchange_code (exchange tick)) e1)
    as (_ & _ & Hok2 & Hg2 & Hq2 & Hc2).
  destruct (get_currency_index quote _ e1) as [qi e2]. simpl in *.
  assert (size_ (price_graph_ e2) = size_ (price_graph_ e)) as Hsz by congruence.
  destruct (_ || _); [split_and!; [tauto | congruence..]|].
  destruct (0 <? bid tick)%float, (0 <? ask tick)%float; simpl;
    (split_and!; [tauto | congruence..]).
Qed.

(** A tick with two different sides leaves the diagonal alone. *)
Lemma update_price_graph_diagonal tick e :
  index_ok (currency_indices_ e) → distinct_sides (symbol tick) = true →
  diagonal_zero (price_graph_ e) → diagonal_zero (price_graph_ (update_price_graph tick e)).
Proof.
  intros Hok Hds Hdiag. unfold distinct_sides in Hds. unfold update_price_graph.
  destruct (parse_symbol (symbol tick)) as [[base quote]|] eqn:Hparse; [|done].
  assert (base ≠ quote) as Hne.
  { intros ->. by rewrite String.eqb_refl in Hds. }
  destruct (update_price_graph_nodes tick e base quote Hok Hparse Hne)
    as (_ & _ & Hdiff & _ & Hg).
  destruct (get_currency_index base _ e) as [bi e1]. simpl in *.
  destruct (get_currency_index quote _ e1) as [qi e2]. simpl in *.
  assert (diagonal_zero (price_graph_ e2)) as Hd2 by by rewrite Hg.
  destruct (_ || _); [done|].
  destruct (0 <? bid tick)%float, (0 <? ask tick)%float; simpl; try done;
    intros u Hu; simpl in Hu;
    repeat (rewrite graph_set_other by (intros [= ? ?]; congruence));
    by apply Hd2.
Qed.

(** C4 (as amended). For a tick with bid > 0 and ask > 0 whose symbol parses
    into two different currencies, both interned below the size of the graph,
    the graph after [update_price_graph] holds [-log(bid)] on the forward edge
    (base -> quote) and [-log(1.0 / ask)], the double the code computes, on the
    reverse edge (quote -> base); with bid = ask = 1.0 and [log(1.0) = 0] both
    weights are the zero [-0.0]. *)
Theorem update_price_graph_round_trip (tick : MarketTick) (e : Engine) (base quote : string) :
  index_ok (currency_indices_ e) →
  parse_symbol (symbol tick) = Some (base, quote) → base ≠ quote →
  (0 <? bid tick)%float = true → (0 <? ask tick)%float = true →
  let x := exchange_code (exchange tick) in
  let e' := update_price_graph tick e in
  ∃ bi qi,
    currency_indices_ e' !! currency_key base x = Some bi
    ∧ currency_indices_ e' !! currency_key quote x = Some qi
    ∧ (bi < size_ (price_graph_ e) → qi < size_ (price_graph_ e) →
       cell (price_graph_ e') bi qi = (- std_log (bid tick))%float
       ∧ cell (price_graph_ e') qi bi = (- std_log (1 / ask tick))%float
       ∧ (bid tick = 1%float → ask tick = 1%float → std_log 1%float = 0%float →
          cell (price_graph_ e') bi qi = (-0)%float
          ∧ cell (price_graph_ e') qi bi = (-0)%float
          ∧ (cell (price_graph_ e') bi qi =? 0)%float = true
          ∧ (cell (price_graph_ e') qi bi =? 0)%float = true)).
Proof.
  intros Hok Hparse Hne Hbid Hask x e'.
  destruct (update_price_graph_nodes tick e base quote Hok Hparse Hne)
    as (Hb & Hq & Hdiff & _ & Hg).
  subst x e'. simpl in Hb, Hq, Hdiff, Hg. unfold update_price_graph. rewrite Hparse.
  destruct (get_currency_index base _ e) as [bi e1]. simpl in *.
  destruct (get_currency_index quote _ e1) as [qi e2]. simpl in *.
  exists bi, qi.
  assert (size_ (price_graph_ e2) = size_ (price_graph_ e)) as Hsz by congruence.
  rewrite Hsz, Hbid, Hask.
  destruct (Nat.leb_spec (size_ (price_graph_ e)) bi) as [Hbi|Hbi];
    destruct (Nat.leb_spec (size_ (price_graph_ e)) qi) as [Hqi|Hqi]; cbn -[graph_set];
    (split_and!; [done | done |]); intros Hbi' Hqi'; try lia.
  assert (cell (graph_set qi bi (- std_log (1 / ask tick))%float
                  (graph_set bi qi (- std_log (bid tick))%float (price_graph_ e2))) bi qi
          = (- std_log (bid tick))%float) as Hfwd.
  { rewrite graph_set_other by (intros [= ? ?]; done). apply graph_set_same. }
  rewrite Hfwd, graph_set_same.
  split_and!; [done | done |].
  intros -> -> Hlog.
  change (1 / 1)%float with 1%float. rewrite Hlog. done.
Qed.

End Updater.

(** C4, the claim as stated fails.  For ["A/A"] with bid 2 and ask 4 the
    forward and the reverse edge are the same entry, written twice: it holds
    [-log(1/4)], not [-log(2)].  For ["A/B"] with an ask of 1.000001 the
    reverse edge holds [-log(1/ask)], which, [1/ask] being rounded, differs
    from [log(ask)] in the eleventh digit. *)
Lemma round_trip_fails_as_stated :
  let e1 := update_price_graph (libm := ref_libm) same_sides_tick (new_engine default_config 0) in
  let e2 := update_price_graph (libm := ref_libm) near_one_tick (new_engine default_config 0) in
  (parse_symbol (symbol same_sides_tick) = Some ("A", "A")%string
   ∧ (0 <? bid same_sides_tick)%float = true ∧ (0 <? ask same_sides_tick)%float = true
   ∧ currency_indices_ e1 !! currency_key "A" 0 = Some 0
   ∧ cell (price_graph_ e1) 0 0 = (- RefLibm.log (1 / 4))%float
   ∧ (cell (price_graph_ e1) 0 0 =? - RefLibm.log 2)%float = false)
  ∧ (parse_symbol (symbol near_one_tick) = Some ("A", "B")%string
     ∧ (0 <? bid near_one_tick)%float = true ∧ (0 <? ask near_one_tick)%float = true
     ∧ currency_indices_ e2 !! currency_key "A" 0 = Some 0
     ∧ currency_indices_ e2 !! currency_key "B" 0 = Some 1
     ∧ cell (price_graph_ e2) 1 0 = (- RefLibm.log (1 / ask near_one_tick))%float
     ∧ (cell (price_graph_ e2) 1 0 =? RefLibm.log (ask near_one_tick))%float = false
     ∧ (RefLibm.log (ask near_one_tick) * 0x1.000000001p+0 <? cell (price_graph_ e2) 1 0)%float
       = true).
Proof. split_and!; vm_compute; reflexivity. Qed.

Lemma update_price_graph_round_trip_witness :
  let tick := {| exchange := KRAKEN; symbol := "BTC/USDT"; bid := 1%float; ask := 1%float;
                 last_price := 1%float; volume := 5%float; timestamp := 3; sequence := 0 |} in
  let e' := update_price_graph (libm := ref_libm) tick (new_engine default_config 0) in
  ∃ bi qi,
    currency_indices_ e' !! currency_key "BTC" 2 = Some bi
    ∧ currency_indices_ e' !! currency_key "USDT" 2 = Some qi
    ∧ cell (price_graph_ e') bi qi = (-0)%float
    ∧ cell (price_graph_ e') qi bi = (-0)%float.
Proof.
  intros tick e'.
  destruct (update_price_graph_round_trip (libm := ref_libm) tick
              (new_engine default_config 0) "BTC" "USDT"
              index_ok_empty eq_refl ltac:(discriminate) eq_refl eq_refl)
    as (bi & qi & Hb & Hq & Hcells).
  exists bi, qi. split_and!; [exact Hb | exact Hq | |].
  - assert (bi = 0) as -> by (vm_compute in Hb; congruence).
    assert (qi = 1) as -> by (vm_compute in Hq; congruence).
    apply Hcells; [vm_compute; lia .. | reflexivity | reflexivity | reflexivity].
  - assert (bi = 0) as -> by (vm_compute in Hb; congruence).
    assert (qi = 1) as -> by (vm_compute in Hq; congruence).
    apply Hcells; [vm_compute; lia .. | reflexivity | reflexivity | reflexivity].
Defined.

(** ** The diagonal of the price graph *)

Lemma graph_inv_frame n e e' :
  price_graph_ e' = price_graph_ e → currency_indices_ e' = currency_indices_ e →
  tick_queue_ e' = tick_queue_ e → graph_inv n e → graph_inv n e'.
Proof. unfold graph_inv. by intros -> -> ->. Qed.

Lemma on_opportunity_detected_frame now opp e :
  let e' := on_opportunity_detected now opp e in
  price_graph_ e' = price_graph_ e
  ∧ currency_indices_ e' = currency_indices_ e
  ∧ tick_queue_ e' = tick_queue_ e.
Proof.
  unfold on_opportunity_detected.
  destruct (1 <=? _)%Z; simpl; by destruct (_ <=? _)%Z.
Qed.

Lemma process_opportunities_frame clock opps e :
  let e' := process_opportunities clock opps e in
  price_graph_ e' = price_graph_ e
  ∧ currency_indices_ e' = currency_indices_ e
  ∧ tick_queue_ e' = tick_queue_ e.
Proof.
  unfold process_opportunities. generalize (imap pair opps). intros l.
  revert e. induction l as [|[i opp] l IH]; intros e; simpl; [done|].
  destruct (IH (if is_profitable opp (min_profit_threshold (config_ e))
                then count_opportunity (on_opportunity_detected (clock i) opp e)
                else e)) as (Hg & Hi & Hq).
  rewrite Hg, Hi, Hq. destruct (is_profitable _ _); [|done].
  simpl. apply on_opportunity_detected_frame.
Qed.

Section Diagonal.
Context {libm : Libm}.

Lemma step_graph_inv n c e :
  call_distinct_sides c = true → graph_inv n e → graph_inv n (step c e).2.
Proof.
  intros Hc Hinv.
  destruct c as [| |t0 t1 x s b a v| |now clock|cb]; simpl.
  - by apply (graph_inv_frame n e).
  - by apply (graph_inv_frame n e).
  - (* update_price *)
    unfold update_price. simpl.
    destruct (tick_queue_ e) as [q|] eqn:Hqe; simpl;
      [|by apply (graph_inv_frame n e)].
    unfold try_enqueue. destruct (_ <? _); simpl;
      [|by apply (graph_inv_frame n e)].
    destruct Hinv as (Hok & Hsz & Hdiag & Hq).
    split_and!; try done.
    intros q' [= <-]. simpl. apply Forall_app. split; [by apply Hq|].
    by apply Forall_singleton.
  - (* process_market_data *)
    unfold process_market_data_step.
    destruct (running_ e); [|done].
    destruct (tick_queue_ e) as [q|] eqn:Hqe; [|done].
    unfold try_dequeue. destruct (items q) as [|tick rest] eqn:Hitems; [done|].
    destruct Hinv as (Hok & Hsz & Hdiag & Hq).
    specialize (Hq q Hqe). rewrite Hitems in Hq. apply Forall_cons in Hq as [Htick Hrest].
    set (e1 := set_tick_queue _ e).
    destruct (update_price_graph_frame tick e1) as (Hok' & Hsz' & Hq' & _).
    split_and!.
    + by apply Hok'.
    + simpl. by rewrite Hsz'.
    + by apply update_price_graph_diagonal.
    + simpl. rewrite Hq'. simpl. by intros q' [= <-].
  - (* detect_arbitrage_opportunities *)
    unfold detect_arbitrage_opportunities_step.
    destruct (running_ e); [|done].
    destruct (process_opportunities_frame clock (find_negative_cycles now e) e)
      as (Hg' & Hi' & Hq').
    by apply (graph_inv_frame n e).
  - by apply (graph_inv_frame n e).
Qed.

Lemma run_graph_inv n cs e :
  forallb call_distinct_sides cs = true → graph_inv n e → graph_inv n (run cs e).2.
Proof.
  revert e. induction cs as [|c cs IH]; intros e Hcs Hinv; simpl; [done|].
  simpl in Hcs. apply andb_true_iff in Hcs as [Hc Hcs].
  pose proof (step_graph_inv n c e Hc Hinv) as Hinv'.
  destruct (step c e) as [r e']. specialize (IH e' Hcs Hinv').
  by destruct (run cs e') as [rs e''].
Qed.

(** The symbol index stays well formed along every execution. *)
Lemma run_index_ok cs e :
  index_ok (currency_indices_ e) → index_ok (currency_indices_ (run cs e).2).
Proof.
  revert e. induction cs as [|c cs IH]; intros e Hok; simpl; [done|].
  assert (index_ok (currency_indices_ (step c e).2)) as Hok'.
  { destruct c as [| |t0 t1 x s b a v| |now clock|cb]; simpl; try done.
    - unfold update_price. simpl.
      destruct (tick_queue_ e) as [q|]; simpl; [|done].
      by destruct (try_enqueue _ q).
    - unfold process_market_data_step.
      destruct (running_ e); [|done].
      destruct (tick_queue_ e) as [q|]; [|done].
      destruct (try_dequeue q) as [[tick q']|]; [|done].
      simpl. by apply update_price_graph_frame.
    - unfold detect_arbitrage_opportunities_step.
      destruct (running_ e); [|done].
      destruct (process_opportunities_frame clock (find_negative_cycles now e) e)
        as (_ & -> & _). done. }
  destruct (step c e) as [r e']. specialize (IH e' Hok').
  by destruct (run cs e') as [rs e''].
Qed.

(** The search goes through every source whose diagonal entry is zero. *)
Lemma find_negative_cycles_unguarded now e :
  diagonal_zero (price_graph_ e) →
  find_negative_cycles now e
  = fold_left
      (λ opportunities src,
         check_negative_cycles now e (bellman_ford (price_graph_ e) src) opportunities)
      (seq 0 (size_ (price_graph_ e))) [].
Proof.
  intros Hdiag. unfold find_negative_cycles.
  assert (Forall (λ src, src < size_ (price_graph_ e)) (seq 0 (size_ (price_graph_ e))))
    as Hall.
  { apply Forall_forall. intros src Hsrc. apply elem_of_seq in Hsrc. lia. }
  revert Hall. generalize (seq 0 (size_ (price_graph_ e))).
  generalize (@nil ArbitrageOpportunity).
  intros opps l. revert opps.
  induction l as [|src l IH]; intros opps Hall; simpl; [done|].
  apply Forall_cons in Hall as [Hsrc Hall].
  rewrite (Hdiag src Hsrc). simpl. by apply IH.
Qed.

(** C5, the code against the claim.  The diagonal does not tell the observed
    nodes from the others.  On the engine as constructed no node has been
    interned, and yet the diagonal entry of every node is 0, not infinity: the
    constructor zeroes the whole diagonal.  Interning a node
    ([get_currency_index]) does not write the graph.  Along any execution
    whose ticks have two different currencies every diagonal entry stays 0, so
    the test [price_graph_[src][src] != 0.0] by which [find_negative_cycles]
    means to skip the inactive currencies is false for every node, and the
    search is run from each of the [MAX_EXCHANGES * MAX_SYMBOLS] sources. *)
Theorem inactive_sources_are_searched
    (cs : list Call) (cap : nat) (config : Config) (now0 now : Z) (u : nat) :
  forallb call_distinct_sides cs = true →
  u < MAX_EXCHANGES * MAX_SYMBOLS →
  let e0 := engine_with_queue (Some {| capacity := cap; items := [] |}) config now0 in
  let e := (run cs e0).2 in
  currency_indices_ e0 = ∅ ∧ currency_names_ e0 = ∅
  ∧ cell (price_graph_ e0) u u = 0%float
  ∧ (∀ currency x e', price_graph_ (get_currency_index currency x e').2 = price_graph_ e')
  ∧ cell (price_graph_ e) u u = 0%float
  ∧ negb (cell (price_graph_ e) u u =? 0)%float = false
  ∧ find_negative_cycles now e
    = fold_left
        (λ opportunities src,
           check_negative_cycles now e (bellman_ford (price_graph_ e) src) opportunities)
        (seq 0 (MAX_EXCHANGES * MAX_SYMBOLS)) [].
Proof.
  intros Hcs Hu e0 e.
  assert (graph_inv (MAX_EXCHANGES * MAX_SYMBOLS) e0) as Hinv.
  { split_and!.
    - apply index_ok_empty.
    - done.
    - intros v _. simpl. by rewrite Nat.eqb_refl.
    - intros q [= <-]. simpl. constructor. }
  destruct (run_graph_inv _ cs e0 Hcs Hinv) as (_ & Hsz & Hdiag & _).
  fold e in Hsz, Hdiag.
  assert (cell (price_graph_ e) u u = 0%float) as Hu0 by (apply Hdiag; by rewrite Hsz).
  split_and!.
  - done.
  - done.
  - simpl. by rewrite Nat.eqb_refl.
  - intros currency x e'.
    by destruct (get_currency_index_spec currency x e') as (_ & _ & _ & Hg & _).
  - done.
  - by rewrite Hu0.
  - rewrite <- Hsz. by apply find_negative_cycles_unguarded.
Qed.

End Diagonal.

Lemma inactive_sources_are_searched_witness :
  let cs := [CStart;
             CUpdatePrice 10 12 BINANCE "A/B" 2%float 3%float 1%float;
             CProcess;
             CUpdatePrice 20 22 BINANCE "B/C" 3%float 4%float 1%float;
             CProcess] in
  let e := (run (libm := ref_libm) cs
              (engine_with_queue (Some {| capacity := 8; items := [] |}) default_config 0)).2 in
  size (currency_indices_ e) = 3
  ∧ currency_names_ e !! 3 = None
  ∧ cell (price_graph_ e) 3 3 = 0%float
  ∧ negb (cell (price_graph_ e) 3 3 =? 0)%float = false.
Proof.
  intros cs e.
  destruct (inactive_sources_are_searched (libm := ref_libm) cs 8 default_config 0 1000 3
              eq_refl ltac:(vm_compute; lia))
    as (_ & _ & _ & _ & Hcell & Htest & _).
  split_and!; [vm_compute; reflexivity | vm_compute; reflexivity | exact Hcell | exact Htest].
Defined.

(** ** Comparisons of doubles *)

(** A double above some threshold that is not [<= 0] is above zero (it is not
    a NaN, for which all three comparisons are false). *)
Lemma above_zero_of_not_le (t p : float) :
  (t <? p)%float = true → (p <=? 0)%float = false → (0 <? p)%float = true.
Proof.
  rewrite !FloatAxioms.ltb_spec, FloatAxioms.leb_spec.
  change (Prim2SF 0%float) with (S754_zero false).
  unfold SFltb, SFleb.
  destruct (Prim2SF p) as [s|s| |s m ex], (Prim2SF t) as [s'|s'| |s' m' ex'];
    simpl; try done; by destruct s.
Qed.

(** ** The walk along the parents *)

Lemma elem_of_unvisited parent visited (c : Z) :
  c ∈ unvisited parent visited ↔ (0 ≤ c < Z.of_nat (length parent))%Z ∧ c ∉ visited.
Proof.
  unfold unvisited. rewrite elem_of_difference, elem_of_list_to_set, list_elem_of_fmap.
  split.
  - intros [(i & -> & Hi) Hv]. apply elem_of_seq in Hi. split; [lia | done].
  - intros [Hc Hv]. split; [|done]. exists (Z.to_nat c). split; [lia|].
    apply elem_of_seq. lia.
Qed.

Lemma parent_at_outside parent (c : Z) :
  ¬ (0 ≤ c < Z.of_nat (length parent))%Z → parent_at parent c = (-1)%Z.
Proof.
  intros Hout. unfold parent_at.
  destruct (Z.ltb_spec c 0); [done|].
  rewrite lookup_ge_None_2; [done | lia].
Qed.

(** The walk ends within [fuel] steps once [fuel] exceeds the number of
    unvisited nodes by two. *)
Lemma trace_back_enough fuel parent current visited cycle :
  size (unvisited parent visited) + 2 ≤ fuel →
  is_Some (trace_back fuel parent current visited cycle).
Proof.
  revert current visited cycle.
  induction fuel as [|fuel IH]; intros current visited cycle Hfuel; [lia|].
  simpl. destruct (negb (current =? -1)%Z && bool_decide (current ∉ visited)) eqn:Hgo;
    [|by eexists].
  apply andb_true_iff in Hgo as [Hne Hnew]. apply bool_decide_eq_true in Hnew.
  destruct (decide (0 ≤ current < Z.of_nat (length parent))%Z) as [Hin|Hout].
  - apply IH.
    assert (unvisited parent ({[current]} ∪ visited) ⊂ unvisited parent visited) as Hsub.
    { split.
      - intros c. rewrite !elem_of_unvisited. intros [Hr Hn]. split; [done|].
        intros Hv. apply Hn, elem_of_union. by right.
      - intros Hsup. specialize (Hsup current).
        rewrite !elem_of_unvisited in Hsup.
        destruct (Hsup (conj Hin Hnew)) as [_ Hn].
        apply Hn, elem_of_union. left. by apply elem_of_singleton. }
    apply subset_size in Hsub. lia.
  - rewrite parent_at_outside by done.
    destruct fuel as [|fuel]; [lia|]. simpl. by eexists.
Qed.

(** The loop of [extract_arbitrage_cycle] terminates: the walk of
    [arbitrage_path] never runs out of fuel. *)
Lemma trace_back_total parent cycle_node :
  is_Some (trace_back (length parent + 2) parent cycle_node ∅ []).
Proof.
  apply trace_back_enough.
  assert (size (unvisited parent ∅) ≤ length parent); [|lia].
  unfold unvisited. rewrite difference_empty_L.
  rewrite size_list_to_set.
  - by rewrite length_fmap, length_seq.
  - apply (NoDup_fmap_2 _). apply NoDup_seq.
Qed.

(** What the walk returns: it extends [cycle] by a chain that starts at
    [current]; the node it stops at is -1 or on the walk. *)
Lemma trace_back_spec fuel parent current visited cycle cur' cycle' :
  trace_back fuel parent current visited cycle = Some (cur', cycle') →
  (∀ c, c ∈ visited ↔ c ∈ cycle) →
  parent_chain parent cycle →
  (∀ a, last cycle = Some a → current = parent_at parent a) →
  (cur' = (-1)%Z ∨ cur' ∈ cycle')
  ∧ parent_chain parent cycle'
  ∧ (∀ a, last cycle' = Some a → cur' = parent_at parent a)
  ∧ (cycle' = [] → cur' = current)
  ∧ length cycle ≤ length cycle'.
Proof.
  revert current visited cycle.
  induction fuel as [|fuel IH]; intros current visited cycle; simpl; [done|].
  destruct (negb (current =? -1)%Z && bool_decide (current ∉ visited)) eqn:Hgo.
  - intros Hrun Hvis Hchain Hlast.
    apply IH in Hrun.
    + destruct Hrun as (Hend & Hchain' & Hlast' & Hnil & Hlen).
      split_and!; try done.
      * intros ->. rewrite length_app in Hlen. simpl in Hlen. lia.
      * rewrite length_app in Hlen. simpl in Hlen. lia.
    + intros c. rewrite elem_of_union, elem_of_singleton, elem_of_app, list_elem_of_singleton.
      rewrite Hvis. tauto.
    + intros i a b Ha Hb.
      destruct (decide (S i < length cycle)) as [Hlt|Hge].
      * rewrite lookup_app_l in Ha by lia. rewrite lookup_app_l in Hb by lia.
        by eapply Hchain.
      * assert (S i = length cycle) as Hi.
        { apply lookup_lt_Some in Hb. rewrite length_app in Hb. simpl in Hb. lia. }
        rewrite lookup_app_l in Ha by lia.
        rewrite lookup_app_r in Hb by lia. rewrite Hi, Nat.sub_diag in Hb.
        injection Hb as <-. apply Hlast.
        rewrite last_lookup. rewrite <- Hi. simpl. done.
    + intros a. rewrite last_snoc. by intros [= <-].
  - intros [= <- <-] Hvis Hchain Hlast.
    split_and!; try done.
    apply andb_false_iff in Hgo as [Hm|Hv].
    + left. apply negb_false_iff, Z.eqb_eq in Hm. done.
    + right. apply bool_decide_eq_false in Hv. apply Hvis. by apply dec_stable.
Qed.

Lemma range_from_spec x cycle c :
  range_from x cycle = Some c →
  ∃ pre rest, cycle = pre ++ c ∧ c = x :: rest.
Proof.
  induction cycle as [|y cycle IH]; simpl; [done|].
  destruct (Z.eqb_spec y x) as [->|Hne].
  - intros [= <-]. by exists [], cycle.
  - intros Hc. destruct (IH Hc) as (pre & rest & -> & ->).
    by exists (y :: pre), rest.
Qed.

Lemma range_from_found x cycle : x ∈ cycle → is_Some (range_from x cycle).
Proof.
  induction cycle as [|y cycle IH]; simpl.
  - by intros ?%elem_of_nil.
  - destruct (Z.eqb_spec y x) as [->|Hne]; [by eexists|].
    intros [?|?]%elem_of_cons; [congruence | by apply IH].
Qed.

Lemma trace_back_start fuel parent cycle_node current cycle :
  trace_back fuel parent cycle_node ∅ [] = Some (current, cycle) →
  (current = (-1)%Z ∨ current ∈ cycle)
  ∧ parent_chain parent cycle
  ∧ (∀ a, last cycle = Some a → current = parent_at parent a).
Proof.
  intros Hrun. apply trace_back_spec in Hrun.
  - by destruct Hrun as (? & ? & ? & _).
  - intros c. split; intros Hc; [by apply elem_of_empty in Hc | by apply elem_of_nil in Hc].
  - by intros i a b Ha.
  - by intros a Ha.
Qed.

(** [arbitrage_path] rejects exactly the walks that end at -1 or have fewer
    than three nodes. *)
Lemma arbitrage_path_None cycle_node parent :
  arbitrage_path cycle_node parent = None ↔
  ∃ current cycle,
    trace_back (length parent + 2) parent cycle_node ∅ [] = Some (current, cycle)
    ∧ (current = (-1)%Z ∨ length cycle < 3).
Proof.
  unfold arbitrage_path.
  destruct (trace_back_total parent cycle_node) as [[current cycle] Hrun]. rewrite Hrun.
  destruct (Z.eqb_spec current (-1)) as [Hm|Hm]; simpl.
  - split; [|done]. intros _. exists current, cycle. auto.
  - destruct (Nat.ltb_spec (length cycle) 3) as [Hlen|Hlen].
    + split; [|done]. intros _. exists current, cycle. auto.
    + destruct (trace_back_start _ _ _ _ _ Hrun) as ([|Hin] & _); [done|].
      destruct (range_from_found _ _ Hin) as [c ->].
      split; [done|]. intros (cur' & cyc' & [= <- <-] & [|]); [done | lia].
Qed.

(** The path is a cycle of the parent relation: [parent[p[i+1]] = p[i]], and
    [parent[p[0]]] is the last node.  The edges summed by [total_log_return],
    from [p[i]] to [p[i+1]] and from the last node back to [p[0]], are the
    edges the relaxation recorded. *)
Lemma arbitrage_path_cycle cycle_node parent p :
  arbitrage_path cycle_node parent = Some p →
  p ≠ []
  ∧ ∀ i, i < length p →
      ∃ a b, p !! i = Some a ∧ p !! ((i + 1) `mod` length p) = Some b
             ∧ parent_at parent b = a.
Proof.
  unfold arbitrage_path.
  destruct (trace_back (length parent + 2) parent cycle_node ∅ [])
    as [[current cycle]|] eqn:Hrun; [|done].
  destruct ((current =? -1)%Z || (length cycle <? 3)); [done|].
  destruct (range_from current cycle) as [c|] eqn:Hc; [|done].
  intros [= <-].
  destruct (trace_back_start _ _ _ _ _ Hrun) as (_ & Hchain & Hlast).
  apply range_from_spec in Hc as (pre & rest & -> & ->).
  set (c := current :: rest) in *.
  assert (parent_chain parent c) as Hchain_c.
  { intros i a b Ha Hb. apply (Hchain (length pre + i)).
    - by rewrite lookup_app_r, Nat.add_comm, Nat.add_sub by lia.
    - replace (S (length pre + i)) with (length pre + S i) by lia.
      by rewrite lookup_app_r, Nat.add_comm, Nat.add_sub by lia. }
  assert (∀ a, last c = Some a → current = parent_at parent a) as Hlast_c.
  { intros a Ha. apply Hlast. rewrite last_app. by rewrite Ha. }
  rewrite rev_alt. fold (reverse c). split.
  - intros Hnil. apply (f_equal length) in Hnil. rewrite length_reverse in Hnil. done.
  - intros i. rewrite length_reverse. intros Hi.
    assert (0 < length c) as Hpos by (simpl; lia).
    destruct (decide (i + 1 < length c)) as [Hnext|Hwrap].
    + rewrite Nat.mod_small by done.
      rewrite !reverse_lookup by lia.
      destruct (lookup_lt_is_Some_2 c (length c - S i)) as [a Ha]; [lia|].
      destruct (lookup_lt_is_Some_2 c (length c - S (i + 1))) as [b Hb]; [lia|].
      exists a, b. split_and!; [done..|]. symmetry. apply (Hchain_c (length c - S (i + 1))); [done|].
      by replace (S (length c - S (i + 1))) with (length c - S i) by lia.
    + assert (i + 1 = length c) as Hi1 by lia.
      rewrite Hi1, Nat.Div0.mod_same.
      rewrite !reverse_lookup by lia.
      destruct (lookup_lt_is_Some_2 c (length c - 1)) as [b Hb]; [lia|].
      exists current, b. split_and!.
      * by replace (length c - S i) with 0 by lia.
      * done.
      * symmetry. apply Hlast_c. by rewrite last_lookup, <- Nat.sub_1_r.
Qed.

(** ** The parents of a Bellman-Ford run *)

Lemma fold_left_preserves {A B : Type} (P : A → Prop) (Q : B → Prop)
    (f : A → B → A) (l : list B) :
  (∀ a b, Q b → P a → P (f a b)) → Forall Q l → ∀ a, P a → P (fold_left f l a).
Proof.
  intros Hstep Hl. induction Hl as [|b l Hb Hl IH]; intros a Ha; simpl; [done|].
  apply IH. by apply Hstep.
Qed.

Lemma seq_below n : Forall (λ i, i < n) (seq 0 n).
Proof. apply Forall_forall. intros i Hi. apply elem_of_seq in Hi. lia. Qed.

(** The vectors keep their size, and every parent is -1 or a node index: the
    walk of [extract_arbitrage_cycle] reads [parent] inside its bounds. *)
Lemma bellman_ford_parent_range g src :
  let st := bellman_ford g src in
  length (bf_parent st) = size_ g
  ∧ length (bf_dist st) = size_ g
  ∧ Forall (λ x, (-1 ≤ x < Z.of_nat (size_ g))%Z) (bf_parent st).
Proof.
  set (P := λ st : BFState,
         length (bf_parent st) = size_ g
         ∧ length (bf_dist st) = size_ g
         ∧ Forall (λ x, (-1 ≤ x < Z.of_nat (size_ g))%Z) (bf_parent st)).
  assert (∀ u v st, u < size_ g → P st → P (relax_edge g u v st)) as Hedge.
  { intros u v st Hu (Hlp & Hld & Hall). unfold relax_edge.
    destruct (negb _); [|done]. destruct (_ <? _)%float; [|done].
    split_and!; simpl.
    - by rewrite length_insert.
    - by rewrite length_insert.
    - apply Forall_insert; [done | lia]. }
  assert (∀ u st, u < size_ g → P st → P (relax_from g u st)) as Hfrom.
  { intros u st Hu Hst. unfold relax_from.
    destruct (_ =? _)%float; [done|].
    apply (fold_left_preserves P (λ _, True)); [|by apply Forall_true|done].
    intros a b _. by apply Hedge. }
  assert (∀ st, P st → P (relax_pass g st)) as Hpass.
  { intros st Hst. unfold relax_pass.
    apply (fold_left_preserves P (λ u, u < size_ g)); [|apply seq_below|done].
    intros a b Hb. by apply Hfrom. }
  assert (∀ passes st, P st → P (relax_loop g passes st)) as Hloop.
  { induction passes as [|k IH]; intros st Hst; simpl; [done|].
    destruct (bf_updated (relax_pass g st)); [apply IH|]; by apply Hpass. }
  apply Hloop. split_and!; simpl.
  - by rewrite length_replicate.
  - by rewrite length_insert, length_replicate.
  - apply Forall_replicate. lia.
Qed.

(** ** What the publisher reads and writes *)

Lemma same_publisher_trans e1 e2 e3 :
  same_publisher e1 e2 → same_publisher e2 e3 → same_publisher e1 e3.
Proof.
  intros (?&?&?&?&?&?) (?&?&?&?&?&?). unfold same_publisher. split_and!; congruence.
Qed.

Lemma count_opportunity_publisher e : same_publisher (count_opportunity e) e.
Proof. done. Qed.

Lemma on_opportunity_detected_publisher now opp e1 e2 :
  same_publisher e1 e2 →
  same_publisher (on_opportunity_detected now opp e1) (on_opportunity_detected now opp e2).
Proof.
  intros (Hc & Hh & Hd & Hcb & Hla & Hn). unfold on_opportunity_detected.
  rewrite Hc, Hla, Hn.
  destruct (1 <=? _)%Z; simpl;
    destruct (max_opportunities_per_second (config_ e2) <=? _)%Z;
    unfold same_publisher; simpl; rewrite ?Hh, ?Hd, ?Hcb; done.
Qed.

(** ** The cycle search *)

Section Search.
Context {libm : Libm}.

(** Every opportunity the search returns was built by
    [extract_arbitrage_cycle] from the state of a Bellman-Ford run. *)
Lemma check_edge_elem now e st u v acc opp :
  opp ∈ check_edge now e st u v acc →
  opp ∈ acc
  ∨ extract_arbitrage_cycle now (Z.of_nat v) (bf_parent st) (bf_dist st) e = Some opp.
Proof.
  unfold check_edge.
  destruct (negb _); [|by left].
  destruct (_ <? _)%float; [|by left].
  destruct (extract_arbitrage_cycle _ _ _ _ _) as [o|]; [|by left].
  intros [?|Heq%list_elem_of_singleton]%elem_of_app; [by left | right; by subst].
Qed.

Lemma check_from_elem now e st u acc opp :
  opp ∈ check_from now e st u acc →
  opp ∈ acc
  ∨ ∃ v, v < size_ (price_graph_ e)
         ∧ extract_arbitrage_cycle now (Z.of_nat v) (bf_parent st) (bf_dist st) e = Some opp.
Proof.
  unfold check_from. destruct (_ =? _)%float; [by left|].
  assert (∀ l, (∀ v, v ∈ l → v < size_ (price_graph_ e)) →
            ∀ acc', opp ∈ fold_left (λ a v, check_edge now e st u v a) l acc' →
            opp ∈ acc' ∨ ∃ v, v < size_ (price_graph_ e)
              ∧ extract_arbitrage_cycle now (Z.of_nat v) (bf_parent st) (bf_dist st) e
                = Some opp) as Hfold.
  { induction l as [|v l IH]; intros Hl acc'; simpl; [by left|].
    intros Hin. apply IH in Hin as [Hin|Hex]; [|by right|].
    - apply check_edge_elem in Hin as [?|?]; [by left|].
      right. exists v. split; [|done]. apply Hl. by left.
    - intros w Hw. apply Hl. by right. }
  apply Hfold. intros v Hv. apply elem_of_seq in Hv. lia.
Qed.

Lemma check_negative_cycles_elem now e st acc opp :
  opp ∈ check_negative_cycles now e st acc →
  opp ∈ acc
  ∨ ∃ v, v < size_ (price_graph_ e)
         ∧ extract_arbitrage_cycle now (Z.of_nat v) (bf_parent st) (bf_dist st) e = Some opp.
Proof.
  unfold check_negative_cycles. generalize (seq 0 (size_ (price_graph_ e))). intros l.
  revert acc. induction l as [|u l IH]; intros acc; simpl; [by left|].
  intros Hin. apply IH in Hin as [Hin|Hex]; [|by right].
  by apply check_from_elem in Hin.
Qed.

Lemma find_negative_cycles_elem now e opp :
  opp ∈ find_negative_cycles now e →
  ∃ src v, src < size_ (price_graph_ e) ∧ v < size_ (price_graph_ e)
    ∧ (cell (price_graph_ e) src src =? 0)%float = true
    ∧ extract_arbitrage_cycle now (Z.of_nat v)
        (bf_parent (bellman_ford (price_graph_ e) src))
        (bf_dist (bellman_ford (price_graph_ e) src)) e = Some opp.
Proof.
  unfold find_negative_cycles.
  assert (∀ l, (∀ s, s ∈ l → s < size_ (price_graph_ e)) →
            ∀ acc, opp ∈ fold_left
                     (λ opportunities src,
                        if negb (cell (price_graph_ e) src src =? 0)%float then opportunities
                        else check_negative_cycles now e
                               (bellman_ford (price_graph_ e) src) opportunities) l acc →
            opp ∈ acc ∨ ∃ src v, src < size_ (price_graph_ e) ∧ v < size_ (price_graph_ e)
              ∧ (cell (price_graph_ e) src src =? 0)%float = true
              ∧ extract_arbitrage_cycle now (Z.of_nat v)
                  (bf_parent (bellman_ford (price_graph_ e) src))
                  (bf_dist (bellman_ford (price_graph_ e) src)) e = Some opp) as Hfold.
  { induction l as [|s l IH]; intros Hl acc; simpl; [by left|].
    intros Hin. apply IH in Hin as [Hin|Hex]; [|by right|].
    - destruct (cell (price_graph_ e) s s =? 0)%float eqn:Hlive; simpl in Hin; [|by left].
      apply check_negative_cycles_elem in Hin as [?|(v & Hv & Hex)]; [by left|].
      right. exists s, v. split_and!; try done. apply Hl. by left.
    - intros w Hw. apply Hl. by right. }
  intros Hin. apply Hfold in Hin as [Hin|Hex]; [by apply elem_of_nil in Hin | done |].
  intros s Hs. apply elem_of_seq in Hs. lia.
Qed.

(** C1 (as amended). Every opportunity the detection iteration hands to
    [on_opportunity_detected] has a [profit_percentage] above
    [min_profit_threshold] and above zero, and this [profit_percentage] is
    exactly the double [exp(-(sum of the edge weights around the extracted
    cycle)) - 1] the code computes, the cycle being a cycle of the parents of
    a Bellman-Ford run; a cycle whose recomputed profit is not above zero is
    not emitted.  (No absolute tolerance relates it to the product of the
    ratios: see [ratio_product_not_within_1e_9].) *)
Theorem emitted_opportunity_profit (now : Z) (e : Engine) (opp : ArbitrageOpportunity) :
  opp ∈ emitted_opportunities now e →
  (min_profit_threshold (config_ e) <? profit_percentage opp)%float = true
  ∧ (0 <? profit_percentage opp)%float = true
  ∧ (profit_percentage opp <=? 0)%float = false
  ∧ ∃ src v p,
      src < size_ (price_graph_ e) ∧ v < size_ (price_graph_ e)
      ∧ arbitrage_path (Z.of_nat v) (bf_parent (bellman_ford (price_graph_ e) src)) = Some p
      ∧ (∀ i, i < length p →
           ∃ a b, p !! i = Some a ∧ p !! ((i + 1) `mod` length p) = Some b
                  ∧ parent_at (bf_parent (bellman_ford (price_graph_ e) src)) b = a)
      ∧ profit_percentage opp
        = (std_exp (- total_log_return (price_graph_ e) p) - 1)%float.
Proof.
  unfold emitted_opportunities. rewrite list_elem_of_filter. intros [Hprof Hin].
  apply find_negative_cycles_elem in Hin as (src & v & Hsrc & Hv & _ & Hex).
  apply extract_arbitrage_cycle_Some in Hex as (p & Hp & Hpos & Heq & _).
  unfold is_profitable in Hprof. rewrite <- Heq in Hpos.
  split_and!; [done | by eapply above_zero_of_not_le | done |].
  exists src, v, p. split_and!; try done.
  by apply arbitrage_path_cycle in Hp as [_ Hcycle].
Qed.

Arguments is_profitable : simpl never.

Lemma process_fold_emitted (clock : nat → Z) (thr : float)
    (l : list (nat * ArbitrageOpportunity)) (e1 e2 : Engine) :
  same_publisher e1 e2 → min_profit_threshold (config_ e1) = thr →
  ∃ times : list Z,
    length times = length (filter (λ opp, is_profitable opp thr = true) l.*2)
    ∧ same_publisher
        (fold_left
           (λ e' (iopp : nat * ArbitrageOpportunity),
              if is_profitable iopp.2 (min_profit_threshold (config_ e'))
              then count_opportunity (on_opportunity_detected (clock iopp.1) iopp.2 e')
              else e') l e1)
        (publish (zip times (filter (λ opp, is_profitable opp thr = true) l.*2)) e2).
Proof.
  revert e1 e2. induction l as [|[i opp] l IH]; intros e1 e2 Hsame Hthr; simpl.
  - by exists [].
  - rewrite Hthr. rewrite filter_cons. simpl.
    destruct (is_profitable opp thr) eqn:Hp.
    + rewrite decide_True by done.
      destruct (IH (count_opportunity (on_opportunity_detected (clock i) opp e1))
                   (on_opportunity_detected (clock i) opp e2)) as (times & Hlen & Hpub).
      * eapply same_publisher_trans; [apply count_opportunity_publisher|].
        by apply on_opportunity_detected_publisher.
      * simpl. by rewrite on_opportunity_detected_config.
      * exists (clock i :: times). simpl. split; [by rewrite Hlen | done].
    + rewrite decide_False by done. by apply IH.
Qed.

Lemma imap_pair_snd (opps : list ArbitrageOpportunity) : (imap pair opps).*2 = opps.
Proof.
  assert (∀ (f : nat → nat) (l : list ArbitrageOpportunity),
            (imap (λ i x, (f i, x)) l).*2 = l) as Hf.
  { intros f l. revert f. induction l as [|x l IH]; intros f; simpl; [done|].
    f_equal. apply (IH (f ∘ S)). }
  apply (Hf id).
Qed.

(** The loop of [detect_arbitrage_opportunities] calls
    [on_opportunity_detected] for these opportunities and no other, in order:
    what it stores and delivers is what publishing them does. *)
Lemma process_opportunities_emitted clock opps e :
  ∃ times : list Z,
    let emitted :=
      filter (λ opp, is_profitable opp (min_profit_threshold (config_ e)) = true) opps in
    length times = length emitted
    ∧ same_publisher (process_opportunities clock opps e) (publish (zip times emitted) e).
Proof.
  destruct (process_fold_emitted clock (min_profit_threshold (config_ e))
              (imap pair opps) e e) as (times & Hlen & Hpub); [done..|].
  rewrite imap_pair_snd in Hlen, Hpub. by exists times.
Qed.

End Search.

(** Each opportunity handed to [on_opportunity_detected] is counted once in
    [opportunities_found] (a [uint64_t]). *)
Lemma process_opportunities_found clock opps e :
  (0 ≤ opportunities_found (stats_ e) < 2 ^ 64)%Z →
  opportunities_found (stats_ (process_opportunities clock opps e))
  = ((opportunities_found (stats_ e)
      + Z.of_nat (length (filter (λ opp, is_profitable opp (min_profit_threshold (config_ e)) = true)
                            opps))) `mod` 2 ^ 64)%Z.
Proof.
  unfold process_opportunities. rewrite <- (imap_pair_snd opps) at 2.
  generalize (imap pair opps). intros l.
  assert (∀ e1, config_ e1 = config_ e →
            (0 ≤ opportunities_found (stats_ e1) < 2 ^ 64)%Z →
            opportunities_found
              (stats_ (fold_left
                 (λ e' (iopp : nat * ArbitrageOpportunity),
                    if is_profitable iopp.2 (min_profit_threshold (config_ e'))
                    then count_opportunity (on_opportunity_detected (clock iopp.1) iopp.2 e')
                    else e') l e1))
            = ((opportunities_found (stats_ e1)
                + Z.of_nat (length (filter
                     (λ opp, is_profitable opp (min_profit_threshold (config_ e)) = true) l.*2)))
               `mod` 2 ^ 64)%Z) as Hgen; [|by apply Hgen].
  induction l as [|[i opp] l IH]; intros e1 Hcfg Hrange; simpl.
  - by rewrite Z.add_0_r, Z.mod_small.
  - rewrite Hcfg, filter_cons. simpl.
    destruct (is_profitable opp (min_profit_threshold (config_ e))) eqn:Hp.
    + rewrite decide_True by done. rewrite IH.
      * simpl. rewrite on_opportunity_detected_stats.
        rewrite Zplus_mod_idemp_l. f_equal. rewrite Nat2Z.inj_succ. unfold fmap. lia.
      * simpl. by rewrite on_opportunity_detected_config.
      * simpl. by apply Z.mod_pos_bound.
    + rewrite decide_False by done. by apply IH.
Qed.

(** ** Evaluated scenarios *)

Lemma emitted_opportunity_profit_witness :
  path triangle_opportunity = "C_0 -> A_0 -> B_0"%string
  ∧ (0x1.0624dd2f1a9fcp-10 <? profit_percentage triangle_opportunity)%float = true
  ∧ (0 <? profit_percentage triangle_opportunity)%float = true.
Proof.
  assert (triangle_opportunity
          ∈ emitted_opportunities (libm := ref_libm) 1000
              (run (libm := ref_libm) triangle_ticks (small_engine 16)).2) as Hin.
  { vm_compute. apply list_elem_of_here. }
  destruct (emitted_opportunity_profit (libm := ref_libm) 1000 _ _ Hin) as (Hthr & Hpos & _).
  split_and!; [reflexivity | exact Hthr | exact Hpos].
Defined.

(** *** The product of the ratios *)

Lemma digits2_pos_bound (m : positive) : (Zpos m < 2 ^ Zpos (digits2_pos m))%Z.
Proof.
  induction m as [m IH|m IH|]; simpl digits2_pos.
  - rewrite Pos2Z.inj_succ, Z.pow_succ_r by lia. lia.
  - rewrite Pos2Z.inj_succ, Z.pow_succ_r by lia. lia.
  - done.
Qed.

(** The mantissa of a finite double has at most 53 bits. *)
Lemma finite_double_mantissa (f : float) s m e :
  Prim2SF f = S754_finite s m e → (Zpos m < 2 ^ 53)%Z.
Proof.
  intros Hf. pose proof (FloatAxioms.Prim2SF_valid f) as Hvalid.
  rewrite Hf in Hvalid. simpl in Hvalid.
  apply andb_true_iff in Hvalid as [Hcanon _].
  unfold canonical_mantissa, fexp in Hcanon. apply Z.eqb_eq in Hcanon.
  assert (Zpos (digits2_pos m) ≤ 53)%Z as Hd by (unfold FloatOps.prec in Hcanon; lia).
  pose proof (digits2_pos_bound m) as Hm.
  eapply Z.lt_le_trans; [exact Hm|]. apply Z.pow_le_mono_r; lia.
Qed.

(** No double [p] has [1 + p] within 1e-9 of 2^120: above 2^53 a double is an
    even integer, and [2^120 - 1] is odd. *)
Lemma no_double_completes_2_120 (p : float) (q : Q) :
  to_Q p = Some q →
  within_1e_9 (ratio_product [1099511627776 # 1; 1099511627776 # 1; 1099511627776 # 1])
    (1 + q) = false.
Proof.
  unfold to_Q. intros Hq.
  apply not_true_is_false. unfold within_1e_9. intros Hle.
  apply Qle_bool_iff in Hle.
  destruct (Prim2SF p) as [s|s| |s m e] eqn:Hp; simpl in Hq; try done.
  - injection Hq as <-. vm_compute in Hle. by apply Hle.
  - pose proof (finite_double_mantissa p s m e Hp) as Hm.
    injection Hq as <-.
    change (ratio_product _) with (1329227995784915872903807060280344576 # 1) in Hle.
    destruct e as [|e|e].
    + unfold Qle, Qabs, Qminus, Qplus, Qopp in Hle. cbn [Qnum Qden] in Hle.
      destruct s; lia.
    + assert (∃ k, (2 ^ Zpos e = 2 * k)%Z) as [k Hk].
      { exists (2 ^ (Zpos e - 1))%Z. rewrite <- Z.pow_succ_r by lia. f_equal. lia. }
      rewrite Hk in Hle.
      unfold Qle, Qabs, Qminus, Qplus, Qopp in Hle. cbn [Qnum Qden] in Hle.
      destruct s; lia.
    + unfold Qle, Qabs, Qminus, Qplus, Qopp in Hle. cbn [Qnum Qden] in Hle.
      destruct s; lia.
Qed.

(** C1, the claim as stated fails in its tolerance.  With bids of 2^40 on
    A/B, B/C and C/A the edges of the cycle C -> A -> B -> C hold
    [-log(2^40)], their conversion ratios are 2^40 each and the product is
    2^120.  The opportunity is emitted; its [profit_percentage] is a double
    near 1.3e36, and [1 + profit_percentage] is not within 1e-9 of the
    product, nor could it be for any other double. *)
Lemma ratio_product_not_within_1e_9 :
  let e := (run (libm := ref_libm) huge_triangle_ticks (small_engine 16)).2 in
  let ratios := [1099511627776 # 1; 1099511627776 # 1; 1099511627776 # 1] in
  (λ q, Qeq_bool q (1099511627776 # 1)) <$> to_Q 0x1p40%float = Some true
  ∧ cell (price_graph_ e) 2 0 = (- RefLibm.log 0x1p40)%float
  ∧ cell (price_graph_ e) 0 1 = (- RefLibm.log 0x1p40)%float
  ∧ cell (price_graph_ e) 1 2 = (- RefLibm.log 0x1p40)%float
  ∧ path <$> head (emitted_opportunities (libm := ref_libm) 1000 e)
    = Some "C_0 -> A_0 -> B_0"%string
  ∧ (λ opp, (λ q, within_1e_9 (ratio_product ratios) (1 + q)) <$> to_Q (profit_percentage opp))
      <$> head (emitted_opportunities (libm := ref_libm) 1000 e)
    = Some (Some false)
  ∧ ∀ (p : float) (q : Q), to_Q p = Some q →
      within_1e_9 (ratio_product ratios) (1 + q) = false.
Proof.
  split_and!; [vm_compute; reflexivity .. |].
  apply no_double_completes_2_120.
Qed.

(** C2, the code against the claim.  The walk from node 2 over the parents
    1, 0, 0 visits 2, 0 and 1 before it meets 0 again: it has three nodes and
    passes the test [cycle.size() < 3], but the cycle kept is 1, 0.  On the
    engine fed with [pair_with_tail_ticks] this cycle is profitable and
    [extract_arbitrage_cycle] returns an opportunity with a path of two nodes;
    a detection iteration (here on a graph of 16 rows) stores and delivers it. *)
Theorem two_node_cycle_is_emitted :
  let parent := parents (MAX_EXCHANGES * MAX_SYMBOLS) [1; 0; 0]%Z in
  let e := (run (libm := ref_libm) pair_with_tail_ticks
              (engine_with_queue (Some {| capacity := 8; items := [] |}) default_config 0)).2 in
  let e16 := (run (libm := ref_libm)
                (CRegister 1 :: pair_with_tail_ticks ++ [CDetect 1000 (λ _, 2000%Z)])
                (small_engine 16)).2 in
  trace_back (length parent + 2) parent 2 ∅ [] = Some (0%Z, [2; 0; 1]%Z)
  ∧ arbitrage_path 2 parent = Some [1; 0]%Z
  ∧ path <$> extract_arbitrage_cycle (libm := ref_libm) 1000 2 parent [] e
    = Some "B_0 -> A_0"%string
  ∧ bf_parent (bellman_ford (price_graph_ e16) 0) = parents 16 [1; 0; 0]%Z
  ∧ path <$> detected_opportunities_ e16
    = ["B_0 -> A_0"; "B_0 -> A_0"; "B_0 -> A_0"]%string
  ∧ (λ d, (d.1, path d.2)) <$> delivered e16
    = [(1, "B_0 -> A_0"); (1, "B_0 -> A_0"); (1, "B_0 -> A_0")]%string.
Proof. split_and!; vm_compute; reflexivity. Qed.

(** C3, the code against the claim.  For a path of three nodes, a log return
    of -0.7 and data of age zero the three terms are 50, 20 and 50 and
    [calculate_confidence] returns their sum, 120: nothing clips it at 100.
    On the engine fed with [triangle_ticks] the opportunity extracted from the
    parents 2, 0, 1 has confidence 110, and a detection iteration (here on a
    graph of 16 rows) stores opportunities with this confidence. *)
Theorem confidence_exceeds_100 :
  let e := (run (libm := ref_libm) triangle_ticks
              (engine_with_queue (Some {| capacity := 8; items := [] |}) default_config 0)).2 in
  let e16 := (run (libm := ref_libm) (triangle_ticks ++ [CDetect 1000 (λ _, 2000%Z)])
                (small_engine 16)).2 in
  calculate_confidence 1000 [2; 0; 1]%Z (-0x1.6666666666666p-1)%float e = 120%Z
  ∧ confidence <$> extract_arbitrage_cycle (libm := ref_libm) 1000 1
                     (parents (MAX_EXCHANGES * MAX_SYMBOLS) [2; 0; 1]%Z) [] e
    = Some 110%Z
  ∧ bf_parent (bellman_ford (price_graph_ e16) 0) = parents 16 [2; 0; 1]%Z
  ∧ confidence <$> detected_opportunities_ e16 = [110; 110; 110]%Z.
Proof. split_and!; vm_compute; reflexivity. Qed.

(** * Part IV: further properties of the engine *)

(** ** The symbol index: names, density, stability *)

Lemma get_currency_index_names_ok c x e :
  names_ok e → names_ok (get_currency_index c x e).2.
Proof.
  intros (Hok & Hinv & Hdense). unfold get_currency_index.
  destruct (currency_indices_ e !! currency_key c x) as [i|] eqn:Hk; simpl; [done|].
  split_and!; simpl.
  - by apply index_ok_insert.
  - intros k i. destruct (decide (currency_key c x = k)) as [<-|Hne].
    + rewrite lookup_insert_eq. split.
      * intros [= <-]. by rewrite lookup_insert_eq.
      * destruct (decide (size (currency_indices_ e) = i)) as [<-|Hni]; [done|].
        rewrite lookup_insert_ne by done. intros Hn. apply Hinv in Hn. congruence.
    + rewrite lookup_insert_ne by done.
      destruct (decide (size (currency_indices_ e) = i)) as [<-|Hni].
      * rewrite lookup_insert_eq. split.
        -- intros Hi. apply Hok in Hi. lia.
        -- intros [= ?]. done.
      * rewrite lookup_insert_ne by done. apply Hinv.
  - intros i. rewrite map_size_insert_None by done. intros Hi.
    destruct (decide (size (currency_indices_ e) = i)) as [<-|Hni].
    + rewrite lookup_insert_eq. by eexists.
    + rewrite lookup_insert_ne by done. apply Hdense. lia.
Qed.

Lemma names_ok_frame e e' :
  currency_indices_ e' = currency_indices_ e → currency_names_ e' = currency_names_ e →
  names_ok e → names_ok e'.
Proof. unfold names_ok. by intros -> ->. Qed.

Lemma on_opportunity_detected_index now opp e :
  currency_indices_ (on_opportunity_detected now opp e) = currency_indices_ e
  ∧ currency_names_ (on_opportunity_detected now opp e) = currency_names_ e.
Proof.
  unfold on_opportunity_detected.
  destruct (1 <=? _)%Z; simpl; by destruct (_ <=? _)%Z.
Qed.

Lemma process_opportunities_index clock opps e :
  currency_indices_ (process_opportunities clock opps e) = currency_indices_ e
  ∧ currency_names_ (process_opportunities clock opps e) = currency_names_ e.
Proof.
  unfold process_opportunities. generalize (imap pair opps). intros l.
  revert e. induction l as [|[i opp] l IH]; intros e; simpl; [done|].
  destruct (IH (if is_profitable opp (min_profit_threshold (config_ e))
                then count_opportunity (on_opportunity_detected (clock i) opp e)
                else e)) as (Hi & Hn).
  rewrite Hi, Hn. destruct (is_profitable _ _); [|done].
  simpl. apply on_opportunity_detected_index.
Qed.

Section IndexRuns.
Context {libm : Libm}.

(** What a tick does to the index: the two interning calls, whatever happens
    to the edges afterwards. *)
Lemma update_price_graph_index tick e :
  currency_indices_ (update_price_graph tick e)
  = match parse_symbol (symbol tick) with
    | None => currency_indices_ e
    | Some (base, quote) =>
        currency_indices_
          (get_currency_index quote (exchange_code (exchange tick))
             (get_currency_index base (exchange_code (exchange tick)) e).2).2
    end
  ∧ currency_names_ (update_price_graph tick e)
    = match parse_symbol (symbol tick) with
      | None => currency_names_ e
      | Some (base, quote) =>
          currency_names_
            (get_currency_index quote (exchange_code (exchange tick))
               (get_currency_index base (exchange_code (exchange tick)) e).2).2
      end.
Proof.
  unfold update_price_graph.
  destruct (parse_symbol _) as [[base quote]|]; [|done].
  destruct (get_currency_index base _ e) as [bi e1]. simpl.
  destruct (get_currency_index quote _ e1) as [qi e2]. simpl.
  destruct (_ || _); [done|].
  by destruct (0 <? bid tick)%float, (0 <? ask tick)%float.
Qed.

Lemma update_price_graph_names_ok tick e :
  names_ok e → names_ok (update_price_graph tick e).
Proof.
  intros Hok. destruct (update_price_graph_index tick e) as [Hi Hn].
  destruct (parse_symbol (symbol tick)) as [[base quote]|].
  - eapply names_ok_frame; [exact Hi | exact Hn |].
    by do 2 apply get_currency_index_names_ok.
  - by eapply names_ok_frame.
Qed.

Lemma step_index c e :
  (names_ok e → names_ok (step c e).2)
  ∧ (∀ k i, currency_indices_ e !! k = Some i → currency_indices_ (step c e).2 !! k = Some i).
Proof.
  destruct c as [| |t0 t1 x s b a v| |now clock|cb]; simpl; try done.
  - unfold update_price. simpl.
    destruct (tick_queue_ e) as [q|]; simpl; [|done].
    by destruct (try_enqueue _ q).
  - unfold process_market_data_step.
    destruct (running_ e); [|done].
    destruct (tick_queue_ e) as [q|]; [|done].
    destruct (try_dequeue q) as [[tick q']|]; [|done].
    simpl. split.
    + intros Hok. by apply update_price_graph_names_ok, (names_ok_frame e).
    + intros k i Hk. destruct (update_price_graph_index tick (set_tick_queue (Some q') e)) as [-> _].
      destruct (parse_symbol (symbol tick)) as [[base quote]|]; [|done].
      destruct (get_currency_index_spec quote (exchange_code (exchange tick))
                  (get_currency_index base (exchange_code (exchange tick))
                     (set_tick_queue (Some q') e)).2) as (_ & Hmono2 & _).
      destruct (get_currency_index_spec base (exchange_code (exchange tick))
                  (set_tick_queue (Some q') e)) as (_ & Hmono1 & _).
      by apply Hmono2, Hmono1.
  - unfold detect_arbitrage_opportunities_step.
    destruct (running_ e); [|done].
    destruct (process_opportunities_index clock (find_negative_cycles now e) e) as [Hi Hn].
    split.
    + by apply names_ok_frame.
    + intros k i. by rewrite Hi.
Qed.

Lemma run_names_ok cs e : names_ok e → names_ok (run cs e).2.
Proof.
  revert e. induction cs as [|c cs IH]; intros e Hok; simpl; [done|].
  pose proof (proj1 (step_index c e) Hok) as Hok'.
  destruct (step c e) as [r e']. specialize (IH e' Hok').
  by destruct (run cs e') as [rs e''].
Qed.

(** X1. In every state reached from construction the name table is the
    inverse of the index: [get_currency_name] of an assigned index is its key,
    of an index never assigned it is ["UNKNOWN"]; the assigned indices are
    exactly those below the number of keys; and the name of the index that
    [get_currency_index] returns is the key asked for. *)
Theorem currency_name_inverts_index
    (cs : list Call) (q : option TickQueue) (config : Config) (now : Z) :
  let e := (run cs (engine_with_queue q config now)).2 in
  (∀ k i, currency_indices_ e !! k = Some i → get_currency_name i e = k)
  ∧ (∀ i, (∀ k, currency_indices_ e !! k ≠ Some i) → get_currency_name i e = "UNKNOWN"%string)
  ∧ (∀ i, i < size (currency_indices_ e) ↔ ∃ k, currency_indices_ e !! k = Some i)
  ∧ (∀ c x, get_currency_name (get_currency_index c x e).1 (get_currency_index c x e).2
            = currency_key c x).
Proof.
  intros e.
  assert (names_ok e) as Hok.
  { apply run_names_ok. split_and!.
    - apply index_ok_empty.
    - intros k i. simpl. by rewrite !lookup_empty.
    - intros i. simpl. rewrite map_size_empty. lia. }
  assert (∀ e0 k i, names_ok e0 → currency_indices_ e0 !! k = Some i →
            get_currency_name i e0 = k) as Hname.
  { intros e0 k i (_ & Hinv & _) Hk. unfold get_currency_name.
    apply Hinv in Hk. by rewrite Hk. }
  split_and!.
  - intros k i. by apply Hname.
  - intros i Hnone. unfold get_currency_name.
    destruct Hok as (_ & Hinv & _).
    destruct (currency_names_ e !! i) as [k|] eqn:Hn; [|done].
    apply Hinv in Hn. by destruct (Hnone k).
  - intros i. destruct Hok as ((Hlt & _) & Hinv & Hdense). split.
    + intros Hi. destruct (Hdense i Hi) as [k Hk]. exists k. by apply Hinv.
    + intros [k Hk]. by eapply Hlt.
  - intros c x. apply Hname.
    + by apply get_currency_index_names_ok.
    + by destruct (get_currency_index_spec c x e) as (Hk & _).
Qed.

(** X2. Indices are never reassigned: a key that has an index keeps it along
    every execution. *)
Theorem currency_index_is_stable (cs : list Call) (e : Engine) (k : string) (i : nat) :
  currency_indices_ e !! k = Some i →
  currency_indices_ (run cs e).2 !! k = Some i.
Proof.
  revert e. induction cs as [|c cs IH]; intros e Hk; simpl; [done|].
  pose proof (proj2 (step_index c e) k i Hk) as Hk'.
  destruct (step c e) as [r e']. specialize (IH e' Hk').
  by destruct (run cs e') as [rs e''].
Qed.

End IndexRuns.

Lemma currency_key_venue_inj c x1 x2 : currency_key c x1 = currency_key c x2 → x1 = x2.
Proof.
  unfold currency_key, Str.to_string. intros Heq.
  apply (inj (String.app c)) in Heq. apply (inj (String.app "_")) in Heq.
  by apply (inj pretty) in Heq.
Qed.

(** X3. A node is one currency on one venue: in a well-formed index (as in
    every state reached from construction) the same currency on two venues,
    and two currencies on the same venue, never share a node. *)
Theorem nodes_separate_venues_and_currencies
    (m : gmap string nat) (c1 c2 : string) (x1 x2 i1 i2 : nat) :
  index_ok m →
  m !! currency_key c1 x1 = Some i1 → m !! currency_key c2 x2 = Some i2 →
  (c1 = c2 ∧ x1 ≠ x2) ∨ (c1 ≠ c2 ∧ x1 = x2) →
  i1 ≠ i2.
Proof.
  intros [_ Hinj] H1 H2 Hcases ->.
  pose proof (Hinj _ _ _ H1 H2) as Hkey.
  destruct Hcases as [[-> Hx]|[Hc ->]].
  - by apply Hx, (currency_key_venue_inj c2).
  - by apply Hc, (currency_key_inj _ _ x2).
Qed.

Lemma currency_index_is_stable_witness :
  let e := (run (libm := ref_libm) two_venue_ticks (small_engine 16)).2 in
  currency_indices_ e !! "B_0"%string = Some 1
  ∧ currency_indices_ (run (libm := ref_libm) triangle_ticks e).2 !! "B_0"%string = Some 1.
Proof.
  intros e.
  assert (currency_indices_ e !! "B_0"%string = Some 1) as Hk by (vm_compute; reflexivity).
  split; [exact Hk|].
  exact (currency_index_is_stable (libm := ref_libm) triangle_ticks e "B_0" 1 Hk).
Defined.

Lemma nodes_separate_venues_and_currencies_witness :
  let m := currency_indices_ (run (libm := ref_libm) two_venue_ticks (small_engine 16)).2 in
  m !! currency_key "A" 0 = Some 0 ∧ m !! currency_key "A" 2 = Some 2 ∧ 0 ≠ 2.
Proof.
  intros m.
  assert (index_ok m) as Hok by (apply run_index_ok, index_ok_empty).
  assert (m !! currency_key "A" 0 = Some 0) as H0 by (vm_compute; reflexivity).
  assert (m !! currency_key "A" 2 = Some 2) as H2 by (vm_compute; reflexivity).
  split_and!; [exact H0 | exact H2 |].
  exact (nodes_separate_venues_and_currencies m "A" "A" 0 2 0 2 Hok H0 H2
           (or_introl (conj eq_refl (Nat.neq_0_succ 1)))).
Defined.

(** ** The graph updater: which entries a tick writes *)

Lemma get_currency_index_found c x e i :
  currency_indices_ e !! currency_key c x = Some i → get_currency_index c x e = (i, e).
Proof. unfold get_currency_index. by intros ->. Qed.

Section UpdaterCells.
Context {libm : Libm}.

(** The graph after a tick, entry by entry. *)
Lemma update_price_graph_cells tick e base quote :
  parse_symbol (symbol tick) = Some (base, quote) →
  let r1 := get_currency_index base (exchange_code (exchange tick)) e in
  let r2 := get_currency_index quote (exchange_code (exchange tick)) r1.2 in
  let n := size_ (price_graph_ e) in
  size_ (price_graph_ (update_price_graph tick e)) = n
  ∧ currency_indices_ (update_price_graph tick e) = currency_indices_ r2.2
  ∧ currency_names_ (update_price_graph tick e) = currency_names_ r2.2
  ∧ currency_indices_ r2.2 !! currency_key base (exchange_code (exchange tick)) = Some r1.1
  ∧ currency_indices_ r2.2 !! currency_key quote (exchange_code (exchange tick)) = Some r2.1
  ∧ ∀ a b,
      cell (price_graph_ (update_price_graph tick e)) a b
      = if (n <=? r1.1) || (n <=? r2.1) then cell (price_graph_ e) a b
        else if (0 <? ask tick)%float && ((a =? r2.1) && (b =? r1.1))
             then (- std_log (1 / ask tick))%float
        else if (0 <? bid tick)%float && ((a =? r1.1) && (b =? r2.1))
             then (- std_log (bid tick))%float
        else cell (price_graph_ e) a b.
Proof.
  intros Hparse r1 r2 n.
  destruct (update_price_graph_index tick e) as [Hi Hn]. rewrite Hparse in Hi, Hn.
  destruct (get_currency_index_spec base (exchange_code (exchange tick)) e)
    as (Hb & _ & _ & Hg1 & _).
  destruct (get_currency_index_spec quote (exchange_code (exchange tick)) r1.2)
    as (Hq & Hmono & _ & Hg2 & _).
  fold r1 in Hb, Hg1. fold r2 in Hq, Hg2, Hmono.
  assert (price_graph_ r2.2 = price_graph_ e) as Hg by congruence.
  split_and!; [|done|done|by apply Hmono|done|].
  - destruct (update_price_graph_frame tick e) as (_ & Hsz & _). done.
  - intros a b. unfold update_price_graph. rewrite Hparse.
    fold r1. destruct r1 as [bi e1] eqn:Hr1. simpl in *.
    fold r2. destruct r2 as [qi e2] eqn:Hr2. simpl in *.
    rewrite Hg. fold n.
    destruct ((n <=? bi) || (n <=? qi)); [by rewrite Hg|].
    destruct (0 <? bid tick)%float, (0 <? ask tick)%float; simpl; rewrite ?Hg;
      repeat (destruct (_ =? _)); simpl; done.
Qed.

(** X4. A tick writes at most its two edges.  Every other entry keeps its
    value; an edge whose price is not above zero (zero, negative or NaN) is
    not written either, and a tick with neither price above zero leaves the
    whole graph as it was. *)
Theorem tick_writes_only_its_edges
    (tick : MarketTick) (e : Engine) (base quote : string) (bi qi : nat) :
  parse_symbol (symbol tick) = Some (base, quote) →
  currency_indices_ (update_price_graph tick e)
    !! currency_key base (exchange_code (exchange tick)) = Some bi →
  currency_indices_ (update_price_graph tick e)
    !! currency_key quote (exchange_code (exchange tick)) = Some qi →
  let g := price_graph_ e in
  let g' := price_graph_ (update_price_graph tick e) in
  (∀ a b, (a, b) ≠ (bi, qi) → (a, b) ≠ (qi, bi) → cell g' a b = cell g a b)
  ∧ ((0 <? bid tick)%float = false → bi ≠ qi → cell g' bi qi = cell g bi qi)
  ∧ ((0 <? ask tick)%float = false → bi ≠ qi → cell g' qi bi = cell g qi bi)
  ∧ ((0 <? bid tick)%float = false → (0 <? ask tick)%float = false →
     ∀ a b, cell g' a b = cell g a b).
Proof.
  intros Hparse Hb Hq g g'.
  destruct (update_price_graph_cells tick e base quote Hparse)
    as (_ & Hi & _ & Hb' & Hq' & Hcells).
  rewrite Hi in Hb, Hq. rewrite Hb' in Hb. rewrite Hq' in Hq.
  injection Hb as Hb. injection Hq as Hq. rewrite Hb, Hq in Hcells.
  subst g g'. split_and!.
  - intros a b Hn1 Hn2. rewrite Hcells.
    destruct (_ || _); [done|].
    destruct (Nat.eqb_spec a qi), (Nat.eqb_spec b bi),
      (Nat.eqb_spec a bi), (Nat.eqb_spec b qi);
      simpl; rewrite ?andb_false_r; simpl; try done; try congruence.
    all: by destruct (0 <? ask tick)%float, (0 <? bid tick)%float.
  - intros Hbid Hne. rewrite Hcells, Hbid.
    destruct (_ || _); [done|].
    destruct (Nat.eqb_spec bi qi) as [?|_]; [done|].
    simpl. by rewrite !andb_false_r.
  - intros Hask Hne. rewrite Hcells, Hask.
    destruct (_ || _); [done|].
    destruct (Nat.eqb_spec qi bi) as [?|_]; [done|].
    simpl. by rewrite !andb_false_r.
  - intros Hbid Hask a b. rewrite Hcells, Hbid, Hask.
    by destruct (_ || _).
Qed.


(** X6. Applying the same tick twice leaves the engine as after the first
    application: the same index and names, and the same graph entry by
    entry. *)
Theorem update_price_graph_idempotent (tick : MarketTick) (e : Engine) :
  let e1 := update_price_graph tick e in
  let e2 := update_price_graph tick e1 in
  currency_indices_ e2 = currency_indices_ e1
  ∧ currency_names_ e2 = currency_names_ e1
  ∧ size_ (price_graph_ e2) = size_ (price_graph_ e1)
  ∧ ∀ a b, cell (price_graph_ e2) a b = cell (price_graph_ e1) a b.
Proof.
  intros e1 e2. subst e2.
  destruct (parse_symbol (symbol tick)) as [[base quote]|] eqn:Hparse.
  - destruct (update_price_graph_cells tick e base quote Hparse)
      as (Hsz & Hi & Hn & Hb & Hq & Hcells).
    fold e1 in Hsz, Hi, Hn, Hcells. rewrite <- Hi in Hb, Hq.
    destruct (update_price_graph_cells tick e1 base quote Hparse)
      as (Hsz' & Hi' & Hn' & _ & _ & Hcells').
    rewrite (get_currency_index_found base _ e1 _ Hb) in Hi', Hn', Hcells'.
    simpl in Hi', Hn', Hcells'.
    rewrite (get_currency_index_found quote _ e1 _ Hq) in Hi', Hn', Hcells'.
    simpl in Hi', Hn', Hcells'.
    split_and!; [done..|].
    intros a b. rewrite Hcells'. rewrite Hsz. rewrite !Hcells.
    destruct (_ || _); [done|].
    destruct ((0 <? ask tick)%float && _); [done|].
    by destruct ((0 <? bid tick)%float && _).
  - unfold e1, update_price_graph. by rewrite !Hparse.
Qed.

End UpdaterCells.

Lemma tick_writes_only_its_edges_witness :
  let e := small_engine 4 in
  let e' := update_price_graph (libm := ref_libm) one_sided_tick e in
  cell (price_graph_ e') 0 1 = cell (price_graph_ e) 0 1
  ∧ cell (price_graph_ e') 2 3 = cell (price_graph_ e) 2 3.
Proof.
  intros e e'.
  destruct (tick_writes_only_its_edges (libm := ref_libm) one_sided_tick e "A" "B" 0 1
              eq_refl ltac:(vm_compute; reflexivity) ltac:(vm_compute; reflexivity))
    as (Hother & Hbid & _).
  split.
  - apply Hbid; [reflexivity | lia].
  - apply Hother; discriminate.
Defined.


(** ** The ingress: what [update_price] stores *)

Lemma strncpy_length n s : String.length (Str.strncpy n s) ≤ n.
Proof.
  revert s. induction n as [|n IH]; intros [|a s]; simpl; try lia.
  destruct (Ascii.eqb a "000"); simpl; [lia|]. specialize (IH s). lia.
Qed.

Lemma strncpy_prefix n s : ∃ rest, s = Str.strncpy n s +:+ rest.
Proof.
  revert s. induction n as [|n IH]; intros [|a s]; simpl; try by eexists.
  destruct (Ascii.eqb a "000"); simpl; [by eexists|].
  destruct (IH s) as [rest Hrest]. exists rest.
  change (String a s = String a (Str.strncpy n s +:+ rest)). by f_equal.
Qed.

Lemma strncpy_lacks_nul n s : Str.lacks "000" (Str.strncpy n s).
Proof.
  revert s. induction n as [|n IH]; intros [|a s]; simpl; try by intros [|i].
  destruct (Ascii.eqb_spec a "000") as [|Hne]; [by intros [|i]|].
  by apply StrFacts.lacks_cons.
Qed.

Lemma strncpy_id n s :
  String.length s ≤ n → Str.lacks "000" s → Str.strncpy n s = s.
Proof.
  revert s. induction n as [|n IH]; intros [|a s]; simpl; try done; try lia.
  intros Hlen Hl. apply StrFacts.lacks_tail in Hl as [Hne Hl].
  destruct (Ascii.eqb_spec a "000") as [|_]; [done|].
  f_equal. apply IH; [lia | done].
Qed.

(** [update_price] as a case distinction on the queue. *)
Lemma update_price_cases t0 t1 x s b a v e :
  let tick := tick_of t0 x s b a v (sequence_counter_ e) in
  let r := update_price t0 t1 x s b a v e in
  sequence_counter_ r.2 = ((sequence_counter_ e + 1) `mod` 2 ^ 64)%Z
  ∧ same_market r.2 e ∧ same_publication r.2 e
  ∧ running_ r.2 = running_ e ∧ last_update_time_ r.2 = last_update_time_ e
  ∧ config_ r.2 = config_ e
  ∧ ((r.1 = true
      ∧ ∃ q, tick_queue_ e = Some q ∧ length (items q) < capacity q
             ∧ tick_queue_ r.2
               = Some {| capacity := capacity q; items := items q ++ [tick] |})
     ∨ (r.1 = false ∧ tick_queue_ r.2 = tick_queue_ e
        ∧ ∀ q, tick_queue_ e = Some q → capacity q ≤ length (items q))).
Proof.
  intros tick r. subst r. unfold update_price. fold tick. simpl.
  destruct (tick_queue_ e) as [q|] eqn:Hq; simpl.
  - unfold try_enqueue.
    destruct (Nat.ltb_spec (length (items q)) (capacity q)); simpl.
    + split_and!; try done. left. split; [done|]. by exists q.
    + split_and!; try done. right. split_and!; try done.
      by intros ? [= <-].
  - split_and!; try done. right. by split_and!.
Qed.

(** X7. An accepted tick is appended to the queue, stamped with the first
    clock reading and with the sequence number before the increment.  Its
    symbol is the argument cut to its first 15 characters (and at a NUL):
    never longer than 15, always a prefix of the argument, and the argument
    itself when that has at most 15 characters and no NUL. *)
Theorem accepted_tick_is_enqueued
    (t0 t1 : Z) (x : Exchange) (s : string) (b a v : float) (e e' : Engine) :
  update_price t0 t1 x s b a v e = (true, e') →
  ∃ q tick,
    tick_queue_ e = Some q
    ∧ tick_queue_ e' = Some {| capacity := capacity q; items := items q ++ [tick] |}
    ∧ exchange tick = x ∧ bid tick = b ∧ ask tick = a ∧ volume tick = v
    ∧ timestamp tick = t0 ∧ sequence tick = sequence_counter_ e
    ∧ String.length (symbol tick) ≤ 15
    ∧ Str.lacks "000" (symbol tick)
    ∧ (∃ rest, s = symbol tick +:+ rest)
    ∧ (String.length s ≤ 15 → Str.lacks "000" s → symbol tick = s).
Proof.
  intros Hup.
  destruct (update_price_cases t0 t1 x s b a v e)
    as (_ & _ & _ & _ & _ & _ & [[_ (q & Hq & _ & Hq')]|[Hr _]]);
    rewrite Hup in *; simpl in *; [|done].
  exists q, (tick_of t0 x s b a v (sequence_counter_ e)).
  split_and!; try done.
  - exact (strncpy_length 15 s).
  - exact (strncpy_lacks_nul 15 s).
  - exact (strncpy_prefix 15 s).
  - exact (strncpy_id 15 s).
Qed.

Lemma accepted_tick_is_enqueued_witness :
  ∃ q tick,
    tick_queue_ (small_engine 4) = Some q
    ∧ tick_queue_ (update_price 7 9 KRAKEN "VERYLONGBASECOIN/USDT" 2 3 1 (small_engine 4)).2
      = Some {| capacity := capacity q; items := items q ++ [tick] |}
    ∧ exchange tick = KRAKEN ∧ bid tick = 2%float ∧ ask tick = 3%float
    ∧ volume tick = 1%float
    ∧ timestamp tick = 7%Z ∧ sequence tick = 0%Z
    ∧ String.length (symbol tick) ≤ 15
    ∧ Str.lacks "000" (symbol tick)
    ∧ (∃ rest, "VERYLONGBASECOIN/USDT" = symbol tick +:+ rest)
    ∧ (String.length "VERYLONGBASECOIN/USDT" ≤ 15 → Str.lacks "000" "VERYLONGBASECOIN/USDT"
       → symbol tick = "VERYLONGBASECOIN/USDT").
Proof.
  apply (accepted_tick_is_enqueued 7 9 KRAKEN "VERYLONGBASECOIN/USDT" 2 3 1
           (small_engine 4) _ eq_refl).
Defined.

(** ** What each part of the engine leaves alone *)

Lemma same_market_refl e : same_market e e.
Proof. done. Qed.

Lemma same_market_trans e1 e2 e3 :
  same_market e1 e2 → same_market e2 e3 → same_market e1 e3.
Proof. intros (? & ? & ?) (? & ? & ?). split_and!; congruence. Qed.

Lemma same_market_sym e1 e2 : same_market e1 e2 → same_market e2 e1.
Proof. intros (? & ? & ?). by split_and!. Qed.

Lemma same_ingress_trans e1 e2 e3 :
  same_ingress e1 e2 → same_ingress e2 e3 → same_ingress e1 e3.
Proof. intros (? & ? & ? & ?) (? & ? & ? & ?). split_and!; congruence. Qed.

Lemma same_publication_trans e1 e2 e3 :
  same_publication e1 e2 → same_publication e2 e3 → same_publication e1 e3.
Proof. intros (? & ? & ? & ? & ?) (? & ? & ? & ? & ?). split_and!; congruence. Qed.

Lemma get_currency_index_keeps c x e :
  let e' := (get_currency_index c x e).2 in
  same_ingress e' e ∧ same_publication e' e
  ∧ last_update_time_ e' = last_update_time_ e.
Proof. unfold get_currency_index. by destruct (currency_indices_ e !! _). Qed.

Section Frames.
Context {libm : Libm}.

Lemma update_price_graph_keeps tick e :
  let e' := update_price_graph tick e in
  same_ingress e' e ∧ same_publication e' e
  ∧ last_update_time_ e' = last_update_time_ e.
Proof.
  unfold update_price_graph.
  destruct (parse_symbol _) as [[base quote]|]; [|done].
  destruct (get_currency_index_keeps base (exchange_code (exchange tick)) e)
    as (Hi1 & Hp1 & Ht1).
  destruct (get_currency_index base _ e) as [bi e1]. simpl in *.
  destruct (get_currency_index_keeps quote (exchange_code (exchange tick)) e1)
    as (Hi2 & Hp2 & Ht2).
  destruct (get_currency_index quote _ e1) as [qi e2]. simpl in *.
  assert (same_ingress e2 e) as Hi by (by eapply same_ingress_trans).
  assert (same_publication e2 e) as Hp by (by eapply same_publication_trans).
  assert (last_update_time_ e2 = last_update_time_ e) as Ht by congruence.
  destruct (_ || _); [done|].
  destruct (0 <? bid tick)%float, (0 <? ask tick)%float; done.
Qed.

Lemma get_currency_index_same_market c x e1 e2 :
  same_market e1 e2 →
  (get_currency_index c x e1).1 = (get_currency_index c x e2).1
  ∧ same_market (get_currency_index c x e1).2 (get_currency_index c x e2).2.
Proof.
  intros (Hi & Hn & Hg). unfold get_currency_index. rewrite Hi.
  destruct (currency_indices_ e2 !! _); simpl; [done|].
  unfold same_market. simpl. by rewrite Hn, Hg.
Qed.

(** The updater reads nothing but the index, the names and the graph. *)
Lemma update_price_graph_same_market tick e1 e2 :
  same_market e1 e2 →
  same_market (update_price_graph tick e1) (update_price_graph tick e2).
Proof.
  intros Hm. unfold update_price_graph.
  destruct (parse_symbol _) as [[base quote]|]; [|done].
  destruct (get_currency_index_same_market base (exchange_code (exchange tick)) e1 e2 Hm)
    as [Hb Hm1].
  destruct (get_currency_index base _ e1) as [bi a1].
  destruct (get_currency_index base _ e2) as [bi' a2]. simpl in Hb, Hm1. subst bi'.
  destruct (get_currency_index_same_market quote (exchange_code (exchange tick)) a1 a2 Hm1)
    as [Hq Hm2].
  destruct (get_currency_index quote _ a1) as [qi b1].
  destruct (get_currency_index quote _ a2) as [qi' b2]. simpl in Hq, Hm2. subst qi'.
  destruct Hm2 as (Hi & Hn & Hg). rewrite Hg.
  destruct (_ || _); [done|].
  destruct (0 <? bid tick)%float, (0 <? ask tick)%float; simpl;
    unfold same_market; simpl; rewrite ?Hg; done.
Qed.

Lemma apply_ticks_same_market ts e1 e2 :
  same_market e1 e2 → same_market (apply_ticks ts e1) (apply_ticks ts e2).
Proof.
  revert e1 e2. induction ts as [|t ts IH]; intros e1 e2 H; simpl; [done|].
  apply IH. by apply update_price_graph_same_market.
Qed.

Lemma on_opportunity_detected_keeps now opp e :
  let e' := on_opportunity_detected now opp e in
  same_ingress e' e ∧ same_market e' e
  ∧ last_update_time_ e' = last_update_time_ e ∧ callbacks_ e' = callbacks_ e.
Proof.
  unfold on_opportunity_detected.
  destruct (1 <=? _)%Z; simpl; by destruct (_ <=? _)%Z.
Qed.

Lemma process_opportunities_keeps clock opps e :
  let e' := process_opportunities clock opps e in
  same_ingress e' e ∧ same_market e' e
  ∧ last_update_time_ e' = last_update_time_ e ∧ callbacks_ e' = callbacks_ e.
Proof.
  unfold process_opportunities. generalize (imap pair opps). intros l.
  revert e. induction l as [|[i opp] l IH]; intros e; simpl; [done|].
  destruct (IH (if is_profitable opp (min_profit_threshold (config_ e))
                then count_opportunity (on_opportunity_detected (clock i) opp e)
                else e)) as (Hi & Hm & Ht & Hc).
  destruct (is_profitable _ _); [|done].
  destruct (on_opportunity_detected_keeps (clock i) opp e) as (Hi' & Hm' & Ht' & Hc').
  split_and!.
  - eapply same_ingress_trans; [exact Hi|]. exact Hi'.
  - eapply same_market_trans; [exact Hm|]. exact Hm'.
  - rewrite Ht. exact Ht'.
  - rewrite Hc. exact Hc'.
Qed.

(** ** Sequence numbers *)

Lemma step_sequence c e :
  sequence_counter_ (step c e).2
  = match (step c e).1 with
    | Some _ => ((sequence_counter_ e + 1) `mod` 2 ^ 64)%Z
    | None => sequence_counter_ e
    end.
Proof.
  destruct c as [| |t0 t1 x s b a v| |now clock|cb]; simpl; try done.
  - destruct (update_price_cases t0 t1 x s b a v e) as (Hs & _).
    by destruct (update_price t0 t1 x s b a v e).
  - unfold process_market_data_step.
    destruct (running_ e); [|done].
    destruct (tick_queue_ e) as [q|]; [|done].
    destruct (try_dequeue q) as [[tick q']|]; [|done]. simpl.
    by destruct (update_price_graph_keeps tick (set_tick_queue (Some q') e))
      as ((_ & -> & _) & _).
  - unfold detect_arbitrage_opportunities_step.
    destruct (running_ e); [|done].
    by destruct (process_opportunities_keeps clock (find_negative_cycles now e) e)
      as ((_ & -> & _) & _).
Qed.

(** X8. The sequence counter counts every call of [update_price], accepted
    or rejected, and nothing else moves it: after any execution it is the
    initial value plus the number of calls, modulo 2^64. *)
Theorem sequence_counts_every_call (cs : list Call) (e : Engine) :
  (0 ≤ sequence_counter_ e < 2 ^ 64)%Z →
  sequence_counter_ (run cs e).2
  = ((sequence_counter_ e + Z.of_nat (length (run cs e).1)) `mod` 2 ^ 64)%Z.
Proof.
  revert e. induction cs as [|c cs IH]; intros e Hr; simpl.
  - rewrite Z.add_0_r, Z.mod_small; done.
  - pose proof (step_sequence c e) as Hs.
    destruct (step c e) as [r e1]. simpl in Hs.
    specialize (IH e1).
    destruct (run cs e1) as [rs e2]. simpl in *.
    destruct r as [b|]; simpl.
    + rewrite IH by (rewrite Hs; apply Z.mod_pos_bound; lia).
      rewrite Hs, Zplus_mod_idemp_l. f_equal. lia.
    + rewrite Hs in IH. by apply IH.
Qed.

End Frames.

Lemma sequence_counts_every_call_witness :
  sequence_counter_ (run (libm := ref_libm) stopped_calls (small_engine 4)).2 = 2%Z.
Proof.
  rewrite (sequence_counts_every_call (libm := ref_libm) stopped_calls (small_engine 4))
    by (simpl; lia).
  vm_compute. reflexivity.
Defined.

Section Drain.
Context {libm : Libm}.

(** ** The consumer of the queue *)

Lemma process_market_data_step_pending tick rest e q :
  running_ e = true → tick_queue_ e = Some q → items q = tick :: rest →
  let e' := process_market_data_step e in
  same_market e' (update_price_graph tick e)
  ∧ running_ e' = true
  ∧ tick_queue_ e' = Some {| capacity := capacity q; items := rest |}
  ∧ last_update_time_ e' = timestamp tick.
Proof.
  intros Hrun Hq Hitems. unfold process_market_data_step, try_dequeue.
  rewrite Hrun, Hq, Hitems. simpl.
  set (e0 := set_tick_queue _ e).
  destruct (update_price_graph_keeps tick e0) as ((Hr & _ & Hqq & _) & _).
  split_and!; [|by rewrite Hr|by rewrite Hqq|done].
  assert (same_market (update_price_graph tick e0) (update_price_graph tick e)) as Hm
    by (by apply update_price_graph_same_market).
  destruct Hm as (? & ? & ?). by split_and!.
Qed.

Lemma process_market_data_step_idle e q :
  tick_queue_ e = Some q → items q = [] → process_market_data_step e = e.
Proof.
  intros Hq Hitems. unfold process_market_data_step, try_dequeue.
  rewrite Hq, Hitems. by destruct (running_ e).
Qed.

(** X9. The pending ticks reach the graph in the order they were accepted:
    on a running engine, as many processing steps as there are ticks in the
    queue leave the index, the names and the graph as the updater leaves
    them when it is applied to the ticks first to last; the queue is then
    empty, the time of the last update is the last tick's time stamp, and a
    further step changes nothing. *)
Theorem queue_is_drained_in_order (e : Engine) (q : TickQueue) :
  running_ e = true →
  tick_queue_ e = Some q →
  let e' := Nat.iter (length (items q)) process_market_data_step e in
  same_market e' (apply_ticks (items q) e)
  ∧ tick_queue_ e' = Some {| capacity := capacity q; items := [] |}
  ∧ last_update_time_ e' = default (last_update_time_ e) (timestamp <$> last (items q))
  ∧ process_market_data_step e' = e'.
Proof.
  remember (items q) as ts eqn:Hts. revert e q Hts.
  induction ts as [|t ts IH]; intros e q Hts Hrun Hq; simpl.
  - split_and!; [done| |done|by apply (process_market_data_step_idle e q)].
    rewrite Hq. destruct q as [c its]. simpl in *. by subst.
  - change (process_market_data_step (Nat.iter (length ts) process_market_data_step e))
      with (Nat.iter (S (length ts)) process_market_data_step e).
    rewrite Nat.iter_succ_r.
    destruct (process_market_data_step_pending t ts e q Hrun Hq (eq_sym Hts))
      as (Hm & Hrun1 & Hq1 & Ht1).
    destruct (IH (process_market_data_step e) {| capacity := capacity q; items := ts |}
                eq_refl Hrun1 Hq1) as (Hm' & Hq' & Ht' & Hidle).
    split_and!; [|done| |done].
    + eapply same_market_trans; [exact Hm'|].
      by apply apply_ticks_same_market.
    + rewrite Ht', Ht1. simpl.
      destruct ts as [|t' ts']; [done|].
      change (last (t :: t' :: ts')) with (last (t' :: ts')).
      destruct (last_is_Some (t' :: ts')) as [_ [t'' Hl]]; [done|].
      by rewrite Hl.
Qed.

(** ** A stopped engine *)

Lemma update_price_found t0 t1 x s b a v e :
  opportunities_found (stats_ (update_price t0 t1 x s b a v e).2)
  = opportunities_found (stats_ e).
Proof.
  unfold update_price. destruct (tick_queue_ _) as [q|]; [|done].
  destruct (try_enqueue _ q); [|done]. simpl.
  unfold update_latency. simpl. by repeat case_match.
Qed.

(** X10. An engine that is not running and is not started accepts ticks but
    never acts on them: whatever calls are made, the index, the names, the
    graph, the history, the deliveries, the time of the last update and the
    count of opportunities stay as they were, and the engine stays stopped. *)
Theorem stopped_engine_processes_nothing (cs : list Call) (e : Engine) :
  running_ e = false →
  Forall (λ c, c ≠ CStart) cs →
  let e' := (run cs e).2 in
  running_ e' = false
  ∧ same_market e' e
  ∧ detected_opportunities_ e' = detected_opportunities_ e
  ∧ delivered e' = delivered e
  ∧ last_update_time_ e' = last_update_time_ e
  ∧ opportunities_found (stats_ e') = opportunities_found (stats_ e).
Proof.
  intros Hrun Hcs. revert e Hrun.
  induction Hcs as [|c cs Hc _ IH]; intros e Hrun; simpl; [done|].
  assert (running_ (step c e).2 = false
          ∧ same_market (step c e).2 e
          ∧ detected_opportunities_ (step c e).2 = detected_opportunities_ e
          ∧ delivered (step c e).2 = delivered e
          ∧ last_update_time_ (step c e).2 = last_update_time_ e
          ∧ opportunities_found (stats_ (step c e).2) = opportunities_found (stats_ e))
    as (Hr1 & Hm1 & Hh1 & Hd1 & Ht1 & Hf1).
  { destruct c as [| |t0 t1 x s b a v| |now clock|cb]; simpl; try done.
    - destruct (update_price_cases t0 t1 x s b a v e)
        as (_ & Hm & (Hh & Hd & _) & Hr & Ht & _).
      pose proof (update_price_found t0 t1 x s b a v e) as Hf.
      destruct (update_price t0 t1 x s b a v e) as [r e1]. simpl in *.
      split_and!; congruence || done.
    - unfold process_market_data_step. by rewrite Hrun.
    - unfold detect_arbitrage_opportunities_step. by rewrite Hrun. }
  destruct (step c e) as [r e1]. simpl in *.
  specialize (IH e1 Hr1). destruct (run cs e1) as [rs e2]. simpl in *.
  destruct IH as (Hr2 & Hm2 & Hh2 & Hd2 & Ht2 & Hf2).
  split_and!; [done| |congruence..].
  by eapply same_market_trans.
Qed.

End Drain.

Lemma queue_is_drained_in_order_witness :
  let e' := Nat.iter (length (items three_ticks_queue))
              (process_market_data_step (libm := ref_libm)) three_ticks_engine in
  same_market e' (apply_ticks (libm := ref_libm) (items three_ticks_queue) three_ticks_engine)
  ∧ tick_queue_ e' = Some {| capacity := capacity three_ticks_queue; items := [] |}
  ∧ last_update_time_ e'
    = default (last_update_time_ three_ticks_engine)
        (timestamp <$> last (items three_ticks_queue))
  ∧ process_market_data_step (libm := ref_libm) e' = e'.
Proof.
  exact (queue_is_drained_in_order (libm := ref_libm) three_ticks_engine three_ticks_queue
           eq_refl eq_refl).
Defined.

Lemma stopped_engine_processes_nothing_witness :
  let e' := (run (libm := ref_libm) stopped_calls (small_engine 4)).2 in
  running_ e' = false
  ∧ same_market e' (small_engine 4)
  ∧ detected_opportunities_ e' = []
  ∧ delivered e' = []
  ∧ last_update_time_ e' = 0%Z
  ∧ opportunities_found (stats_ e') = 0%Z.
Proof.
  apply (stopped_engine_processes_nothing (libm := ref_libm) stopped_calls (small_engine 4)
           eq_refl).
  repeat constructor; discriminate.
Defined.

(** ** The publisher along an execution *)

Lemma same_publication_refl e : same_publication e e.
Proof. done. Qed.

Lemma tail_length {A} (l : list A) : length (tail l) = length l - 1.
Proof. destruct l; simpl; lia. Qed.

Section PublisherRuns.
Context {libm : Libm}.

Lemma run_invariant (P : Engine → Prop) :
  (∀ c e, P e → P (step c e).2) → ∀ cs e, P e → P (run cs e).2.
Proof.
  intros Hstep cs. induction cs as [|c cs IH]; intros e HP; simpl; [done|].
  specialize (Hstep c e HP). destruct (step c e) as [r e1]. simpl in *.
  specialize (IH e1 Hstep). by destruct (run cs e1).
Qed.

Lemma process_opportunities_invariant (P : Engine → Prop) clock opps e :
  (∀ e1 e2, same_publication e2 e1 → P e1 → P e2) →
  (∀ now opp e1, P e1 → P (on_opportunity_detected now opp e1)) →
  P e → P (process_opportunities clock opps e).
Proof.
  intros Hread Hpub. unfold process_opportunities. generalize (imap pair opps).
  intros l. revert e. induction l as [|[i opp] l IH]; intros e HP; simpl; [done|].
  apply IH. destruct (is_profitable _ _); [|done].
  apply (Hread (on_opportunity_detected (clock i) opp e)); [done|]. by apply Hpub.
Qed.

(** A property of the publisher's fields that publishing and registering
    keep holds after every call. *)
Lemma step_publication_invariant (P : Engine → Prop) :
  (∀ e1 e2, same_publication e2 e1 → P e1 → P e2) →
  (∀ now opp e, P e → P (on_opportunity_detected now opp e)) →
  (∀ cb e, P e → P (register_opportunity_callback cb e)) →
  ∀ c e, P e → P (step c e).2.
Proof.
  intros Hread Hpub Hreg c e HP.
  destruct c as [| |t0 t1 x s b a v| |now clock|cb]; simpl.
  - by apply (Hread e).
  - by apply (Hread e).
  - destruct (update_price_cases t0 t1 x s b a v e) as (_ & _ & Hp & _).
    destruct (update_price t0 t1 x s b a v e) as [r e1]. simpl in *.
    by apply (Hread e).
  - unfold process_market_data_step.
    destruct (running_ e); [|done].
    destruct (tick_queue_ e) as [q|]; [|done].
    destruct (try_dequeue q) as [[tick q']|]; [|done].
    destruct (update_price_graph_keeps tick (set_tick_queue (Some q') e)) as (_ & Hp & _).
    by apply (Hread e).
  - unfold detect_arbitrage_opportunities_step.
    destruct (running_ e); [|done].
    by apply process_opportunities_invariant.
  - by apply Hreg.
Qed.

(** X11. The history never holds more than 1000 opportunities: the bound is
    kept by every call of an execution. *)
Theorem history_never_exceeds_1000 (cs : list Call) (e : Engine) :
  length (detected_opportunities_ e) ≤ 1000 →
  length (detected_opportunities_ (run cs e).2) ≤ 1000.
Proof.
  apply (run_invariant (λ e, length (detected_opportunities_ e) ≤ 1000)).
  apply step_publication_invariant.
  - intros e1 e2 (Hh & _). by rewrite Hh.
  - intros now opp e1 Hlen. unfold on_opportunity_detected.
    destruct (1 <=? _)%Z; simpl; destruct (_ <=? _)%Z; simpl; try done.
    all: destruct (Nat.ltb_spec 1000 (length (detected_opportunities_ e1 ++ [opp])));
      [rewrite tail_length, length_app; simpl; lia | lia].
  - done.
Qed.

(** X12. Callbacks and deliveries are only ever appended to: after an
    execution the callbacks and the deliveries of the start are a prefix of
    the final ones; and when every delivery so far went to a registered
    callback, so does every later one. *)
Theorem deliveries_reach_registered_callbacks (cs : list Call) (e : Engine) :
  delivered_to_registered e →
  let e' := (run cs e).2 in
  callbacks_ e `prefix_of` callbacks_ e'
  ∧ delivered e `prefix_of` delivered e'
  ∧ delivered_to_registered e'.
Proof.
  intros Hreg.
  apply (run_invariant
           (λ e', callbacks_ e `prefix_of` callbacks_ e'
                  ∧ delivered e `prefix_of` delivered e'
                  ∧ delivered_to_registered e')); [|done].
  clear Hreg. apply step_publication_invariant.
  - intros e1 e2 (_ & Hd & Hc & _) (H1 & H2 & H3). unfold delivered_to_registered.
    by rewrite Hd, Hc.
  - intros now opp e1 (H1 & H2 & H3). unfold on_opportunity_detected, delivered_to_registered.
    destruct (1 <=? _)%Z; simpl; destruct (_ <=? _)%Z; simpl; try done.
    all: split_and!; [done | by apply prefix_app_r |].
    all: intros s o [Hin|Hin]%elem_of_app; [by apply (H3 s o)|].
    all: apply list_elem_of_fmap in Hin as (s' & [= -> ->] & Hin); done.
  - intros cb e1 (H1 & H2 & H3). unfold register_opportunity_callback, delivered_to_registered.
    simpl. split_and!; [by apply prefix_app_r | done |].
    intros s o Hin. apply elem_of_app. left. by apply (H3 s o).
Qed.

End PublisherRuns.

Lemma history_never_exceeds_1000_witness :
  length (detected_opportunities_
            (run (libm := ref_libm) triangle_detection (small_engine 16)).2) ≤ 1000.
Proof.
  apply (history_never_exceeds_1000 triangle_detection (small_engine 16)).
  simpl. lia.
Defined.

Lemma deliveries_reach_registered_callbacks_witness :
  let e' := (run (libm := ref_libm) triangle_detection (small_engine 16)).2 in
  callbacks_ (small_engine 16) `prefix_of` callbacks_ e'
  ∧ delivered (small_engine 16) `prefix_of` delivered e'
  ∧ delivered_to_registered e'.
Proof.
  apply (deliveries_reach_registered_callbacks triangle_detection (small_engine 16)).
  intros s o Hin. simpl in Hin. by apply elem_of_nil in Hin.
Defined.

(** ** Reading the history *)

(** X13. [get_recent_opportunities] returns the newest entries in their
    order: a suffix of the history of length [min limit n], the whole
    history when the limit is not below its length. *)
Theorem recent_opportunities_are_a_suffix (limit : nat) (e : Engine) :
  let r := get_recent_opportunities limit e in
  r `suffix_of` detected_opportunities_ e
  ∧ length r = limit `min` length (detected_opportunities_ e)
  ∧ (length (detected_opportunities_ e) ≤ limit → r = detected_opportunities_ e).
Proof.
  unfold get_recent_opportunities. simpl. split_and!.
  - apply suffix_drop.
  - rewrite length_drop. destruct (Nat.ltb_spec limit (length (detected_opportunities_ e))); lia.
  - intros Hle. destruct (Nat.ltb_spec limit (length (detected_opportunities_ e))); [lia|done].
Qed.

(** X14. An opportunity that passes the limiter is the newest entry of the
    history: a reader asking for at least one entry gets it last, and the
    entries before it are the earlier history, less its oldest entry when it
    already held 1000. *)
Theorem admitted_opportunity_is_newest
    (now : Z) (opp : ArbitrageOpportunity) (limit : nat) (e : Engine) :
  admitted now e = true →
  0 < limit →
  let e' := on_opportunity_detected now opp e in
  last (get_recent_opportunities limit e') = Some opp
  ∧ detected_opportunities_ e'
    = (if 1000 <=? length (detected_opportunities_ e)
       then drop 1 (detected_opportunities_ e) else detected_opportunities_ e) ++ [opp].
Proof.
  intros Hadm Hlimit e'.
  destruct (on_opportunity_detected_admitted now opp e Hadm) as (Hh & _).
  fold e' in Hh.
  assert (detected_opportunities_ e'
          = (if 1000 <=? length (detected_opportunities_ e)
             then drop 1 (detected_opportunities_ e) else detected_opportunities_ e) ++ [opp])
    as Heq.
  { rewrite Hh, length_app. simpl length.
    destruct (Nat.ltb_spec 1000 (length (detected_opportunities_ e) + 1)),
      (Nat.leb_spec 1000 (length (detected_opportunities_ e))); try lia; [|done].
    destruct (detected_opportunities_ e) as [|o h]; [simpl in *; lia|].
    simpl. by rewrite drop_0. }
  split; [|done].
  unfold get_recent_opportunities. rewrite Heq.
  set (h := if _ <=? _ then _ else _).
  set (k := if _ <? _ then _ else _).
  assert (k ≤ length h) as Hk.
  { subst k. rewrite length_app. simpl.
    destruct (Nat.ltb_spec limit (length h + 1)); lia. }
  rewrite drop_app_le by done. apply last_snoc.
Qed.

Lemma admitted_opportunity_is_newest_witness :
  let e' := on_opportunity_detected 5 (sample_opportunity 5) (small_engine 4) in
  last (get_recent_opportunities 10 e') = Some (sample_opportunity 5)
  ∧ detected_opportunities_ e' = [sample_opportunity 5].
Proof.
  apply (admitted_opportunity_is_newest 5 (sample_opportunity 5) 10 (small_engine 4)
           eq_refl ltac:(lia)).
Defined.

(** ** Counting and the limiter *)

(** X15. An opportunity above the threshold that the limiter drops is still
    counted: the detection loop increments [opportunities_found] after
    [on_opportunity_detected] returns, whether or not it stored or delivered
    anything. *)
Theorem rate_limited_opportunity_is_counted
    (clock : nat → Z) (opp : ArbitrageOpportunity) (e : Engine) :
  is_profitable opp (min_profit_threshold (config_ e)) = true →
  admitted (clock 0) e = false →
  let e' := process_opportunities clock [opp] e in
  detected_opportunities_ e' = detected_opportunities_ e
  ∧ delivered e' = delivered e
  ∧ opportunities_found (stats_ e')
    = ((opportunities_found (stats_ e) + 1) `mod` 2 ^ 64)%Z.
Proof.
  intros Hprof Hdrop. unfold process_opportunities. simpl. rewrite Hprof.
  destruct (on_opportunity_detected_dropped (clock 0) opp e Hdrop) as (Hh & Hd & Hs & _).
  simpl. by rewrite Hs.
Qed.

Lemma rate_limited_opportunity_is_counted_witness :
  let e := engine_with_queue None none_per_second 0 in
  let e' := process_opportunities (λ _, 5%Z) [sample_opportunity 5] e in
  detected_opportunities_ e' = []
  ∧ delivered e' = []
  ∧ opportunities_found (stats_ e') = 1%Z.
Proof.
  apply (rate_limited_opportunity_is_counted (λ _, 5%Z) (sample_opportunity 5)
           (engine_with_queue None none_per_second 0) eq_refl eq_refl).
Defined.

(** ** The profit test *)

Lemma SFcompare_refl f :
  SFcompare f f = match f with S754_nan => None | _ => Some Eq end.
Proof.
  destruct f as [[]|[]| |[] m e]; simpl; try done.
  all: by rewrite Z.compare_refl, Pos.compare_cont_refl.
Qed.

Lemma is_nan_Prim2SF f : is_nan f = true ↔ Prim2SF f = S754_nan.
Proof.
  unfold is_nan. rewrite FloatAxioms.eqb_spec. unfold SFeqb.
  rewrite SFcompare_refl. by destruct (Prim2SF f).
Qed.


Lemma ltb_nan_r x y : is_nan y = true → (x <? y)%float = false.
Proof.
  intros H%is_nan_Prim2SF. rewrite FloatAxioms.ltb_spec. unfold SFltb. rewrite H.
  unfold SFcompare. by destruct (Prim2SF x) as [[]|[]| |[]].
Qed.



(** ** The walk along the parents and the extracted cycle *)

Lemma trace_back_walk fuel parent current visited cycle cur' cycle' :
  trace_back fuel parent current visited cycle = Some (cur', cycle') →
  (∀ c, c ∈ visited ↔ c ∈ cycle) →
  NoDup cycle → Forall (λ a, a ≠ (-1)%Z) cycle →
  NoDup cycle' ∧ Forall (λ a, a ≠ (-1)%Z) cycle'
  ∧ length cycle' + 1 ≤ length cycle + fuel.
Proof.
  revert current visited cycle.
  induction fuel as [|fuel IH]; intros current visited cycle; simpl; [done|].
  destruct (negb (current =? -1)%Z && bool_decide (current ∉ visited)) eqn:Hgo.
  - intros Hrun Hvis Hnd Hall.
    apply andb_true_iff in Hgo as [Hm Hv].
    apply negb_true_iff, Z.eqb_neq in Hm. apply bool_decide_eq_true in Hv.
    apply IH in Hrun.
    + destruct Hrun as (? & ? & Hlen). rewrite length_app in Hlen. simpl in Hlen.
      split_and!; [done..|lia].
    + intros c. rewrite elem_of_union, elem_of_singleton, elem_of_app, list_elem_of_singleton.
      rewrite Hvis. tauto.
    + apply NoDup_app. split_and!; [done| |apply NoDup_singleton].
      intros x Hx ->%list_elem_of_singleton. by apply Hv, Hvis.
    + apply Forall_app. split; [done|]. by apply Forall_singleton.
  - intros [= <- <-] _ Hnd Hall. split_and!; [done..|lia].
Qed.

(** X17. The path of an opportunity is simple: no node occurs twice, no entry
    is the -1 that ends a walk, and the path is no longer than the walk, which
    takes at most one step more than there are parents. *)
Theorem arbitrage_path_is_simple (cycle_node : Z) (parent : list Z) (p : list Z) :
  arbitrage_path cycle_node parent = Some p →
  NoDup p
  ∧ Forall (λ a, a ≠ (-1)%Z) p
  ∧ 1 ≤ length p ≤ length parent + 1.
Proof.
  unfold arbitrage_path.
  destruct (trace_back (length parent + 2) parent cycle_node ∅ [])
    as [[current cycle]|] eqn:Hrun; [|done].
  destruct ((current =? -1)%Z || (length cycle <? 3)); [done|].
  destruct (range_from current cycle) as [c|] eqn:Hc; [|done].
  intros [= <-].
  apply trace_back_walk in Hrun as (Hnd & Hall & Hlen);
    [|set_solver|apply NoDup_nil_2|done].
  apply range_from_spec in Hc as (pre & rest & -> & ->).
  apply NoDup_app in Hnd as (_ & _ & Hnd).
  apply Forall_app in Hall as [_ Hall].
  rewrite length_app in Hlen. simpl in Hlen.
  rewrite rev_alt. fold (reverse (current :: rest)).
  split_and!.
  - by rewrite reverse_Permutation.
  - by rewrite reverse_Permutation.
  - rewrite length_reverse. simpl. lia.
  - rewrite length_reverse. simpl. lia.
Qed.

Lemma arbitrage_path_is_simple_witness :
  NoDup [1; 2; 0]%Z
  ∧ Forall (λ a, a ≠ (-1)%Z) [1; 2; 0]%Z
  ∧ 1 ≤ length [1; 2; 0]%Z ≤ length (parents 5 [2; 0; 1; 0]%Z) + 1.
Proof.
  apply (arbitrage_path_is_simple 3 (parents 5 [2; 0; 1; 0]%Z) [1; 2; 0]%Z).
  reflexivity.
Defined.

Lemma bellman_ford_parent_edges g src : parent_edges g (bf_parent (bellman_ford g src)).
Proof.
  set (P := λ st : BFState, parent_edges g (bf_parent st)).
  assert (∀ u v st, P st → P (relax_edge g u v st)) as Hedge.
  { intros u v st Hst. unfold relax_edge.
    destruct (negb _) eqn:Hcell; [|done]. destruct (_ <? _)%float; [|done].
    apply negb_true_iff in Hcell.
    intros v' u' Hlook Hne. simpl in Hlook.
    apply list_lookup_insert_Some in Hlook as [(<- & <- & _)|(_ & Hlook)].
    - split; [lia|]. by rewrite Nat2Z.id.
    - by apply Hst. }
  assert (∀ u st, P st → P (relax_from g u st)) as Hfrom.
  { intros u st Hst. unfold relax_from.
    destruct (_ =? _)%float; [done|].
    apply (fold_left_preserves P (λ _, True)); [|by apply Forall_true|done].
    intros a b _. by apply Hedge. }
  assert (∀ st, P st → P (relax_pass g st)) as Hpass.
  { intros st Hst. unfold relax_pass.
    apply (fold_left_preserves P (λ _, True)); [|by apply Forall_true|done].
    intros a b _. by apply Hfrom. }
  assert (∀ passes st, P st → P (relax_loop g passes st)) as Hloop.
  { induction passes as [|k IH]; intros st Hst; simpl; [done|].
    destruct (bf_updated (relax_pass g st)); [apply IH|]; by apply Hpass. }
  apply Hloop. intros v u Hlook Hne. simpl in Hlook.
  apply lookup_replicate in Hlook as [-> _]. done.
Qed.

(** X18. A cycle extracted from the parents of a search runs along quoted
    edges only: every step of the path, the closing one included, goes from a
    node of the graph along an edge whose weight is not the infinity of a
    missing quote. *)
Theorem extracted_cycle_follows_quoted_edges
    (g : PriceGraph) (src : nat) (cycle_node : Z) (p : list Z) :
  arbitrage_path cycle_node (bf_parent (bellman_ford g src)) = Some p →
  ∀ i, i < length p →
    path_node p i < size_ g
    ∧ (cell g (path_node p i) (path_node p ((i + 1) `mod` length p)) =? Dbl.infinity)%float
      = false.
Proof.
  intros Hp i Hi.
  destruct (arbitrage_path_cycle _ _ _ Hp) as (_ & Hcyc).
  destruct (Hcyc i Hi) as (a & b & Ha & Hb & Hpar).
  destruct (bellman_ford_parent_range g src) as (Hlen & _ & Hrange).
  pose proof (bellman_ford_parent_edges g src) as Hedges.
  assert (a ≠ (-1)%Z) as Hne.
  { unfold arbitrage_path in Hp.
    destruct (trace_back _ _ _ _ _) as [[current cycle]|] eqn:Hrun; [|done].
    destruct (_ || _); [done|].
    destruct (range_from current cycle) as [c|] eqn:Hc; [|done].
    injection Hp as <-.
    apply trace_back_walk in Hrun as (_ & Hall & _);
      [|set_solver|apply NoDup_nil_2|done].
    apply range_from_spec in Hc as (pre & rest & -> & ->).
    apply Forall_app in Hall as [_ Hall].
    rewrite Forall_forall in Hall. apply Hall.
    rewrite rev_alt in Ha. fold (reverse (current :: rest)) in Ha.
    apply list_elem_of_lookup_2 in Ha. by rewrite elem_of_reverse in Ha. }
  unfold path_node. rewrite Ha, Hb. simpl.
  unfold parent_at in Hpar.
  destruct (Z.ltb_spec b 0) as [|Hb0]; [congruence|].
  destruct (bf_parent (bellman_ford g src) !! Z.to_nat b) as [a'|] eqn:Hlook;
    simpl in Hpar; [subst a'|congruence].
  destruct (Hedges _ _ Hlook Hne) as [Ha0 Hcell].
  split; [|done].
  rewrite Forall_forall in Hrange.
  apply list_elem_of_lookup_2 in Hlook. apply Hrange in Hlook. lia.
Qed.

Lemma extracted_cycle_follows_quoted_edges_witness :
  let g := price_graph_ tiny_cycle_engine in
  let p := [1; 2; 0]%Z in
  path_node p 2 < size_ g
  ∧ (cell g (path_node p 2) (path_node p ((2 + 1) `mod` length p)) =? Dbl.infinity)%float
    = false.
Proof.
  intros g p.
  assert (arbitrage_path 0 (bf_parent (bellman_ford g 0)) = Some p) as Hp
    by (vm_compute; reflexivity).
  exact (extracted_cycle_follows_quoted_edges g 0 0 p Hp 2 ltac:(simpl; lia)).
Defined.

(** ** A graph without quotes *)

Lemma dist_at_initial n src u :
  dist_at (bf_dist (initial_search n src)) u = 0%float
  ∨ dist_at (bf_dist (initial_search n src)) u = Dbl.infinity.
Proof.
  unfold dist_at, initial_search. simpl.
  destruct (<[src:=0%float]> (replicate n Dbl.infinity) !! u) as [d|] eqn:Hlook;
    simpl; [|by right].
  apply list_lookup_insert_Some in Hlook as [(_ & <- & _)|(_ & Hlook)]; [by left|].
  apply lookup_replicate in Hlook as [-> _]. by right.
Qed.

Lemma relax_edge_new_graph n src u v :
  (dist_at (bf_dist (initial_search n src)) u =? Dbl.infinity)%float = false →
  relax_edge (new_graph n) u v (initial_search n src) = initial_search n src.
Proof.
  intros Hu. unfold relax_edge. cbn [cell new_graph].
  destruct (Nat.eqb_spec u v) as [<-|Hne]; [|done].
  destruct (dist_at_initial n src u) as [Hd|Hd]; rewrite Hd in *; [|done].
  done.
Qed.

Lemma relax_pass_new_graph n src :
  relax_pass (new_graph n) (initial_search n src) = initial_search n src.
Proof.
  unfold relax_pass.
  change {| bf_dist := bf_dist (initial_search n src);
            bf_parent := bf_parent (initial_search n src); bf_updated := false |}
    with (initial_search n src).
  apply (fold_left_preserves (λ st, st = initial_search n src) (λ _, True));
    [|by apply Forall_true|done].
  intros st u _ ->. unfold relax_from.
  destruct (_ =? _)%float eqn:Hu; [done|].
  apply (fold_left_preserves (λ st, st = initial_search n src) (λ _, True));
    [|by apply Forall_true|done].
  intros st v _ ->. by apply relax_edge_new_graph.
Qed.

Lemma bellman_ford_new_graph n src :
  bellman_ford (new_graph n) src = initial_search n src.
Proof.
  unfold bellman_ford. cbn [size_ new_graph].
  change {| bf_dist := <[src:=0%float]> (replicate n Dbl.infinity);
            bf_parent := replicate n (-1)%Z; bf_updated := false |}
    with (initial_search n src).
  destruct (n - 1) as [|k]; simpl; [done|].
  by rewrite relax_pass_new_graph.
Qed.

Section FreshGraph.
Context {libm : Libm}.

Lemma find_negative_cycles_new_graph n now e :
  price_graph_ e = new_graph n → find_negative_cycles now e = [].
Proof.
  intros Hg. unfold find_negative_cycles. rewrite Hg. cbn [size_ new_graph].
  apply (fold_left_preserves (λ opps, opps = []) (λ _, True));
    [|by apply Forall_true|done].
  intros opps src _ ->.
  destruct (negb _); [done|].
  rewrite bellman_ford_new_graph. unfold check_negative_cycles.
  apply (fold_left_preserves (λ opps, opps = []) (λ _, True));
    [|by apply Forall_true|done].
  intros opps u _ ->. unfold check_from.
  destruct (_ =? _)%float eqn:Hu; [done|].
  apply (fold_left_preserves (λ opps, opps = []) (λ _, True));
    [|by apply Forall_true|done].
  intros opps v _ ->. unfold check_edge. rewrite Hg. cbn [cell new_graph].
  destruct (Nat.eqb_spec u v) as [<-|Hne]; [|done].
  destruct (dist_at_initial n src u) as [Hd|Hd]; rewrite Hd in *; done.
Qed.

(** X19. A graph without quotes holds no opportunity, whatever its size: while
    the graph is as the constructor left it (no tick has been processed), the
    search from every source stops after one pass without an update, the
    check finds no edge to relax, and an iteration of the detection loop
    leaves the engine as it was. *)
Theorem fresh_graph_has_no_opportunity
    (n : nat) (now : Z) (clock : nat → Z) (e : Engine) :
  price_graph_ e = new_graph n →
  (∀ src, bellman_ford (price_graph_ e) src = initial_search n src)
  ∧ find_negative_cycles now e = []
  ∧ detect_arbitrage_opportunities_step now clock e = e.
Proof.
  intros Hg. split_and!.
  - intros src. rewrite Hg. apply bellman_ford_new_graph.
  - by apply (find_negative_cycles_new_graph n).
  - unfold detect_arbitrage_opportunities_step.
    rewrite (find_negative_cycles_new_graph n now e Hg).
    by destruct (running_ e).
Qed.


End FreshGraph.

Lemma fresh_graph_has_no_opportunity_witness :
  let e := start (engine_with_queue None default_config 0) in
  find_negative_cycles (libm := ref_libm) 7 e = []
  ∧ detect_arbitrage_opportunities_step (libm := ref_libm) 7 (λ _, 7%Z) e = e.
Proof.
  apply (fresh_graph_has_no_opportunity (libm := ref_libm) (MAX_EXCHANGES * MAX_SYMBOLS)
           7 (λ _, 7%Z) (start (engine_with_queue None default_config 0)) eq_refl).
Defined.

(** ** The memory pool *)

Lemma acquire_loop_spec spurious p attempts :
  match (acquire_loop spurious p attempts).1 with
  | Some idx =>
      ∃ i, i ∈ attempts
           ∧ idx = (next_free_ p + i) `mod` pool_size p
           ∧ in_use_ p !! idx = Some false
           ∧ spurious i = false
           ∧ (acquire_loop spurious p attempts).2
             = {| next_free_ := (idx + 1) `mod` pool_size p;
                  in_use_ := <[idx := true]> (in_use_ p) |}
  | None =>
      (acquire_loop spurious p attempts).2 = p
      ∧ ∀ i, i ∈ attempts →
          spurious i = true
          ∨ in_use_ p !! ((next_free_ p + i) `mod` pool_size p) ≠ Some false
  end.
Proof.
  induction attempts as [|i rest IH]; simpl.
  - split; [done|]. intros i Hi. by apply elem_of_nil in Hi.
  - destruct (in_use_ p !! ((next_free_ p + i) `mod` pool_size p)) as [[]|] eqn:Hflag.
    + destruct (acquire_loop spurious p rest).1 as [idx|].
      * destruct IH as (j & Hj & IH). exists j. split; [by right|done].
      * destruct IH as [Hp IH]. split; [done|].
        intros j [->|Hj]%elem_of_cons; [right; congruence | by apply IH].
    + destruct (spurious i) eqn:Hsp.
      * destruct (acquire_loop spurious p rest).1 as [idx|].
        -- destruct IH as (j & Hj & IH). exists j. split; [by right|done].
        -- destruct IH as [Hp IH]. split; [done|].
           intros j [->|Hj]%elem_of_cons; [by left | by apply IH].
      * simpl. exists i. split_and!; [by left|done..].
    + destruct (acquire_loop spurious p rest).1 as [idx|].
      * destruct IH as (j & Hj & IH). exists j. split; [by right|done].
      * destruct IH as [Hp IH]. split; [done|].
        intros j [->|Hj]%elem_of_cons; [right; congruence | by apply IH].
Qed.

(** The attempts of [acquire] visit every slot. *)
Lemma pool_attempts_cover (start size j : nat) :
  j < size → ∃ i, i ∈ seq 0 size ∧ (start + i) `mod` size = j.
Proof.
  intros Hj.
  assert (start `mod` size < size) as Hm by (apply Nat.mod_upper_bound; lia).
  destruct (decide (start `mod` size ≤ j)) as [Hle|Hgt].
  - exists (j - start `mod` size). split; [apply elem_of_seq; lia|].
    rewrite <- Nat.Div0.add_mod_idemp_l.
    replace (start `mod` size + (j - start `mod` size)) with j by lia.
    by apply Nat.mod_small.
  - exists (j + size - start `mod` size). split; [apply elem_of_seq; lia|].
    rewrite <- Nat.Div0.add_mod_idemp_l.
    replace (start `mod` size + (j + size - start `mod` size)) with (j + 1 * size) by lia.
    rewrite Nat.Div0.mod_add. by apply Nat.mod_small.
Qed.

(** X21. [acquire] only hands out a slot that is free: the slot returned lies
    in the pool, its flag was false and is true afterwards, every other flag
    is as before, and the cursor is on the slot after it. *)
Theorem acquire_hands_out_a_free_slot
    (spurious : nat → bool) (p p' : MemoryPool) (idx : nat) :
  acquire spurious p = (Some idx, p') →
  idx < pool_size p
  ∧ in_use_ p !! idx = Some false
  ∧ in_use_ p' !! idx = Some true
  ∧ (∀ j, j ≠ idx → in_use_ p' !! j = in_use_ p !! j)
  ∧ pool_size p' = pool_size p
  ∧ next_free_ p' = (idx + 1) `mod` pool_size p.
Proof.
  intros Hacq. pose proof (acquire_loop_spec spurious p (seq 0 (pool_size p))) as Hspec.
  unfold acquire in Hacq. rewrite Hacq in Hspec. simpl in Hspec.
  destruct Hspec as (i & _ & _ & Hfree & _ & ->).
  assert (idx < pool_size p) as Hidx by (by apply lookup_lt_Some in Hfree).
  split_and!; simpl; try done.
  - by apply list_lookup_insert_eq.
  - intros j Hj. by apply list_lookup_insert_ne.
  - unfold pool_size. simpl. by rewrite length_insert.
Qed.

Lemma acquire_hands_out_a_free_slot_witness :
  2 < pool_size half_used_pool
  ∧ in_use_ half_used_pool !! 2 = Some false
  ∧ in_use_ (acquire no_spurious_failure half_used_pool).2 !! 2 = Some true
  ∧ (∀ j, j ≠ 2 → in_use_ (acquire no_spurious_failure half_used_pool).2 !! j
                  = in_use_ half_used_pool !! j)
  ∧ pool_size (acquire no_spurious_failure half_used_pool).2 = pool_size half_used_pool
  ∧ next_free_ (acquire no_spurious_failure half_used_pool).2
    = (2 + 1) `mod` pool_size half_used_pool.
Proof.
  exact (acquire_hands_out_a_free_slot no_spurious_failure half_used_pool _ 2 eq_refl).
Defined.

(** X22. [acquire] returns [nullptr] without touching the pool, and, when no
    [compare_exchange_weak] fails spuriously, exactly when every slot is in
    use: the loop visits every slot, wherever the cursor is. *)
Theorem acquire_fails_only_when_exhausted (spurious : nat → bool) (p : MemoryPool) :
  (∀ i, spurious i = false) →
  ((acquire spurious p).1 = None
   ↔ ∀ j, j < pool_size p → in_use_ p !! j = Some true)
  ∧ ((acquire spurious p).1 = None → (acquire spurious p).2 = p).
Proof.
  intros Hsp. pose proof (acquire_loop_spec spurious p (seq 0 (pool_size p))) as Hspec.
  unfold acquire. split; [split|].
  - intros Hnone j Hj. rewrite Hnone in Hspec. destruct Hspec as [_ Hall].
    destruct (pool_attempts_cover (next_free_ p) (pool_size p) j Hj) as (i & Hi & Heq).
    destruct (Hall i Hi) as [Hs|Hflag]; [by rewrite Hsp in Hs|].
    rewrite Heq in Hflag.
    destruct (lookup_lt_is_Some_2 (in_use_ p) j Hj) as [[] Hb]; [done|].
    by rewrite Hb in Hflag.
  - intros Hall.
    destruct (acquire_loop spurious p (seq 0 (pool_size p))).1 as [idx|]; [|done].
    destruct Hspec as (i & _ & _ & Hfree & _).
    rewrite Hall in Hfree by (by apply lookup_lt_Some in Hfree). done.
  - intros Hnone. rewrite Hnone in Hspec. by destruct Hspec.
Qed.

Lemma acquire_fails_only_when_exhausted_witness :
  ((acquire no_spurious_failure (new_pool 3)).1 = None
   ↔ ∀ j, j < pool_size (new_pool 3) → in_use_ (new_pool 3) !! j = Some true)
  ∧ ((acquire no_spurious_failure (new_pool 3)).1 = None
     → (acquire no_spurious_failure (new_pool 3)).2 = new_pool 3).
Proof.
  exact (acquire_fails_only_when_exhausted no_spurious_failure (new_pool 3) (λ _, eq_refl)).
Defined.

(** X23. [release] undoes [acquire] on the flags: releasing the slot that was
    handed out restores every flag (the cursor stays where [acquire] left
    it).  A pointer outside the pool is ignored. *)
Theorem release_undoes_acquire
    (spurious : nat → bool) (p p' : MemoryPool) (idx : nat) :
  acquire spurious p = (Some idx, p') →
  in_use_ (release (Z.of_nat idx) p') = in_use_ p
  ∧ next_free_ (release (Z.of_nat idx) p') = next_free_ p'
  ∧ ∀ offset, ¬ (0 ≤ offset < Z.of_nat (pool_size p'))%Z → release offset p' = p'.
Proof.
  intros Hacq. pose proof (acquire_loop_spec spurious p (seq 0 (pool_size p))) as Hspec.
  unfold acquire in Hacq. rewrite Hacq in Hspec. simpl in Hspec.
  destruct Hspec as (i & _ & _ & Hfree & _ & ->).
  assert (idx < pool_size p) as Hidx by (by apply lookup_lt_Some in Hfree).
  unfold release, pool_size in *. simpl in *. rewrite length_insert in *.
  split_and!.
  - destruct (Z.leb_spec 0 (Z.of_nat idx)), (Z.ltb_spec (Z.of_nat idx) (Z.of_nat (length (in_use_ p))));
      try lia. simpl. rewrite Nat2Z.id, list_insert_insert_eq. by apply list_insert_id.
  - by destruct (_ && _).
  - intros offset Hout.
    destruct (Z.leb_spec 0 offset), (Z.ltb_spec offset (Z.of_nat (length (in_use_ p))));
      simpl; try done. lia.
Qed.

Lemma release_undoes_acquire_witness :
  in_use_ (release (Z.of_nat 2) (acquire no_spurious_failure half_used_pool).2)
  = in_use_ half_used_pool
  ∧ next_free_ (release (Z.of_nat 2) (acquire no_spurious_failure half_used_pool).2)
    = next_free_ (acquire no_spurious_failure half_used_pool).2
  ∧ ∀ offset,
      ¬ (0 ≤ offset < Z.of_nat (pool_size (acquire no_spurious_failure half_used_pool).2))%Z
      → release offset (acquire no_spurious_failure half_used_pool).2
        = (acquire no_spurious_failure half_used_pool).2.
Proof.
  exact (release_undoes_acquire no_spurious_failure half_used_pool _ 2 eq_refl).
Defined.

(** X24. Two slots handed out one after the other are different, whatever
    spurious failures occur: a slot is not handed out again before it is
    released. *)
Theorem successive_acquires_differ
    (spurious1 spurious2 : nat → bool) (p p1 p2 : MemoryPool) (idx1 idx2 : nat) :
  acquire spurious1 p = (Some idx1, p1) →
  acquire spurious2 p1 = (Some idx2, p2) →
  idx1 ≠ idx2.
Proof.
  intros Hacq1 Hacq2.
  pose proof (acquire_loop_spec spurious1 p (seq 0 (pool_size p))) as Hspec1.
  pose proof (acquire_loop_spec spurious2 p1 (seq 0 (pool_size p1))) as Hspec2.
  unfold acquire in Hacq1, Hacq2. rewrite Hacq1 in Hspec1. rewrite Hacq2 in Hspec2.
  simpl in *.
  destruct Hspec1 as (i1 & _ & _ & Hfree1 & _ & ->).
  destruct Hspec2 as (i2 & _ & _ & Hfree2 & _). simpl in Hfree2.
  intros <-. rewrite list_lookup_insert_eq in Hfree2; [done|].
  by apply lookup_lt_Some in Hfree1.
Qed.

Lemma successive_acquires_differ_witness :
  (acquire no_spurious_failure half_used_pool).1 = Some 2
  ∧ (acquire no_spurious_failure (acquire no_spurious_failure half_used_pool).2).1 = Some 3
  ∧ 2 ≠ 3.
Proof.
  split_and!; [reflexivity | reflexivity |].
  exact (successive_acquires_differ no_spurious_failure no_spurious_failure
           half_used_pool _ _ 2 3 eq_refl eq_refl).
Defined.

(** ** server.js: the detection and the router *)

Lemma removelast_take {A} (l : list A) : removelast l = take (length l - 1) l.
Proof.
  induction l as [|a [|b l] IH]; simpl in *; [done..|].
  rewrite Nat.sub_0_r in IH. by rewrite IH.
Qed.

(** X25. [detectArbitrageOpportunities] keeps the 50 newest opportunities,
    newest first.  A call either changes nothing or puts one opportunity at
    the head of the list, dated with the clock reading and with a profit above
    0.001 (so never a NaN), keeps the 49 newest of the earlier ones behind it
    and adds one to [opportunities_found]; it changes nothing when one of the
    three prices is missing. *)
Theorem detect_keeps_50_newest_first (now : Z) (s : JsState) :
  length (arbitrageOpportunities s) ≤ 50 →
  let s' := detectArbitrageOpportunities now s in
  length (arbitrageOpportunities s') ≤ 50
  ∧ binance s' = binance s
  ∧ (s' = s
     ∨ ∃ o, arbitrageOpportunities s' = o :: take 49 (arbitrageOpportunities s)
            ∧ (0x1.0624dd2f1a9fcp-10 <? js_profit_percentage o)%float = true
            ∧ is_nan (js_profit_percentage o) = false
            ∧ js_detected_at o = now
            ∧ js_opportunities_found s' = (js_opportunities_found s + 1)%float)
  ∧ (binance s !! "ethbtc"%string = None → s' = s).
Proof.
  intros Hlen s'. subst s'. unfold detectArbitrageOpportunities.
  destruct (binance s !! "btcusdt"%string) as [btcusdt|]; [|by split_and!; try left].
  destruct (binance s !! "ethbtc"%string) as [ethbtc|]; [|by split_and!; try left].
  destruct (binance s !! "ethusdt"%string) as [ethusdt|]; [|by split_and!; try left].
  destruct (_ <? _)%float eqn:Hprofit; [|by split_and!; try left].
  set (o := {| js_path := _ |}).
  assert ((if 50 <? length (o :: arbitrageOpportunities s)
           then removelast (o :: arbitrageOpportunities s)
           else o :: arbitrageOpportunities s)
          = o :: take 49 (arbitrageOpportunities s)) as Heq.
  { destruct (Nat.ltb_spec 50 (length (o :: arbitrageOpportunities s))) as [Hfull|Hroom];
      change (length (o :: arbitrageOpportunities s))
        with (S (length (arbitrageOpportunities s))) in *.
    - assert (length (arbitrageOpportunities s) = 50) as H50 by lia.
      rewrite removelast_take.
      change (length (o :: arbitrageOpportunities s)) with (S (length (arbitrageOpportunities s))).
      rewrite H50. reflexivity.
    - by rewrite take_ge by lia. }
  cbn [arbitrageOpportunities binance js_opportunities_found]. rewrite Heq.
  split_and!.
  - simpl. rewrite length_take. lia.
  - done.
  - right. exists o. split_and!; try done.
    destruct (is_nan (js_profit_percentage o)) eqn:Hnan; [|done].
    by rewrite (ltb_nan_r _ _ Hnan) in Hprofit.
  - done.
Qed.

Lemma detect_keeps_50_newest_first_witness :
  let s' := detectArbitrageOpportunities 7 js_state in
  length (arbitrageOpportunities s') ≤ 50
  ∧ binance s' = binance js_state
  ∧ (s' = js_state
     ∨ ∃ o, arbitrageOpportunities s' = o :: take 49 (arbitrageOpportunities js_state)
            ∧ (0x1.0624dd2f1a9fcp-10 <? js_profit_percentage o)%float = true
            ∧ is_nan (js_profit_percentage o) = false
            ∧ js_detected_at o = 7%Z
            ∧ js_opportunities_found s' = (js_opportunities_found js_state + 1)%float)
  ∧ (binance js_state !! "ethbtc"%string = None → s' = js_state).
Proof.
  exact (detect_keeps_50_newest_first 7 js_state ltac:(simpl; lia)).
Defined.

Lemma prefix_api_health : String.prefix "/api/" "/health" = false.
Proof. reflexivity. Qed.

(** X26. The health handler cannot be reached.  Its test, [req.url ===
    '/health'], sits inside the branch for urls that start with ['/api/'], so
    no request is answered by it: [GET /health] is served as the static file
    [./health], and within ['/api/'] everything but the two endpoints, with
    [GET], is answered 404. *)
Theorem health_handler_is_unreachable (url method : string) :
  route url method ≠ ApiHealth
  ∧ route "/health" "GET" = StaticFile "./health"
  ∧ (String.prefix "/api/" url = true →
     route url method = ApiOpportunities ∧ url = "/api/opportunities"%string ∧ method = "GET"%string
     ∨ route url method = ApiStats ∧ url = "/api/stats"%string ∧ method = "GET"%string
     ∨ route url method = ApiNotFound)
  ∧ (String.prefix "/api/" url = false → ∃ filePath, route url method = StaticFile filePath).
Proof.
  unfold route. split_and!.
  - destruct (String.prefix "/api/" url) eqn:Hapi; [|by destruct (String.eqb _ _)].
    destruct (String.eqb_spec url "/api/opportunities"), (String.eqb_spec method "GET");
      simpl; try done.
    all: destruct (String.eqb_spec url "/api/stats"); simpl; try done.
    all: destruct (String.eqb_spec url "/health") as [->|]; simpl; try done.
    all: by vm_compute in Hapi.
  - reflexivity.
  - intros Hapi. rewrite Hapi.
    destruct (String.eqb_spec url "/api/opportunities"), (String.eqb_spec method "GET");
      simpl; try (by left).
    all: destruct (String.eqb_spec url "/api/stats"); simpl; try (by right; left).
    all: destruct (String.eqb_spec url "/health") as [->|]; simpl; try (by right; right).
    all: by vm_compute in Hapi.
  - intros ->. by eexists.
Qed.
